(** * vectorbt: tolerant float helpers, column grouping and the portfolio drivers

    A shallow embedding of the parts of [vectorbt] that the portfolio
    specification talks about:

    - [vectorbt/utils/math_.py]: the tolerance-aware comparisons and [add_nb];
    - [vectorbt/base/grouping.py]: [get_group_lens_nb] and the [Grouper]
      permission checks;
    - [vectorbt/portfolio/base.py]: the argument preparation of the drivers
      ([from_orders], [from_signals], [from_order_func]) and the derived
      series ([get_asset_value], [get_value]);
    - the from-orders kernel and the series computed from its records,
      which [vectorbt.portfolio.nb] holds and the sources do not include:
      they follow the specification.

    The definitions come first, module by module; the properties follow.

    Python floats are IEEE 754 binary64 numbers and are modelled by Rocq's
    primitive [float], whose operations are the same binary64 operations.
    NumPy integer arrays ([np.int_]) are lists of [Z]; no arithmetic in the
    modelled code can leave the 64-bit range (only counters bounded by the
    array length are incremented). *)

From Stdlib Require Import ZArith Bool Lia Floats.
From stdpp Require Import base list sorting strings gmap.

#[local] Set Warnings "-inexact-float".
#[local] Open Scope Z_scope.

(* ===================================================================== *)
(** * Python exceptions and fallible computations *)
(* ===================================================================== *)

Module Py.

(** The exception classes the modelled code raises, with their message. *)
Inductive exn : Type :=
| ValueError (msg : string)
| TypeError (msg : string)
| KeyError (msg : string)
| IndexError (msg : string).

(** A call either returns a value or raises. *)
Inductive result (A : Type) : Type :=
| Ok (a : A)
| Raise (e : exn).
Arguments Ok {A} a.
Arguments Raise {A} e.

Definition bind {A B} (m : result A) (k : A -> result B) : result B :=
  match m with
  | Ok a => k a
  | Raise e => Raise e
  end.

Definition raises {A} (m : result A) : bool :=
  match m with Ok _ => false | Raise _ => true end.

(** [x ← m; k] sequences two calls and propagates an exception. *)
#[export] Instance result_ret : MRet result := @Ok.
#[export] Instance result_bind : MBind result :=
  fun A B k m => bind m k.

End Py.
Export (hints) Py.

(* ===================================================================== *)
(** * [vectorbt/utils/math_.py] *)
(* ===================================================================== *)

Module Math.

#[local] Open Scope float_scope.

(** [np.isnan], [np.isinf], and [np.sign] on a float. [np.sign] is
    [1.] for a positive argument, [-1.] for a negative one, [0.] for a
    zero and NaN for NaN. *)
Definition isnan (a : float) : bool := negb (a =? a).
Definition isinf (a : float) : bool := abs a =? infinity.
Definition np_sign (a : float) : float :=
  if 0 <? a then 1 else if a <? 0 then -1 else if a =? 0 then 0 else nan.

(** Python's [!=] on floats. *)
Definition fneq (a b : float) : bool := negb (a =? b).

(** Python's builtin [max] on two arguments: the first argument is kept
    unless the second compares greater. *)
Definition py_max (x y : float) : float := if x <? y then y else x.

(** The module globals read from [settings['math']] at import time. They
    are the default arguments of every helper below. *)
Record settings : Type := {
  _use_tol : bool;
  _rel_tol : float;
  _abs_tol : float
}.

(** The values the specification gives for the defaults. *)
Definition default_settings : settings :=
  {| _use_tol := true; _rel_tol := 1e-9; _abs_tol := 1e-12 |}.

Section Helpers.
Variable cfg : settings.

(** [is_close_nb] (lines 16-29). *)
Definition is_close_nb (a b : float) (use_tol : bool)
           (rel_tol abs_tol : float) : bool :=
  if isnan a || isnan b then false
  else if isinf a || isinf b then false
  else if a =? b then true
  else use_tol
       && (abs (a - b) <=? py_max (rel_tol * py_max (abs a) (abs b)) abs_tol).

(** [is_close_or_less_nb] (lines 32-41). The inner call passes
    [rel_tol] and [abs_tol] only, so its [use_tol] is the module
    default. *)
Definition is_close_or_less_nb (a b : float) (use_tol : bool)
           (rel_tol abs_tol : float) : bool :=
  if use_tol && is_close_nb a b (_use_tol cfg) rel_tol abs_tol then true
  else a <? b.

(** [is_less_nb] (lines 44-53). *)
Definition is_less_nb (a b : float) (use_tol : bool)
           (rel_tol abs_tol : float) : bool :=
  if use_tol && is_close_nb a b (_use_tol cfg) rel_tol abs_tol then false
  else a <? b.

(** [is_addition_zero_nb] (lines 56-67). *)
Definition is_addition_zero_nb (a b : float) (use_tol : bool)
           (rel_tol abs_tol : float) : bool :=
  if use_tol then
    if fneq (np_sign a) (np_sign b)
    then is_close_nb (abs a) (abs b) (_use_tol cfg) rel_tol abs_tol
    else is_close_nb (a + b) 0 (_use_tol cfg) rel_tol abs_tol
  else a =? - b.

(** [add_nb] (lines 70-79). *)
Definition add_nb (a b : float) (use_tol : bool)
           (rel_tol abs_tol : float) : float :=
  if use_tol && is_addition_zero_nb a b (_use_tol cfg) rel_tol abs_tol
  then 0
  else a + b.

(** The helpers called with their default arguments. *)
Definition is_close (a b : float) : bool :=
  is_close_nb a b (_use_tol cfg) (_rel_tol cfg) (_abs_tol cfg).
Definition is_close_or_less (a b : float) : bool :=
  is_close_or_less_nb a b (_use_tol cfg) (_rel_tol cfg) (_abs_tol cfg).
Definition is_less (a b : float) : bool :=
  is_less_nb a b (_use_tol cfg) (_rel_tol cfg) (_abs_tol cfg).
Definition is_addition_zero (a b : float) : bool :=
  is_addition_zero_nb a b (_use_tol cfg) (_rel_tol cfg) (_abs_tol cfg).
Definition add (a b : float) : float :=
  add_nb a b (_use_tol cfg) (_rel_tol cfg) (_abs_tol cfg).
End Helpers.

(** ** Sign classes of a pair *)

(** One operand is negative and the other positive. *)
Definition opposite_sign (a b : float) : bool :=
  (a <? 0) && (0 <? b) || (0 <? a) && (b <? 0).

(** Both positive, both negative, or both zero. *)
Definition same_sign (a b : float) : bool :=
  (0 <? a) && (0 <? b) || (a <? 0) && (b <? 0) || (a =? 0) && (b =? 0).

End Math.

(* ===================================================================== *)
(** * [vectorbt/base/grouping.py] *)
(* ===================================================================== *)

Module Grouping.

Import Py.

(** ** [get_group_lens_nb] (lines 73-97) *)

(** The local variables of the loop. [result] is the array allocated by
    [np.empty]; [j] indexes its next free cell. *)
Record loop_state : Type := {
  result : list Z;
  j : nat;
  last_group : Z;
  group_len : Z
}.

(** [result[j] = v]: an index past the end of the array is an error (stdpp's
    insert would leave the list unchanged there). *)
Definition setitem (a : list Z) (k : nat) (v : Z) : Py.result (list Z) :=
  if decide (k < length a)%nat then Ok (<[k := v]> a)
  else Raise (IndexError "index is out of bounds").

Definition not_sorted_msg : string :=
  "Groups must be coherent and sorted (such as [0, 0, 1, 2, 2, ...])".

(** The three statements [result[j] = group_len; j += 1; group_len = 0]. *)
Definition flush (st : loop_state) : Py.result loop_state :=
  r ← setitem (result st) (j st) (group_len st);
  Ok {| result := r; j := S (j st);
        last_group := last_group st; group_len := 0 |}.

(** One iteration of [for i in range(groups.shape[0])]. *)
Definition loop_body (groups : list Z) (i : nat) (st : loop_state)
  : Py.result loop_state :=
  match groups !! i with
  | None => Raise (IndexError "index is out of bounds")
  | Some cur_group =>
      if cur_group <? last_group st then Raise (ValueError not_sorted_msg)
      else
        st ← (if negb (cur_group =? last_group st) then
                st ← (if negb (last_group st =? -1) then flush st else Ok st);
                Ok {| result := result st; j := j st;
                      last_group := cur_group; group_len := group_len st |}
              else Ok st);
        let st := {| result := result st; j := j st;
                     last_group := last_group st;
                     group_len := group_len st + 1 |} in
        if decide (Z.of_nat i = Z.of_nat (length groups) - 1) then flush st
        else Ok st
  end.

(** The [for] loop over a list of indices. *)
Fixpoint for_range (body : nat -> loop_state -> Py.result loop_state)
         (idxs : list nat) (st : loop_state) : Py.result loop_state :=
  match idxs with
  | [] => Ok st
  | i :: rest => st' ← body i st; for_range body rest st'
  end.

(** The function, started on a given content of the uninitialised array. *)
Definition get_group_lens_nb_on (buf groups : list Z) : Py.result (list Z) :=
  let st0 := {| result := buf; j := 0; last_group := -1; group_len := 0 |} in
  st ← for_range (loop_body groups) (seq 0 (length groups)) st0;
  Ok (take (j st) (result st)).

(** [np.empty] returns whatever the memory holds; zeros stand for it here
    (the returned prefix never shows a cell that was not written, see
    [get_group_lens_nb_on_buf]). *)
Definition np_empty (n : nat) : list Z := replicate n 0.

Definition get_group_lens_nb (groups : list Z) : Py.result (list Z) :=
  get_group_lens_nb_on (np_empty (length groups)) groups.

(** *** Predicates of the specification *)

(** The maximal runs of equal codes of a list, as (code, length) pairs:
    [close_runs last n l] is the runs of [n] copies of [last] followed
    by [l]. *)
Fixpoint close_runs (last : Z) (n : Z) (l : list Z) : list (Z * Z) :=
  match l with
  | [] => [(last, n)]
  | x :: l' =>
      if x =? last then close_runs last (n + 1) l'
      else (last, n) :: close_runs x 1 l'
  end.

Definition runs (groups : list Z) : list (Z * Z) :=
  match groups with
  | [] => []
  | x :: l => close_runs x 1 l
  end.

(** The columns spanned by a list of (code, length) pairs. *)
Definition expand (rs : list (Z * Z)) : list Z :=
  concat (map (fun r => replicate (Z.to_nat r.2) r.1) rs).

(** A code is smaller than the one before it. *)
Definition has_descent (groups : list Z) : Prop :=
  exists (i : nat) (a b : Z),
    groups !! i = Some a /\ groups !! S i = Some b /\ b < a.

Definition sum_list_Z (l : list Z) : Z := foldr Z.add 0 l.

(** The loop on the written prefix [out] of the array alone: what it
    returns on the codes [l] still to read, [last] and [glen] being the
    values of [last_group] and [group_len]. *)
Fixpoint scan (last glen : Z) (out l : list Z) : Py.result (list Z) :=
  match l with
  | [] => Ok out
  | x :: l' =>
      if x <? last then Raise (ValueError not_sorted_msg)
      else
        let closes := negb (x =? last) && negb (last =? -1) in
        let out1 := if closes then out ++ [glen] else out in
        let glen1 := (if closes then 0 else glen) + 1 in
        match l' with
        | [] => Ok (out1 ++ [glen1])
        | _ => scan x glen1 out1 l'
        end
  end.

(** No code is smaller than the one before it. *)
Definition non_decreasing (groups : list Z) : Prop :=
  forall (i : nat) (a b : Z),
    groups !! i = Some a -> groups !! S i = Some b -> a <= b.

(** ** Group mappers *)

(** A label of a [pd.Index]; [LNA] is a missing label ([None] or NaN). *)
Inductive label : Type :=
| LStr (s : string)
| LInt (z : Z)
| LNA.

#[export] Instance label_eq_dec : EqDecision label.
Proof. solve_decision. Defined.

(** The values a [group_by] argument takes: [None], a boolean, or a
    [pd.Index] (or a sequence as long as the index, which [pd.Index(...)]
    turns into one). A level selector (an integer, a string, or a short
    sequence of them on a [pd.MultiIndex]) is first resolved to such an
    index by [indexes.select_levels]. *)
Inductive group_by_like : Type :=
| GBNone
| GBBool (b : bool)
| GBIndex (labels : list label).

(** [group_by_to_index] (lines 27-51). *)
Definition group_by_to_index (index : list label) (group_by : group_by_like)
  : Py.result group_by_like :=
  match group_by with
  | GBNone | GBBool false => Ok group_by
  | _ =>
      let labels :=
        match group_by with
        | GBIndex labels => labels
        | _ => replicate (length index) (LStr "group")  (* one group *)
        end in
      if decide (length labels <> length index)
      then Raise (ValueError "group_by and index must have the same length")
      else Ok (GBIndex labels)
  end.

(** [pd.factorize]: every label is coded by the rank of its first
    occurrence; [uniques] lists the labels in that order. A missing label
    is coded by the sentinel [-1] and is left out of [uniques]. *)
Fixpoint index_of (x : label) (u : list label) : option nat :=
  match u with
  | [] => None
  | y :: u' => if decide (x = y) then Some 0%nat else S <$> index_of x u'
  end.

Fixpoint factorize_from (u : list label) (l : list label)
  : list Z * list label :=
  match l with
  | [] => ([], u)
  | x :: l' =>
      if decide (x = LNA) then
        let '(codes, u') := factorize_from u l' in (-1 :: codes, u')
      else
        match index_of x u with
        | Some k =>
            let '(codes, u') := factorize_from u l' in
            (Z.of_nat k :: codes, u')
        | None =>
            let '(codes, u') := factorize_from (u ++ [x]) l' in
            (Z.of_nat (length u) :: codes, u')
        end
  end.

Definition factorize (l : list label) : list Z * list label :=
  factorize_from [] l.

(** [np.arange(n)]. *)
Definition arange (n : nat) : list Z := Z.of_nat <$> seq 0 n.

(** [get_groups_and_index] (lines 54-70); the names carried over to the
    new index are left out. *)
Definition get_groups_and_index (index : list label)
           (group_by : group_by_like) : Py.result (list Z * list label) :=
  match group_by with
  | GBNone | GBBool false => Ok (arange (length index), index)
  | _ =>
      gb ← group_by_to_index index group_by;
      match gb with
      | GBIndex labels => Ok (factorize labels)
      | _ => Raise (TypeError "Index(...) must be called with a collection")
      end
  end.

(** ** [Grouper] (lines 112-281) *)

Record Grouper : Type := {
  index : list label;
  group_by : option (list label);
  allow_enable : bool;
  allow_disable : bool;
  allow_modify : bool
}.

(** [Grouper.__init__] (lines 135-164). *)
Definition Grouper_init (index : list label) (group_by : group_by_like)
           (allow_enable allow_disable allow_modify : bool)
  : Py.result Grouper :=
  gb ← (match group_by with
         | GBNone | GBBool false => Ok None
         | _ =>
             r ← group_by_to_index index group_by;
             match r with
             | GBIndex labels => Ok (Some labels)
             | _ => Ok None
             end
         end);
  Ok {| index := index; group_by := gb; allow_enable := allow_enable;
        allow_disable := allow_disable; allow_modify := allow_modify |}.

(** [is_grouped] (lines 212-218). *)
Definition is_grouped (self : Grouper) (gb : group_by_like) : bool :=
  match gb with
  | GBBool false => false
  | GBNone => bool_decide (is_Some (group_by self))
  | _ => true
  end.

(** [is_grouping_enabled] and [is_grouping_disabled] (lines 220-226). *)
Definition is_grouping_enabled (self : Grouper) (gb : group_by_like) : bool :=
  bool_decide (group_by self = None) && is_grouped self gb.

Definition is_grouping_disabled (self : Grouper) (gb : group_by_like) : bool :=
  bool_decide (is_Some (group_by self)) && negb (is_grouped self gb).

(** [is_grouping_modified] (lines 228-243). [pd.Index.equals] and
    [np.array_equal] compare element by element. *)
Definition is_grouping_modified (self : Grouper) (gb : group_by_like)
  : Py.result bool :=
  let early :=
    match gb with
    | GBNone => true
    | GBBool false => bool_decide (group_by self = None)
    | _ => false
    end in
  if early then Ok false
  else
    gb ← group_by_to_index (index self) gb;
    match gb, group_by self with
    | GBIndex new, Some cur =>
        if negb (bool_decide (new = cur)) then
          g1 ← get_groups_and_index (index self) (GBIndex new);
          g2 ← get_groups_and_index (index self) (GBIndex cur);
          if negb (bool_decide (g1.1 = g2.1)) then Ok true else Ok false
        else Ok false
    | _, _ => Ok true
    end.

(** [check_group_by] (lines 263-281). *)
Definition check_group_by (self : Grouper) (gb : group_by_like)
           (allow_enable' allow_disable' allow_modify' : option bool)
  : Py.result unit :=
  let allow_enable := default (allow_enable self) allow_enable' in
  let allow_disable := default (allow_disable self) allow_disable' in
  let allow_modify := default (allow_modify self) allow_modify' in
  if is_grouping_enabled self gb then
    if negb allow_enable
    then Raise (ValueError "Enabling grouping is not allowed")
    else Ok tt
  else if is_grouping_disabled self gb then
    if negb allow_disable
    then Raise (ValueError "Disabling grouping is not allowed")
    else Ok tt
  else
    is_grouping_modified self gb ≫= λ modified : bool,
    if modified then
      if negb allow_modify
      then Raise (ValueError "Modifying groups is not allowed")
      else Ok tt
    else Ok tt.

(** *** Predicates of the specification *)

(** Two mappers put the same columns together. *)
Definition same_partition (g1 g2 : list label) : Prop :=
  forall (i k : nat) (a a' b b' : label),
    g1 !! i = Some a -> g1 !! k = Some a' ->
    g2 !! i = Some b -> g2 !! k = Some b' ->
    (a = a' <-> b = b').

(** Two mappers leave the same columns without a label. *)
Definition same_missing (g1 g2 : list label) : Prop :=
  forall (i : nat) (a b : label),
    g1 !! i = Some a -> g2 !! i = Some b -> (a = LNA <-> b = LNA).

(** Two mappers group the columns alike: the same columns go together
    and the same columns, those without a label, are in no group. *)
Definition same_grouping (g1 g2 : list label) : Prop :=
  same_partition g1 g2 /\ same_missing g1 g2.

(** The mapper in force: without grouping every column is a group of its
    own. *)
Definition current_mapper (self : Grouper) : list label :=
  default (index self) (group_by self).

(** The invariant of the loop on the cells written: [pre] being the codes
    already read, either no cell is written yet ([last_group] is still
    [-1]) or fewer cells than codes read are. *)
Definition cells_ok (pre : list Z) (st : loop_state) : Prop :=
  (last_group st = -1 /\ j st = 0%nat) \/ (j st < length pre)%nat.

(** Paired labels [(a, b)] that agree on which columns go together. *)
Definition corr (ps : list (label * label)) : Prop :=
  forall p q, p ∈ ps -> q ∈ ps -> (p.1 = q.1 <-> p.2 = q.2).

(** *** Groupers to try the checks on *)

(** Three columns, the first two grouped under ["x"], the third under
    ["y"]; the same grouping under other labels; and the three columns
    without grouping. *)
Definition cols3 : list label := [LStr "a"; LStr "b"; LStr "c"].
Definition by_xy : list label := [LStr "x"; LStr "x"; LStr "y"].
Definition by_pq : list label := [LStr "p"; LStr "p"; LStr "q"].

(** The first two columns without a label, the third under ["y"]. *)
Definition by_na : list label := [LNA; LNA; LStr "y"].

Definition grouped3 (allow_disable : bool) : Grouper :=
  {| index := cols3; group_by := Some by_xy; allow_enable := true;
     allow_disable := allow_disable; allow_modify := false |}.

(** The three columns grouped by [by_na]. *)
Definition grouped_na : Grouper :=
  {| index := cols3; group_by := Some by_na; allow_enable := true;
     allow_disable := true; allow_modify := false |}.

Definition ungrouped3 : Grouper :=
  {| index := cols3; group_by := None; allow_enable := true;
     allow_disable := true; allow_modify := false |}.

End Grouping.

(* ===================================================================== *)
(** * [vectorbt/portfolio/base.py]: derived series *)
(* ===================================================================== *)

Module Series.

Import Py.
#[local] Open Scope float_scope.

(** A two-dimensional float array, as a list of rows. *)
Abbreviation grid := (list (list float)).

(** Two arrays have the same shape. *)
Definition same_shape (x y : grid) : Prop :=
  Forall2 (fun r1 r2 : list float => length r1 = length r2) x y.

#[export] Instance same_shape_dec (x y : grid) : Decision (same_shape x y).
Proof. unfold same_shape. apply _. Defined.

(** [close[assets == 0] = 0.]: the cells of [close] selected by the
    boolean mask [assets == 0] are overwritten. A mask of another shape
    than the array is an [IndexError]. *)
Definition set_where_zero (close assets : grid) : Py.result grid :=
  if decide (same_shape close assets) then
    Ok (zip_with (zip_with (fun c a : float => if a =? 0 then 0 else c))
                 close assets)
  else Raise (IndexError "boolean index did not match indexed array").

(** Modelled from the spec: [nb.asset_value_nb], which is not among the
    sources. The specification defines the asset value as [close · assets],
    the product cell by cell. *)
Definition asset_value_nb (close assets : grid) : grid :=
  zip_with (zip_with mul) close assets.

(** Modelled from the spec: [nb.value_nb], which is not among the sources.
    The specification defines the value as [cash + asset_value], cell by
    cell. *)
Definition value_nb (cash asset_value : grid) : grid :=
  zip_with (zip_with add) cash asset_value.

Section Grouped.

(** [nb.sum_grouped_nb], which is not among the sources: it collapses the
    columns of each group into one. *)
Variable sum_grouped_nb : grid -> list Z -> grid.

(** [get_asset_value] (lines 6068-6108) called on the class with [close]
    and [assets] given; [group_lens] is [Some] when the wrapper is
    grouped under the [group_by] of the call. *)
Definition get_asset_value (close assets : grid)
           (group_lens : option (list Z)) : Py.result grid :=
  close ← set_where_zero close assets;
  let asset_value := asset_value_nb close assets in
  match group_lens with
  | Some lens => Ok (sum_grouped_nb asset_value lens)
  | None => Ok asset_value
  end.

End Grouped.

(** [get_value] (lines 6190-6227) called on the class with [cash] and
    [asset_value] given. *)
Definition get_value (cash asset_value : grid) : grid :=
  value_nb cash asset_value.

(** The cell of row [i] and column [c]. *)
Definition cell (x : grid) (i c : nat) : option float :=
  row ← x !! i; row !! c.

End Series.

(* ===================================================================== *)
(** * [vectorbt/portfolio/base.py]: the simulation drivers *)
(* ===================================================================== *)

Module Drivers.

Import Py.

(** ** Python values of the loosely typed arguments *)

Inductive pyval : Type :=
| PNone
| PBool (b : bool)
| PInt (z : Z)
| PFloat (f : float)
| PStr (s : string)
| PIntArray (a : list (list Z))
| PFloatArray (a : list (list float))
| PIndex (labels : list Grouping.label).

Definition is_none (v : pyval) : bool :=
  match v with PNone => true | _ => false end.

(** [isinstance(v, str)]. *)
Definition is_str (v : pyval) : bool :=
  match v with PStr _ => true | _ => false end.

(** [isinstance(v, int)] with the integer: a Python [bool] is an [int]. *)
Definition as_int (v : pyval) : option Z :=
  match v with
  | PInt z => Some z
  | PBool b => Some (Z.b2z b)
  | _ => None
  end.

(** The truth value of [v] in a condition. *)
Definition ambiguous_msg : string :=
  "The truth value of an array with more than one element is ambiguous".

Definition truth (v : pyval) : Py.result bool :=
  match v with
  | PNone => Ok false
  | PBool b => Ok b
  | PInt z => Ok (negb (z =? 0))
  | PFloat f => Ok (negb (PrimFloat.eqb f 0%float))
  | PStr s => Ok (negb (bool_decide (s = "")))
  | PIntArray [[z]] => Ok (negb (z =? 0))
  | PFloatArray [[f]] => Ok (negb (PrimFloat.eqb f 0%float))
  | PIntArray _ | PFloatArray _ | PIndex _ => Raise (ValueError ambiguous_msg)
  end.

(** Modelled from the spec: the members of the enumerations of
    [vectorbt.portfolio.enums], which is not among the sources, numbered in
    the order the specification lists them: call sequence
    [{Default, Reversed, Random, Auto}] and [init_cash] mode
    [{Auto, AutoAlign}]. *)
Module CallSeqType.
Definition Default : Z := 0.
Definition Reversed : Z := 1.
Definition Random : Z := 2.
Definition Auto : Z := 3.
End CallSeqType.

Module InitCashMode.
Definition Auto : Z := 0.
Definition AutoAlign : Z := 1.
End InitCashMode.

(** [v in InitCashMode]. *)
Definition in_InitCashMode (z : Z) : bool :=
  (z =? InitCashMode.Auto) || (z =? InitCashMode.AutoAlign).

(** ** The state the drivers act on *)

(** The drivers seed and consume the process-wide random generators;
    [sim_runs] counts the calls of a simulation kernel. *)
Record world (rng_state : Type) : Type := {
  rng : rng_state;
  sim_runs : nat
}.
Arguments rng {rng_state} w.
Arguments sim_runs {rng_state} w.

(** The three drivers. *)
Inductive driver : Type := FromOrders | FromSignals | FromOrderFunc.

(** The arguments of a driver that take part in its preparation. [a_rest]
    stands for all the others (prices, sizes, fees, signals, callbacks and
    so on), which are handed on as they are. [a_enums] are the enumerated
    arguments in the order the driver maps them (see [enum_table]).
    [a_signal_arrays] tells whether [from_signals] got a signal array
    ([entries is not None or exits is not None or ls_mode]) and
    [a_signal_func] whether it got a [signal_func_nb] of its own. *)
Record args (rest : Type) : Type := {
  a_rest : rest;
  a_enums : list pyval;
  a_signal_arrays : bool;
  a_signal_func : bool;
  a_flexible : pyval;
  a_init_cash : pyval;
  a_cash_sharing : pyval;
  a_call_seq : pyval;
  a_seed : pyval;
  a_group_by : pyval;
  a_wrapper_kwargs : option (gmap string pyval)
}.
Arguments a_rest {rest} a.
Arguments a_enums {rest} a.
Arguments a_signal_arrays {rest} a.
Arguments a_signal_func {rest} a.
Arguments a_flexible {rest} a.
Arguments a_init_cash {rest} a.
Arguments a_cash_sharing {rest} a.
Arguments a_call_seq {rest} a.
Arguments a_seed {rest} a.
Arguments a_group_by {rest} a.
Arguments a_wrapper_kwargs {rest} a.

(** What the preparation hands to broadcasting and to the kernel. *)
Record resolved (rest : Type) : Type := {
  r_rest : rest;
  r_enums : list pyval;
  r_flexible : bool;
  r_init_cash : pyval;
  r_init_cash_mode : option Z;
  r_cash_sharing : pyval;
  r_call_seq : pyval;
  r_auto_call_seq : bool;
  r_group_by : pyval;
  r_wrapper_kwargs : gmap string pyval
}.
Arguments r_rest {rest} r.
Arguments r_enums {rest} r.
Arguments r_flexible {rest} r.
Arguments r_init_cash {rest} r.
Arguments r_init_cash_mode {rest} r.
Arguments r_cash_sharing {rest} r.
Arguments r_call_seq {rest} r.
Arguments r_auto_call_seq {rest} r.
Arguments r_group_by {rest} r.
Arguments r_wrapper_kwargs {rest} r.

(** ** The drivers *)

Section Drivers.

(** The state of the random generators, the arguments handed on unchanged,
    the arrays a kernel takes and what it returns. *)
Variables (rng_state rest sim_args sim_out : Type).

(** [settings['portfolio']], read by key. *)
Variable portfolio_cfg : string -> pyval.

(** [map_enum_fields(value, enum)] of [vectorbt.utils.enum_], which is not
    among the sources: it maps the name of a member to its number and
    raises on an unknown name. The enumeration is given by its name; the
    call for [accumulate] also passes [ignore_type=(int, bool)] and is
    named ["AccumulationMode/int,bool"]. *)
Variable map_enum_fields : pyval -> string -> Py.result pyval.

(** Modelled from the spec: [set_seed(seed)] of [vectorbt.utils.random_],
    which is not among the sources. The seed makes the random draws
    deterministic: the state of the generators after the call is a
    function of the seed alone (or the call raises on a seed that is not
    accepted). *)
Variable set_seed : pyval -> Py.result rng_state.

(** Everything between the preparation of the arguments and the kernel
    (broadcasting, the wrapper, the group lengths, the call sequence array,
    which [build_call_seq] draws at random for [CallSeqType.Random], and the
    type checks), and the kernel itself ([nb.simulate_from_orders_nb],
    [nb.simulate_from_signal_func_nb], [nb.simulate_nb] and its variants).
    Neither is among the sources. Both may draw random numbers. *)
Variable prepare :
  driver -> resolved rest -> rng_state -> Py.result sim_args * rng_state.
Variable simulate :
  driver -> sim_args -> rng_state -> Py.result sim_out * rng_state.

(** A driver runs on the world and returns or raises. *)
Definition M (A : Type) : Type :=
  world rng_state -> Py.result A * world rng_state.

Definition ret {A} (a : A) : M A := fun w => (Ok a, w).

Definition raise {A} (e : exn) : M A := fun w => (Raise e, w).

Definition bindM {A B} (m : M A) (k : A -> M B) : M B :=
  fun w =>
    match m w with
    | (Ok a, w') => k a w'
    | (Raise e, w') => (Raise e, w')
    end.

(** A call that leaves the world alone. *)
Definition pure {A} (r : Py.result A) : M A := fun w => (r, w).

(** A call that draws random numbers. *)
Definition draw {A} (f : rng_state -> Py.result A * rng_state) : M A :=
  fun w =>
    let '(r, g) := f (rng w) in (r, {| rng := g; sim_runs := sim_runs w |}).

(** [set_seed(seed)]. *)
Definition seed_world (seed : pyval) : M unit :=
  fun w =>
    match set_seed seed with
    | Ok g => (Ok tt, {| rng := g; sim_runs := sim_runs w |})
    | Raise e => (Raise e, w)
    end.

(** A call of a kernel. *)
Definition run_kernel (d : driver) (sa : sim_args) : M sim_out :=
  fun w =>
    let '(r, g) := simulate d sa (rng w) in
    (r, {| rng := g; sim_runs := S (sim_runs w) |}).

Notation "x <- m ;; k" := (bindM m (fun x => k))
  (at level 100, m at next level, right associativity).

(** [if v is None: v = portfolio_cfg[key]]. *)
Definition or_cfg (v : pyval) (key : string) : pyval :=
  if is_none v then portfolio_cfg key else v.

(** The enumerated arguments of a driver in the order it maps them, each
    with the key of its default and the enumeration. *)
Definition enum_table (d : driver) : list (string * string) :=
  match d with
  | FromOrders =>
      [("size_type", "SizeType"); ("order_direction", "Direction");
       ("price_area_vio_mode", "PriceAreaVioMode")]
  | FromSignals =>
      [("size_type", "SizeType");
       ("price_area_vio_mode", "PriceAreaVioMode");
       ("accumulate", "AccumulationMode/int,bool");
       ("upon_long_conflict", "ConflictMode");
       ("upon_short_conflict", "ConflictMode");
       ("upon_dir_conflict", "DirectionConflictMode");
       ("upon_opposite_entry", "OppositeEntryMode");
       ("signal_direction", "Direction");
       ("stop_entry_price", "StopEntryPrice");
       ("stop_exit_price", "StopExitPrice");
       ("upon_stop_exit", "StopExitMode");
       ("upon_stop_update", "StopUpdateMode");
       ("signal_priority", "SignalPriority")]
  | FromOrderFunc => []
  end.

(** [v = map_enum_fields(v or its default, enum)] for each of them. *)
Fixpoint map_enums (table : list (string * string)) (vs : list pyval)
  : Py.result (list pyval) :=
  match table, vs with
  | (key, enum) :: table', v :: vs' =>
      v' ← map_enum_fields (or_cfg v key) enum;
      rest' ← map_enums table' vs';
      Ok (v' :: rest')
  | [], [] => Ok []
  | _, _ => Raise (TypeError "missing or unexpected enumerated argument")
  end.

(** The [init_cash] block, the same in the three drivers (lines 2614-2622,
    3599-3607, 4597-4605). *)
Definition resolve_init_cash (init_cash : pyval)
  : Py.result (pyval * option Z) :=
  let init_cash := or_cfg init_cash "init_cash" in
  init_cash ← (if is_str init_cash
               then map_enum_fields init_cash "InitCashMode"
               else Ok init_cash);
  match as_int init_cash with
  | Some z =>
      if in_InitCashMode z then Ok (PFloat infinity, Some z)
      else Ok (init_cash, None)
  | None => Ok (init_cash, None)
  end.

(** The [call_seq] block of [from_orders] and [from_signals] (lines
    2643-2651, 3621-3629): [CallSeqType.Auto] becomes the default sequence
    and sets [auto_call_seq]. *)
Definition resolve_call_seq (call_seq : pyval) : Py.result (pyval * bool) :=
  let call_seq := or_cfg call_seq "call_seq" in
  call_seq ← (if is_str call_seq
              then map_enum_fields call_seq "CallSeqType"
              else Ok call_seq);
  match as_int call_seq with
  | Some z =>
      if z =? CallSeqType.Auto then Ok (PInt CallSeqType.Default, true)
      else Ok (call_seq, false)
  | None => Ok (call_seq, false)
  end.

Definition auto_msg : string :=
  "CallSeqType.Auto must be implemented manually. Use sort_call_seq_nb in pre_segment_func_nb.".

(** The [call_seq] block of [from_order_func] (lines 4613-4621). *)
Definition check_call_seq (flexible : bool) (call_seq : pyval)
  : Py.result pyval :=
  if negb flexible then
    let call_seq := or_cfg call_seq "call_seq" in
    call_seq ← map_enum_fields call_seq "CallSeqType";
    match as_int call_seq with
    | Some z =>
        if z =? CallSeqType.Auto then Raise (ValueError auto_msg)
        else Ok call_seq
    | None => Ok call_seq
    end
  else Ok call_seq.

Definition group_select_msg : string :=
  "group_select cannot be disabled if cash_sharing=True".

(** [if not wrapper_kwargs.get('group_select', True) and cash_sharing:
    raise ValueError(...)] (lines 2670-2671, 3651-3652, 4662-4663). *)
Definition check_group_select (wrapper_kwargs : gmap string pyval)
           (cash_sharing : pyval) : Py.result unit :=
  truth (default (PBool true) (wrapper_kwargs !! "group_select"))
    ≫= λ group_select : bool,
  if negb group_select then
    truth cash_sharing ≫= λ shared : bool,
    if shared then Raise (ValueError group_select_msg) else Ok tt
  else Ok tt.

Definition signals_msg : string :=
  "Either any of the signal arrays or signal_func_nb must be provided, not both".

(** The preparation of the arguments up to the seed. The blocks come in
    the order of [from_orders] (lines 2581-2651) and [from_signals] (lines
    3488-3629); [from_order_func] (lines 4590-4621) has no enumerated
    argument and reads [flexible] in its [call_seq] block. *)
Definition resolve_head (d : driver) (a : args rest)
  : Py.result (resolved rest) :=
  _ ← (match d with
       | FromSignals =>
           if a_signal_arrays a && a_signal_func a
           then Raise (ValueError signals_msg) else Ok tt
       | _ => Ok tt
       end);
  enums ← map_enums (enum_table d) (a_enums a);
  ic ← resolve_init_cash (a_init_cash a);
  let cash_sharing := or_cfg (a_cash_sharing a) "cash_sharing" in
  truth cash_sharing ≫= λ shared : bool,
  let group_by :=
    if shared && is_none (a_group_by a) then PBool true else a_group_by a in
  cs ← (match d with
        | FromOrderFunc =>
            truth (or_cfg (a_flexible a) "flexible") ≫= λ flexible : bool,
            c ← check_call_seq flexible (a_call_seq a);
            Ok (c, false, flexible)
        | _ =>
            c ← resolve_call_seq (a_call_seq a); Ok (c.1, c.2, false)
        end);
  Ok {| r_rest := a_rest a; r_enums := enums; r_flexible := cs.2;
        r_init_cash := ic.1; r_init_cash_mode := ic.2;
        r_cash_sharing := cash_sharing;
        r_call_seq := cs.1.1; r_auto_call_seq := cs.1.2;
        r_group_by := group_by;
        r_wrapper_kwargs := default ∅ (a_wrapper_kwargs a) |}.

(** The preparation after the seed: the default of [group_by] and the
    [group_select] check. *)
Definition resolve_tail (r : resolved rest) : Py.result (resolved rest) :=
  _ ← check_group_select (r_wrapper_kwargs r) (r_cash_sharing r);
  Ok {| r_rest := r_rest r; r_enums := r_enums r;
        r_flexible := r_flexible r;
        r_init_cash := r_init_cash r;
        r_init_cash_mode := r_init_cash_mode r;
        r_cash_sharing := r_cash_sharing r;
        r_call_seq := r_call_seq r; r_auto_call_seq := r_auto_call_seq r;
        r_group_by := or_cfg (r_group_by r) "group_by";
        r_wrapper_kwargs := r_wrapper_kwargs r |}.

(** The preparation of the arguments, with the seed set in between
    ([if seed is not None: set_seed(seed)], lines 2658-2661, 3635-3638,
    4640-4643). *)
Definition resolve_args (d : driver) (a : args rest) : M (resolved rest) :=
  r <- pure (resolve_head d a);;
  let seed := or_cfg (a_seed a) "seed" in
  _ <- (if is_none seed then ret tt else seed_world seed);;
  pure (resolve_tail r).

(** The [Portfolio] a driver returns: the order and log records of the
    kernel with the prepared arrays. *)
Record portfolio : Type := {
  pf_args : sim_args;
  pf_out : sim_out
}.

(** A driver: preparation, broadcasting, the kernel, the instance. *)
Definition run (d : driver) (a : args rest) : M portfolio :=
  r <- resolve_args d a;;
  sa <- draw (prepare d r);;
  out <- run_kernel d sa;;
  ret {| pf_args := sa; pf_out := out |}.

Definition from_orders : args rest -> M portfolio := run FromOrders.
Definition from_signals : args rest -> M portfolio := run FromSignals.
Definition from_order_func : args rest -> M portfolio := run FromOrderFunc.

End Drivers.

End Drivers.

(* ===================================================================== *)
(** * The simulation kernel of the from-orders driver *)
(* ===================================================================== *)

(** The kernel ([vectorbt.portfolio.nb]) and the enumerations and records
    it works on ([vectorbt.portfolio.enums]) are not among the sources.
    This module follows the specification of the kernel instead. *)

Module Kernel.

Import Py.
#[local] Open Scope float_scope.

(** ** Value types *)

Inductive SizeType : Type :=
| Amount | Value | Percent | TargetAmount | TargetValue | TargetPercent.

Inductive Direction : Type := LongOnly | ShortOnly | Both.

Inductive PriceAreaVioMode : Type := VioIgnore | VioCap | VioError.

Inductive OrderSide : Type := Buy | Sell.

Inductive OrderStatus : Type := Filled | Ignored | Rejected.

(** Why an order was ignored or rejected. *)
Inductive StatusInfo : Type :=
| SizeNaN | PriceNaN | NegativeCosts | BadRejectProb | SizeZero
| PriceAreaViolated | MinSizeNotReached | MaxSizeExceeded | NoCash
| RandomEvent.

(** Modelled from the spec: the input intent [Order]. *)
Record Order : Type := {
  size : float;
  price : float;
  size_type : SizeType;
  direction : Direction;
  fees : float;
  fixed_fees : float;
  slippage : float;
  min_size : float;
  max_size : float;
  size_granularity : float;
  reject_prob : float;
  lock_cash : bool;
  allow_partial : bool;
  raise_reject : bool;
  log : bool;
  price_area_vio_mode : PriceAreaVioMode
}.

(** Modelled from the spec: the bar, [{open, high, low, close}]. *)
Record PriceArea : Type := {
  pa_open : float;
  pa_high : float;
  pa_low : float;
  pa_close : float
}.

(** Modelled from the spec: [OrderResult]; [res_side] is [None] when
    nothing was traded. *)
Record OrderResult : Type := {
  res_size : float;
  res_price : float;
  res_fees : float;
  res_side : option OrderSide;
  res_status : OrderStatus;
  res_status_info : option StatusInfo
}.

(** Modelled from the spec: the part of the column and group state that
    order records and the derived assets, cash and value depend on. The
    specification gives no formula for [debt] and [free_cash]; they are
    left out, and [lock_cash], which reads [free_cash], with them. *)
Record ExecState : Type := {
  position : float;
  cash : float;
  val_price : float
}.

(** Modelled from the spec: an order record,
    [{id, col, idx, size, price, fees, side}]. *)
Record order_record : Type := {
  rec_id : nat;
  rec_col : nat;
  rec_idx : nat;
  rec_size : float;
  rec_price : float;
  rec_fees : float;
  rec_side : OrderSide
}.

(** Modelled from the spec: a log record, written for every order that
    is attempted with [log] set, filled or not: the column and the bar,
    and the context of the attempt, that is the position and the cash
    before, the order, its result, the position and the cash after, and
    the id of the order record when one was appended. *)
Record log_record : Type := {
  log_id : nat;
  log_group : nat;
  log_col : nat;
  log_idx : nat;
  log_position : float;
  log_cash : float;
  log_order : Order;
  log_result : OrderResult;
  log_new_position : float;
  log_new_cash : float;
  log_order_id : option nat
}.

(** Modelled from the spec: a flexible array, [Scalar | PerRow | PerCol |
    Full], and [flex_select(arr, i, j)]. *)
Inductive FlexArray (A : Type) : Type :=
| Scalar (a : A)
| PerRow (rows : list A)
| PerCol (cols : list A)
| Full (cells : list (list A)).
Arguments Scalar {A} a.
Arguments PerRow {A} rows.
Arguments PerCol {A} cols.
Arguments Full {A} cells.

Definition flex_select {A} (arr : FlexArray A) (i c : nat) : option A :=
  match arr with
  | Scalar a => Some a
  | PerRow rows => rows !! i
  | PerCol cols => cols !! c
  | Full cells => row ← cells !! i; row !! c
  end.

(** The logical error exits of a simulation. *)
Inductive sim_error : Type :=
| InvalidInput
| GroupSplit
| RecordOverflow (col : nat)
| HardReject (info : StatusInfo).

(** A simulation either finishes or leaves by an error exit. *)
Inductive outcome (A : Type) : Type :=
| Done (a : A)
| Failed (e : sim_error).
Arguments Done {A} a.
Arguments Failed {A} e.

#[export] Instance outcome_ret : MRet outcome := @Done.
#[export] Instance outcome_bind : MBind outcome :=
  fun A B k m => match m with Done a => k a | Failed e => Failed e end.

(** An array read at an index it must have. *)
Definition at_index {A} (x : option A) : outcome A :=
  match x with Some a => Done a | None => Failed InvalidInput end.

(** A loop over a list, left at the first error. *)
Fixpoint for_each {A S} (xs : list A) (body : A -> S -> outcome S) (st : S)
  : outcome S :=
  match xs with
  | [] => Done st
  | x :: xs' => st' ← body x st; for_each xs' body st'
  end.

(** ** The execution of one order *)

Section Exec.

(** What the specification names without giving a formula: the conversion
    of the size types other than [Amount] into an amount (from the type,
    the state, the size and the price), the restriction of an order that
    would leave the side its direction allows (from the direction, the
    position and the amount), and the truncation of an amount to a size
    granularity. *)
Variable resolve_size : SizeType -> ExecState -> float -> float -> float.
Variable restrict_direction : Direction -> float -> float -> float.
Variable truncate_granularity : float -> float -> float.

Abbreviation tol := Math.default_settings.

Definition no_fill (st : ExecState) (status : OrderStatus) (info : StatusInfo)
  : OrderResult * ExecState :=
  ({| res_size := nan; res_price := nan; res_fees := nan; res_side := None;
      res_status := status; res_status_info := Some info |}, st).

(** Modelled from the spec: [execute_order(ctx, order)] of the kernel,
    which is not among the sources, in the eight steps of the
    specification; [u] is the uniform draw of the random rejection. *)
Definition execute_order (st : ExecState) (pa : PriceArea) (o : Order)
           (u : float) : OrderResult * ExecState :=
  (* 1. validate *)
  if Math.isnan (size o) then no_fill st Rejected SizeNaN
  else if Math.isnan (price o) then no_fill st Rejected PriceNaN
  else if (fees o <? 0) || (fixed_fees o <? 0) || (slippage o <? 0)
  then no_fill st Rejected NegativeCosts
  else if (reject_prob o <? 0) || (1 <? reject_prob o)
  then no_fill st Rejected BadRejectProb
  else
    (* 3. the price: +inf is the close, -inf the valuation price *)
    let base_price :=
      if price o =? infinity then pa_close pa
      else if price o =? neg_infinity then val_price st
      else price o in
    (* 1. the size as a signed amount *)
    let delta :=
      match size_type o with
      | Amount => size o
      | t => resolve_size t st (size o) base_price
      end in
    (* 2. the direction *)
    let delta :=
      match direction o with
      | Both => delta
      | LongOnly =>
          if (0 <? delta) && (0 <=? position st) then delta
          else restrict_direction LongOnly (position st) delta
      | ShortOnly => restrict_direction ShortOnly (position st) delta
      end in
    if Math.is_close tol delta 0 then no_fill st Ignored SizeZero
    else
      let is_buy := 0 <? delta in
      (* 3. slippage and the price area *)
      let p := if is_buy then base_price * (1 + slippage o)
               else base_price * (1 - slippage o) in
      let above := pa_high pa <? p in
      let below := p <? pa_low pa in
      match price_area_vio_mode o, above || below with
      | VioError, true => no_fill st Rejected PriceAreaViolated
      | mode, _ =>
          let p := match mode with
                   | VioCap => if above then pa_high pa
                               else if below then pa_low pa else p
                   | _ => p
                   end in
          (* 4. the bounds *)
          let amount := abs delta in
          if Math.is_less tol amount (min_size o)
          then no_fill st Rejected MinSizeNotReached
          else if Math.is_less tol (max_size o) amount
                  && negb (allow_partial o)
          then no_fill st Rejected MaxSizeExceeded
          else
            let amount := if Math.is_less tol (max_size o) amount
                          then max_size o else amount in
            let amount := if Math.isnan (size_granularity o) then amount
                          else truncate_granularity amount
                                                    (size_granularity o) in
            (* 5. the cash a buy needs, fees included *)
            let required := amount * p + (amount * p * fees o + fixed_fees o) in
            let affordable :=
              if negb is_buy then Some amount
              else if Math.is_close_or_less tol required (cash st)
              then Some amount
              else if allow_partial o then
                let fits := (cash st - fixed_fees o) / (p * (1 + fees o)) in
                if Math.is_close_or_less tol fits 0 then None else Some fits
              else None in
            match affordable with
            | None => no_fill st Rejected NoCash
            | Some amount =>
                (* 6. the random rejection *)
                if u <? reject_prob o then no_fill st Rejected RandomEvent
                else
                  (* 7. commit; 8. the result *)
                  let paid_fees := amount * p * fees o + fixed_fees o in
                  let signed := if is_buy then amount else - amount in
                  ({| res_size := amount; res_price := p;
                      res_fees := paid_fees;
                      res_side := Some (if is_buy then Buy else Sell);
                      res_status := Filled; res_status_info := None |},
                   {| position := Math.add tol (position st) signed;
                      cash := Math.add tol (cash st)
                                       (- (signed * p) - paid_fees);
                      val_price := val_price st |})
            end
      end.

End Exec.

(** ** The from-orders kernel *)

(** The order arrays, flexible each. *)
Record OrderArrays : Type := {
  oa_size : FlexArray float;
  oa_price : FlexArray float;
  oa_size_type : FlexArray SizeType;
  oa_direction : FlexArray Direction;
  oa_fees : FlexArray float;
  oa_fixed_fees : FlexArray float;
  oa_slippage : FlexArray float;
  oa_min_size : FlexArray float;
  oa_max_size : FlexArray float;
  oa_size_granularity : FlexArray float;
  oa_reject_prob : FlexArray float;
  oa_lock_cash : FlexArray bool;
  oa_allow_partial : FlexArray bool;
  oa_raise_reject : FlexArray bool;
  oa_log : FlexArray bool;
  oa_price_area_vio_mode : FlexArray PriceAreaVioMode
}.

(** The inputs of a simulation on a grid of [n_rows] bars and [n_cols]
    columns. [group_lens] are the groups that share a wallet (every column
    alone without cash sharing). *)
Record SimArgs : Type := {
  n_rows : nat;
  n_cols : nat;
  group_lens : list nat;
  call_seq : list (list nat);
  init_cash : list float;
  init_position : list float;
  cash_deposits : FlexArray float;
  cash_earnings : FlexArray float;
  orders : OrderArrays;
  open : FlexArray float;
  high : FlexArray float;
  low : FlexArray float;
  close : list (list float);
  auto_call_seq : bool;
  ffill_val_price : bool;
  max_orders : nat;
  max_logs : nat
}.

(** The state of a simulation: the positions and valuation prices of the
    columns, the wallets of the groups, the number of records of each
    column, and the order records and the log records in the order they
    were appended. *)
Record SimState (rng_state : Type) : Type := {
  positions : list float;
  val_prices : list float;
  wallets : list float;
  counts : list nat;
  records : list order_record;
  logs : list log_record;
  gen : rng_state
}.
Arguments positions {rng_state} s.
Arguments val_prices {rng_state} s.
Arguments wallets {rng_state} s.
Arguments counts {rng_state} s.
Arguments records {rng_state} s.
Arguments logs {rng_state} s.
Arguments gen {rng_state} s.

Section Simulate.

Variable resolve_size : SizeType -> ExecState -> float -> float -> float.
Variable restrict_direction : Direction -> float -> float -> float.
Variable truncate_granularity : float -> float -> float.

(** The random generator: one uniform draw in [[0, 1)] per order. *)
Variable rng_state : Type.
Variable next_uniform : rng_state -> float * rng_state.

(** The reordering of the calls of a segment under [auto_call_seq]: the
    specification sorts them by order value, sells first, and leaves the
    ties to the seed. *)
Variable sort_call_seq :
  SimArgs -> SimState rng_state -> nat -> nat -> list nat -> list nat.

Definition order_at (a : SimArgs) (i c : nat) : outcome Order :=
  let oa := orders a in
  sz ← at_index (flex_select (oa_size oa) i c);
  pr ← at_index (flex_select (oa_price oa) i c);
  ty ← at_index (flex_select (oa_size_type oa) i c);
  di ← at_index (flex_select (oa_direction oa) i c);
  fe ← at_index (flex_select (oa_fees oa) i c);
  ff ← at_index (flex_select (oa_fixed_fees oa) i c);
  sl ← at_index (flex_select (oa_slippage oa) i c);
  mn ← at_index (flex_select (oa_min_size oa) i c);
  mx ← at_index (flex_select (oa_max_size oa) i c);
  gr ← at_index (flex_select (oa_size_granularity oa) i c);
  rp ← at_index (flex_select (oa_reject_prob oa) i c);
  lc ← at_index (flex_select (oa_lock_cash oa) i c);
  ap ← at_index (flex_select (oa_allow_partial oa) i c);
  rr ← at_index (flex_select (oa_raise_reject oa) i c);
  lg ← at_index (flex_select (oa_log oa) i c);
  vm ← at_index (flex_select (oa_price_area_vio_mode oa) i c);
  Done {| size := sz; price := pr; size_type := ty; direction := di;
          fees := fe; fixed_fees := ff; slippage := sl; min_size := mn;
          max_size := mx; size_granularity := gr; reject_prob := rp;
          lock_cash := lc; allow_partial := ap; raise_reject := rr;
          log := lg; price_area_vio_mode := vm |}.

Definition area_at (a : SimArgs) (i c : nat) : outcome PriceArea :=
  o ← at_index (flex_select (open a) i c);
  h ← at_index (flex_select (high a) i c);
  l ← at_index (flex_select (low a) i c);
  cl ← at_index (flex_select (Full (close a)) i c);
  Done {| pa_open := o; pa_high := h; pa_low := l; pa_close := cl |}.

(** The log records after an attempt: one more when the order asks for
    it; a log past [max_logs] is an overflow. *)
Definition append_log (a : SimArgs) (g c i : nat)
           (before : ExecState) (o : Order) (res : OrderResult)
           (after : ExecState) (order_id : option nat)
           (ls : list log_record) : outcome (list log_record) :=
  if log o then
    let n := length (filter (fun r => log_col r = c) ls) in
    if decide (max_logs a <= n)%nat then Failed (RecordOverflow c)
    else
      Done (ls ++ [{| log_id := n; log_group := g; log_col := c;
                      log_idx := i;
                      log_position := position before;
                      log_cash := cash before;
                      log_order := o; log_result := res;
                      log_new_position := position after;
                      log_new_cash := cash after;
                      log_order_id := order_id |}])
  else Done ls.

(** The order of column [c], of group [g], at bar [i]: produced, executed,
    recorded when filled, and logged when it asks for it. A rejection is
    fatal under [raise_reject]; a record past [max_orders] is an
    overflow. *)
Definition process_order (a : SimArgs) (i g c : nat)
           (st : SimState rng_state) : outcome (SimState rng_state) :=
  o ← order_at a i c;
  pa ← area_at a i c;
  pos ← at_index (positions st !! c);
  vp ← at_index (val_prices st !! c);
  wallet ← at_index (wallets st !! g);
  cnt ← at_index (counts st !! c);
  let '(u, gen') := next_uniform (gen st) in
  let before := {| position := pos; cash := wallet; val_price := vp |} in
  let '(res, ex) :=
    execute_order resolve_size restrict_direction truncate_granularity
                  before pa o u in
  match res_status res, res_side res with
  | Filled, Some side =>
      if decide (max_orders a <= cnt)%nat then Failed (RecordOverflow c)
      else
        ls ← append_log a g c i before o res ex (Some cnt) (logs st);
        Done {| positions := <[c := position ex]> (positions st);
                val_prices := val_prices st;
                wallets := <[g := cash ex]> (wallets st);
                counts := <[c := S cnt]> (counts st);
                records :=
                  records st ++
                  [{| rec_id := cnt; rec_col := c; rec_idx := i;
                      rec_size := res_size res; rec_price := res_price res;
                      rec_fees := res_fees res; rec_side := side |}];
                logs := ls;
                gen := gen' |}
  | Rejected, _ =>
      if raise_reject o
      then Failed (HardReject (default RandomEvent (res_status_info res)))
      else
        ls ← append_log a g c i before o res ex None (logs st);
        Done {| positions := positions st; val_prices := val_prices st;
                wallets := wallets st; counts := counts st;
                records := records st; logs := ls; gen := gen' |}
  | _, _ =>
      ls ← append_log a g c i before o res ex None (logs st);
      Done {| positions := positions st; val_prices := val_prices st;
              wallets := wallets st; counts := counts st;
              records := records st; logs := ls; gen := gen' |}
  end.

(** The end of a bar for column [c] of group [g]: the cash earnings are
    added to the wallet and the valuation price follows the close (a NaN
    close is skipped under [ffill_val_price]). *)
Definition close_column (a : SimArgs) (i g c : nat)
           (st : SimState rng_state) : outcome (SimState rng_state) :=
  earned ← at_index (flex_select (cash_earnings a) i c);
  cl ← at_index (flex_select (Full (close a)) i c);
  wallet ← at_index (wallets st !! g);
  vp ← at_index (val_prices st !! c);
  let vp' := if ffill_val_price a && Math.isnan cl then vp else cl in
  Done {| positions := positions st;
          val_prices := <[c := vp']> (val_prices st);
          wallets := <[g := (wallet + earned)%float]> (wallets st);
          counts := counts st; records := records st; logs := logs st;
          gen := gen st |}.

(** The segment of bar [i] and group [g], whose columns start at
    [first_col] and number [len]: the deposit, the calls in the order of
    the call sequence, the end of the bar. *)
Definition process_segment (a : SimArgs) (i g first_col len : nat)
           (st : SimState rng_state) : outcome (SimState rng_state) :=
  deposit ← at_index (flex_select (cash_deposits a) i g);
  wallet ← at_index (wallets st !! g);
  let st := {| positions := positions st; val_prices := val_prices st;
               wallets := <[g := (wallet + deposit)%float]> (wallets st);
               counts := counts st; records := records st;
               logs := logs st; gen := gen st |} in
  row ← at_index (call_seq a !! i);
  let calls := take len (drop first_col row) in
  let calls := if auto_call_seq a then sort_call_seq a st i g calls
               else calls in
  st ← for_each calls (fun k => process_order a i g (first_col + k)) st;
  for_each (seq first_col len) (fun c => close_column a i g c) st.

(** The groups of bar [i], from group [g] at column [first_col] on. *)
Fixpoint process_groups (a : SimArgs) (i g first_col : nat)
         (lens : list nat) (st : SimState rng_state)
  : outcome (SimState rng_state) :=
  match lens with
  | [] => Done st
  | len :: lens' =>
      st' ← process_segment a i g first_col len st;
      process_groups a i (S g) (first_col + len) lens' st'
  end.

(** Modelled from the spec: [nb.simulate_from_orders_nb], which is not
    among the sources: all groups of a bar, bar after bar; one order per
    bar and column, read from the flexible arrays. *)
Definition simulate_from_orders_nb (a : SimArgs) (g0 : rng_state)
  : outcome (SimState rng_state) :=
  let st0 := {| positions := init_position a;
                val_prices := replicate (n_cols a) nan;
                wallets := init_cash a;
                counts := replicate (n_cols a) 0%nat;
                records := [];
                logs := [];
                gen := g0 |} in
  for_each (seq 0 (n_rows a))
           (fun i => process_groups a i 0 0 (group_lens a)) st0.

End Simulate.

(** ** The series derived from the order records *)

Definition signed_size (r : order_record) : float :=
  match rec_side r with
  | Buy => rec_size r
  | Sell => (- rec_size r)%float
  end.

(** The sum of [f] over the records of bar [i] and column [c]. *)
Definition sum_records (f : order_record -> float) (recs : list order_record)
           (i c : nat) : float :=
  foldl (fun acc r =>
           if decide (rec_idx r = i /\ rec_col r = c) then (acc + f r)%float
           else acc)
        0%float recs.

(** A grid of [n_rows] by [n_cols] cells given by a function. *)
Definition tabulate (n_rows n_cols : nat) (f : nat -> nat -> float)
  : list (list float) :=
  (fun i => f i <$> seq 0 n_cols) <$> seq 0 n_rows.

(** The running sums of the rows of a grid, from the row [start]. *)
Fixpoint running (start : list float) (rows : list (list float))
  : list (list float) :=
  match rows with
  | [] => []
  | row :: rows' =>
      let acc := zip_with PrimFloat.add start row in
      acc :: running acc rows'
  end.

(** Modelled from the spec: [nb.asset_flow_nb], which is not among the
    sources: per bar and column, the sum of the signed fills of the
    records there (no direction filter). *)
Definition asset_flow_nb (n_rows n_cols : nat) (recs : list order_record)
  : list (list float) :=
  tabulate n_rows n_cols (sum_records signed_size recs).

(** Modelled from the spec: [nb.assets_nb], which is not among the
    sources: the cumulative sum of the asset flow plus the initial
    position. *)
Definition assets_nb (asset_flow : list (list float))
           (init_position : list float) : list (list float) :=
  running init_position asset_flow.

(** Modelled from the spec: [nb.cash_flow_nb] with [free=False], which is
    not among the sources: per bar and column,
    [−Σ(signed_size · price + fees) + cash_earnings], the fees of a record
    being all it paid. *)
Definition cash_flow_nb (n_rows n_cols : nat) (recs : list order_record)
           (cash_earnings : FlexArray float) : list (list float) :=
  tabulate n_rows n_cols
           (fun i c =>
              (sum_records
                 (fun r => - (signed_size r * rec_price r) - rec_fees r)
                 recs i c
               + default nan (flex_select cash_earnings i c))%float).

(** Modelled from the spec: [nb.cash_nb], which is not among the sources:
    the cumulative cash flow plus the initial cash plus the cash
    deposits. *)
Definition cash_nb (cash_flow : list (list float)) (init_cash : list float)
           (cash_deposits : FlexArray float) : list (list float) :=
  running init_cash
          (imap (fun i row =>
                   imap (fun c x =>
                           (default nan (flex_select cash_deposits i c)
                            + x)%float) row)
                cash_flow).

(** ** Scenario S1 *)

(** What [from_orders(close=[1, 2, 3, 4, 5], size=10, size_type=Amount,
    init_cash=100)] hands to the kernel: only [close] is broadcast (to one
    column), the other arrays stay as given and are indexed flexibly; the
    call sequence is the default one; [max_orders] and [max_logs] default
    to the number of rows; [price] defaults to [np.inf]; [open], [high] and [low] to
    [np.nan]. The arguments the scenario does not mention are cost-free
    (no fees, no slippage, no size bounds, no random rejection, a
    rejection is not fatal); the direction, [allow_partial] and [log],
    on which the records of the scenario do not depend, are left open
    ([log] is off by default). *)
Definition s1_orders_log (dir : Direction) (partial lg : bool)
  : OrderArrays :=
  {| oa_size := Scalar 10%float;
     oa_price := Scalar infinity;
     oa_size_type := Scalar Amount;
     oa_direction := Scalar dir;
     oa_fees := Scalar 0%float;
     oa_fixed_fees := Scalar 0%float;
     oa_slippage := Scalar 0%float;
     oa_min_size := Scalar 0%float;
     oa_max_size := Scalar infinity;
     oa_size_granularity := Scalar nan;
     oa_reject_prob := Scalar 0%float;
     oa_lock_cash := Scalar false;
     oa_allow_partial := Scalar partial;
     oa_raise_reject := Scalar false;
     oa_log := Scalar lg;
     oa_price_area_vio_mode := Scalar VioIgnore |}.

Definition s1_orders (dir : Direction) (partial : bool) : OrderArrays :=
  s1_orders_log dir partial false.

Definition s1_close : list (list float) :=
  [[1]; [2]; [3]; [4]; [5]]%float.

Definition s1_args_log (dir : Direction) (partial lg : bool) : SimArgs :=
  {| n_rows := 5; n_cols := 1;
     group_lens := [1%nat];
     call_seq := replicate 5 [0%nat];
     init_cash := [100%float];
     init_position := [0%float];
     cash_deposits := Scalar 0%float;
     cash_earnings := Scalar 0%float;
     orders := s1_orders_log dir partial lg;
     open := Scalar nan; high := Scalar nan; low := Scalar nan;
     close := s1_close;
     auto_call_seq := false;
     ffill_val_price := true;
     max_orders := 5;
     max_logs := 5 |}.

Definition s1_args (dir : Direction) (partial : bool) : SimArgs :=
  s1_args_log dir partial false.

(** A buy of [size] at [price] without fees, as a record. *)
Definition buy_record (id idx : nat) (size price : float) : order_record :=
  {| rec_id := id; rec_col := 0; rec_idx := idx; rec_size := size;
     rec_price := price; rec_fees := 0%float; rec_side := Buy |}.

(** The assets, cash and value series of a run from its records, as the
    portfolio derives them: [get_asset_value] and [get_value] are the
    methods of the sources, the arrays they start from follow the
    specification. *)
Definition s1_assets (recs : list order_record) : Series.grid :=
  assets_nb (asset_flow_nb 5 1 recs) [0%float].

Definition s1_cash (recs : list order_record) : Series.grid :=
  cash_nb (cash_flow_nb 5 1 recs (Scalar 0%float)) [100%float] (Scalar 0%float).

Definition s1_value (recs : list order_record)
  : Py.result Series.grid :=
  av ← Series.get_asset_value (fun g _ => g) s1_close (s1_assets recs) None;
  Ok (Series.get_value (s1_cash recs) av).

(** The four buys of the run. *)
Definition s1_records : list order_record :=
  [buy_record 0 0 10 1; buy_record 1 1 10 2;
   buy_record 2 2 10 3; buy_record 3 3 10 4]%float.


(** The order of every bar of the scenario. *)
Definition s1_order (dir : Direction) (partial lg : bool) : Order :=
  {| size := 10; price := infinity; size_type := Amount; direction := dir;
     fees := 0; fixed_fees := 0; slippage := 0; min_size := 0;
     max_size := infinity; size_granularity := nan; reject_prob := 0;
     lock_cash := false; allow_partial := partial; raise_reject := false;
     log := lg; price_area_vio_mode := VioIgnore |}%float.

(** The log of a buy of 10 at [price] that is filled, and of one that is
    rejected for lack of cash. *)
Definition s1_log_filled (dir : Direction) (partial : bool) (idx : nat)
           (price pos csh new_pos new_csh : float) : log_record :=
  {| log_id := idx; log_group := 0; log_col := 0; log_idx := idx;
     log_position := pos; log_cash := csh;
     log_order := s1_order dir partial true;
     log_result := {| res_size := 10; res_price := price; res_fees := 0;
                      res_side := Some Buy; res_status := Filled;
                      res_status_info := None |};
     log_new_position := new_pos; log_new_cash := new_csh;
     log_order_id := Some idx |}%float.

Definition s1_log_no_cash (dir : Direction) (partial : bool) (idx : nat)
           (pos csh : float) : log_record :=
  {| log_id := idx; log_group := 0; log_col := 0; log_idx := idx;
     log_position := pos; log_cash := csh;
     log_order := s1_order dir partial true;
     log_result := {| res_size := nan; res_price := nan; res_fees := nan;
                      res_side := None; res_status := Rejected;
                      res_status_info := Some NoCash |};
     log_new_position := pos; log_new_cash := csh;
     log_order_id := None |}.

(** The five attempts of the run, as logged. *)
Definition s1_logs (dir : Direction) (partial : bool) : list log_record :=
  [s1_log_filled dir partial 0 1 0 100 10 90;
   s1_log_filled dir partial 1 2 10 90 20 70;
   s1_log_filled dir partial 2 3 20 70 30 40;
   s1_log_filled dir partial 3 4 30 40 40 0;
   s1_log_no_cash dir partial 4 40 0]%float.

(** The run with a generator that always draws [0.], no reordering of the
    calls, and no conversion of sizes, restriction or truncation (none is
    reached on an [Amount] buy). *)
Definition s1_concrete : outcome (SimState unit) :=
  simulate_from_orders_nb (fun _ _ _ _ => nan) (fun _ _ _ => nan)
                          (fun _ _ => nan) unit (fun _ => (0%float, tt))
                          (fun _ _ _ _ calls => calls)
                          (s1_args Both true) tt.

End Kernel.

(* ===================================================================== *)
(** * The drivers on scenario S1 *)
(* ===================================================================== *)

Module Demo.

Import Py Drivers.

(** An instance of what the drivers leave open: empty settings, an
    enumeration mapper that passes numbers through, a generator whose
    state is the seed, arrays already in the shape of the kernel, and the
    from-orders kernel of the specification. *)
Definition demo_cfg : string -> pyval := fun _ => PNone.

Definition demo_map_enum_fields (v : pyval) (enum : string)
  : Py.result pyval :=
  match v with
  | PStr s => Raise (KeyError s)
  | _ => Ok v
  end.

Definition demo_set_seed (seed : pyval) : Py.result Z :=
  match seed with
  | PInt z => Ok z
  | _ => Raise (TypeError "an integer is required")
  end.

Definition demo_prepare (d : driver) (r : resolved Kernel.SimArgs) (g : Z)
  : Py.result Kernel.SimArgs * Z :=
  (Ok (r_rest r), g).

Definition demo_simulate (d : driver) (sa : Kernel.SimArgs) (g : Z)
  : Py.result (list Kernel.order_record) * Z :=
  match Kernel.simulate_from_orders_nb
          (fun _ _ _ _ => nan) (fun _ _ _ => nan) (fun _ _ => nan)
          Z (fun g => (0%float, g + 1)) (fun _ _ _ _ calls => calls) sa g
  with
  | Kernel.Done st => (Ok (Kernel.records st), Kernel.gen st)
  | Kernel.Failed _ => (Raise (ValueError "the simulation failed"), g)
  end.

Definition demo_run :=
  Drivers.run Z Kernel.SimArgs Kernel.SimArgs (list Kernel.order_record)
              demo_cfg demo_map_enum_fields demo_set_seed demo_prepare
              demo_simulate.

Definition demo_args (d : driver) (call_seq seed cash_sharing : pyval)
           (wrapper_kwargs : option (gmap string pyval))
  : args Kernel.SimArgs :=
  {| a_rest := Kernel.s1_args Kernel.Both true;
     a_enums := (fun _ => PNone) <$> enum_table d;
     a_signal_arrays := true;
     a_signal_func := false;
     a_flexible := PNone;
     a_init_cash := PInt 100;
     a_cash_sharing := cash_sharing;
     a_call_seq := call_seq;
     a_seed := seed;
     a_group_by := PNone;
     a_wrapper_kwargs := wrapper_kwargs |}.

Definition world0 : world Z := {| rng := 0; sim_runs := 0 |}.
Definition world1 : world Z := {| rng := 7; sim_runs := 3 |}.

(** [from_signals] with [cash_sharing=True] and
    [wrapper_kwargs=dict(group_select=False)]. *)
Definition no_group_select : gmap string pyval :=
  {["group_select" := PBool false]}.

End Demo.

(* ===================================================================== *)
(** * [vectorbt/base/grouping.py]: the rest of the module *)
(* ===================================================================== *)

Module GrouperMethods.

Import Py Grouping.

(** ** Arrays of 64-bit integers *)

(** The value a signed 64-bit integer holds after an operation whose
    exact result is [z]. *)
Definition wrap64 (z : Z) : Z := (z + 2 ^ 63) mod 2 ^ 64 - 2 ^ 63.

(** [np.cumsum], from a running total. The arrays summed below hold
    group lengths or marks of group starts, whose total is the number of
    columns, so no sum leaves the 64-bit range. *)
Fixpoint cumsum_from (acc : Z) (l : list Z) : list Z :=
  match l with
  | [] => []
  | x :: l' => (acc + x) :: cumsum_from (acc + x) l'
  end.

Definition cumsum (l : list Z) : list Z := cumsum_from 0 l.

(** ** [group_by_evenly_nb] (lines 100-106) *)

(** [np.empty(n)] refuses a negative length; the loop body is compiled
    on 64-bit integers, [//] rounding down. *)
Definition group_by_evenly_nb (n n_splits : Z) : Py.result (list Z) :=
  if n <? 0 then Raise (ValueError "negative dimensions are not allowed")
  else
    Ok ((fun i : nat =>
           wrap64 (wrap64 (wrap64 (Z.of_nat i * n_splits) / n)
                   + wrap64 (n_splits / wrap64 (2 * n))))
          <$> seq 0 (Z.to_nat n)).

(** ** [Grouper.from_pd_group_by] (lines 166-185) *)

(** [groups[idxs] = v]: the cells are written in turn, an index past the
    end of the array is an error. *)
Fixpoint setitems (a : list Z) (idxs : list Z) (v : Z) : Py.result (list Z) :=
  match idxs with
  | [] => Ok a
  | k :: idxs' =>
      if decide (0 <= k < Z.of_nat (length a))
      then setitems (<[Z.to_nat k := v]> a) idxs' v
      else Raise (IndexError "index is out of bounds")
  end.

(** [index[groups]]: the label at each code. *)
Fixpoint take_labels (keys : list label) (codes : list Z)
  : Py.result (list label) :=
  match codes with
  | [] => Ok []
  | c :: codes' =>
      if decide (0 <= c) then
        match keys !! Z.to_nat c with
        | Some k => ks ← take_labels keys codes'; Ok (k :: ks)
        | None => Raise (IndexError "index is out of bounds")
        end
      else Raise (IndexError "index is out of bounds")
  end.

(** The codes of the positions listed group after group: a mark at the
    first position of every group but the first, summed up. *)
Definition pd_group_codes (group_lens : list Z) : Py.result (list Z) :=
  let groups := replicate (Z.to_nat (sum_list_Z group_lens)) 0 in
  let group_start_idxs :=
    zip_with Z.sub (tail (cumsum group_lens)) (tail group_lens) in
  groups ← setitems groups group_start_idxs 1;
  Ok (cumsum groups).

(** A pandas [GroupBy] as the method reads it: [indices], the positions
    of the rows of each group, of which there is at least one, and the
    labels of [count().index]. *)
Record PandasGroupBy : Type := {
  indices_head : list Z;
  indices_tail : list (list Z);
  count_index : list label
}.

Definition indices (g : PandasGroupBy) : list (list Z) :=
  indices_head g :: indices_tail g.

Definition from_pd_group_by (pd_group_by : PandasGroupBy)
           (allow_enable allow_disable allow_modify : bool)
  : Py.result Grouper :=
  let group_lens := (fun idx => Z.of_nat (length idx)) <$> indices pd_group_by in
  groups ← pd_group_codes group_lens;
  labels ← take_labels (count_index pd_group_by) groups;
  Grouper_init (LInt <$> concat (indices pd_group_by)) (GBIndex labels)
               allow_enable allow_disable allow_modify.

(** ** The other methods of [Grouper] (lines 245-338) *)

(** [is_grouping_changed] (lines 245-253) and [is_group_count_changed]
    (lines 255-261), on a mapper that is [None], a boolean or a
    [pd.Index]. *)
Definition is_grouping_changed (self : Grouper) (gb : group_by_like) : bool :=
  let early :=
    match gb with
    | GBNone => true
    | GBBool false => bool_decide (group_by self = None)
    | _ => false
    end in
  if early then false
  else
    match gb, group_by self with
    | GBIndex new, Some cur => if bool_decide (new = cur) then false else true
    | _, _ => true
    end.

Definition is_group_count_changed (self : Grouper) (gb : group_by_like) : bool :=
  let early :=
    match gb with
    | GBNone => true
    | GBBool false => bool_decide (group_by self = None)
    | _ => false
    end in
  if early then false
  else
    match gb, group_by self with
    | GBIndex new, Some cur => negb (bool_decide (length new = length cur))
    | _, _ => true
    end.

(** The keyword arguments the methods hand on to [check_group_by]. *)
Record overrides : Type := {
  ov_enable : option bool;
  ov_disable : option bool;
  ov_modify : option bool
}.

Definition no_overrides : overrides :=
  {| ov_enable := None; ov_disable := None; ov_modify := None |}.

(** [resolve_group_by] (lines 283-290). *)
Definition resolve_group_by (self : Grouper) (gb : group_by_like)
           (kwargs : overrides) : Py.result group_by_like :=
  let gb := match gb with
            | GBNone => from_option GBIndex GBNone (group_by self)
            | _ => gb
            end in
  let gb := match gb with
            | GBBool false =>
                if bool_decide (group_by self = None) then GBNone else gb
            | _ => gb
            end in
  _ ← check_group_by self gb (ov_enable kwargs) (ov_disable kwargs)
                     (ov_modify kwargs);
  group_by_to_index (index self) gb.

(** The method [get_groups_and_index] (lines 292-296), [get_groups] and
    [get_index] (lines 298-304). *)
Definition Grouper_get_groups_and_index (self : Grouper) (gb : group_by_like)
           (kwargs : overrides) : Py.result (list Z * list label) :=
  gb ← resolve_group_by self gb kwargs;
  get_groups_and_index (index self) gb.

Definition get_groups (self : Grouper) (gb : group_by_like)
           (kwargs : overrides) : Py.result (list Z) :=
  r ← Grouper_get_groups_and_index self gb kwargs; Ok r.1.

Definition get_index (self : Grouper) (gb : group_by_like)
           (kwargs : overrides) : Py.result (list label) :=
  r ← Grouper_get_groups_and_index self gb kwargs; Ok r.2.

Definition not_coherent_msg : string :=
  "group_by must lead to groups that are coherent and sorted (such as [0, 0, 1, 2, 2, ...])".

Section Sorted.

(** [vectorbt.utils.array_.is_sorted], which is not part of the sources
    at hand. *)
Variable is_sorted : list Z -> bool.

(** [Grouper.is_sorted] (lines 306-311): the resolved mapper goes to
    [get_groups] without the keyword arguments. *)
Definition Grouper_is_sorted (self : Grouper) (gb : group_by_like)
           (kwargs : overrides) : Py.result bool :=
  gb ← resolve_group_by self gb kwargs;
  groups ← get_groups self gb no_overrides;
  Ok (is_sorted groups).

(** [get_group_lens] (lines 313-323): [is_sorted] is called without the
    keyword arguments. *)
Definition get_group_lens (self : Grouper) (gb : group_by_like)
           (kwargs : overrides) : Py.result (list Z) :=
  Grouper_is_sorted self gb no_overrides ≫= λ sorted : bool,
  if negb sorted then Raise (ValueError not_coherent_msg)
  else
    gb ← resolve_group_by self gb kwargs;
    match gb with
    | GBNone | GBBool false => Ok (replicate (length (index self)) 1)
    | _ => groups ← get_groups self gb no_overrides; get_group_lens_nb groups
    end.

(** [get_group_count], [get_group_start_idxs] and [get_group_end_idxs]
    (lines 325-338). *)
Definition get_group_count (self : Grouper) (gb : group_by_like)
           (kwargs : overrides) : Py.result nat :=
  group_lens ← get_group_lens self gb kwargs; Ok (length group_lens).

Definition get_group_start_idxs (self : Grouper) (gb : group_by_like)
           (kwargs : overrides) : Py.result (list Z) :=
  group_lens ← get_group_lens self gb kwargs;
  Ok (zip_with Z.sub (cumsum group_lens) group_lens).

Definition get_group_end_idxs (self : Grouper) (gb : group_by_like)
           (kwargs : overrides) : Py.result (list Z) :=
  group_lens ← get_group_lens self gb kwargs; Ok (cumsum group_lens).

End Sorted.

(** The order test on the codes: no code is smaller than the one before
    it. *)
Fixpoint sorted_codes (l : list Z) : bool :=
  match l with
  | a :: (b :: _) as l' => (a <=? b) && sorted_codes l'
  | _ => true
  end.

(** A Grouper as [__init__] leaves it: the mapper, when there is one, is
    as long as the index. *)
Definition constructed (self : Grouper) : Prop :=
  forall cur, group_by self = Some cur -> length cur = length (index self).

(** The positions [0 .. n-1] in groups of the given sizes, and a pandas
    [GroupBy] of two groups over five rows. *)
Definition two_groups : PandasGroupBy :=
  {| indices_head := [0; 1; 2]; indices_tail := [[3; 4]];
     count_index := [LStr "x"; LStr "y"] |}.

(** *** Predicates on codes *)

(** The codes of consecutive groups of the given lengths, numbered from
    [c], and the marks [from_pd_group_by] sums up: a one where a group
    starts, zeros elsewhere. *)
Fixpoint group_codes (c : Z) (lens : list Z) : list Z :=
  match lens with
  | [] => []
  | l :: lens' => replicate (Z.to_nat l) c ++ group_codes (c + 1) lens'
  end.

Fixpoint start_marks (lens : list Z) : list Z :=
  match lens with
  | [] => []
  | l :: lens' => (1 :: replicate (Z.to_nat l - 1) 0) ++ start_marks lens'
  end.

(** Every position labelled with the key of its group. *)
Definition group_labels (keys : list label) (idxs : list (list Z))
  : list label :=
  concat (zip_with (fun k idx => replicate (length idx) k) keys idxs).

End GrouperMethods.

(* ===================================================================== *)
(** * [vectorbt/portfolio/base.py]: [Portfolio.regroup] *)
(* ===================================================================== *)

Module PortfolioMethods.

Import Py Grouping.

Section Regroup.

(** The portfolio as [regroup] reads it: [self.cash_sharing] and
    [self.wrapper.grouper]. *)
Variable Portfolio : Type.
Variable cash_sharing : Portfolio -> bool.
Variable grouper : Portfolio -> Grouper.

(** [Wrapping.regroup] of [vectorbt.base.wrapping], which is not among
    the sources. *)
Variable Wrapping_regroup : Portfolio -> group_by_like -> Py.result Portfolio.

Definition cash_sharing_msg : string :=
  "Cannot modify grouping globally when cash_sharing=True".

(** [Portfolio.regroup] (lines 5239-5249). *)
Definition regroup (self : Portfolio) (gb : group_by_like)
  : Py.result Portfolio :=
  if cash_sharing self then
    is_grouping_modified (grouper self) gb ≫= λ modified : bool,
    if modified then Raise (ValueError cash_sharing_msg)
    else Wrapping_regroup self gb
  else Wrapping_regroup self gb.

End Regroup.

(** A portfolio reduced to its cash sharing flag and its Grouper, and a
    [Wrapping.regroup] that replaces the mapper of the Grouper. *)
Definition demo_portfolio : Type := bool * Grouper.

Definition demo_Wrapping_regroup (pf : demo_portfolio) (gb : group_by_like)
  : Py.result demo_portfolio :=
  g ← Grouper_init (index pf.2) gb (allow_enable pf.2) (allow_disable pf.2)
                   (allow_modify pf.2);
  Ok (pf.1, g).

Definition demo_regroup : demo_portfolio -> group_by_like
                          -> Py.result demo_portfolio :=
  regroup demo_portfolio fst snd demo_Wrapping_regroup.

End PortfolioMethods.

(* ===================================================================== *)
(** * More calls of the drivers to try *)
(* ===================================================================== *)

Module DemoMore.

Import Py Drivers Demo.

(** The arguments of scenario S1 with every argument the preparation
    reads left open. *)
Definition demo_args_with (d : driver)
           (signal_arrays signal_func : bool)
           (flexible init_cash cash_sharing call_seq seed group_by : pyval)
           (wrapper_kwargs : option (gmap string pyval))
  : args Kernel.SimArgs :=
  {| a_rest := Kernel.s1_args Kernel.Both true;
     a_enums := (fun _ => PNone) <$> enum_table d;
     a_signal_arrays := signal_arrays;
     a_signal_func := signal_func;
     a_flexible := flexible;
     a_init_cash := init_cash;
     a_cash_sharing := cash_sharing;
     a_call_seq := call_seq;
     a_seed := seed;
     a_group_by := group_by;
     a_wrapper_kwargs := wrapper_kwargs |}.

Definition demo_resolve_args :=
  Drivers.resolve_args Z Kernel.SimArgs demo_cfg demo_map_enum_fields
                       demo_set_seed.

End DemoMore.

(* ===================================================================== *)
(** * [from_orders] on the kernel of the specification *)
(* ===================================================================== *)

Module Replay.

Import Py Drivers.
#[local] Open Scope float_scope.

Section Replay.

(** What the kernel and the driver leave open, as before. *)
Variable resolve_size :
  Kernel.SizeType -> Kernel.ExecState -> float -> float -> float.
Variable restrict_direction : Kernel.Direction -> float -> float -> float.
Variable truncate_granularity : float -> float -> float.
Variables (rng_state rest : Type).
Variable next_uniform : rng_state -> float * rng_state.
Variable sort_call_seq :
  Kernel.SimArgs -> Kernel.SimState rng_state -> nat -> nat -> list nat
  -> list nat.
Variable portfolio_cfg : string -> pyval.
Variable map_enum_fields : pyval -> string -> Py.result pyval.
Variable set_seed : pyval -> Py.result rng_state.
Variable prepare :
  driver -> resolved rest -> rng_state -> Py.result Kernel.SimArgs * rng_state.

Definition kernel_failed_msg : string := "the simulation failed".

(** [nb.simulate_from_orders_nb] as [from_orders] calls it: the order
    records of the run, or an error. Every draw of the kernel comes from
    the generators of the world; where they stand after a run that
    failed is not modelled (no result depends on it). *)
Definition simulate_from_orders (d : driver) (sa : Kernel.SimArgs)
           (g : rng_state)
  : Py.result (list Kernel.order_record) * rng_state :=
  match Kernel.simulate_from_orders_nb
          resolve_size restrict_direction truncate_granularity rng_state
          next_uniform sort_call_seq sa g
  with
  | Kernel.Done st => (Ok (Kernel.records st), Kernel.gen st)
  | Kernel.Failed _ => (Raise (ValueError kernel_failed_msg), g)
  end.

(** [Portfolio.from_orders] with that kernel. *)
Definition from_orders_on_kernel (a : args rest)
  : M rng_state (portfolio Kernel.SimArgs (list Kernel.order_record)) :=
  Drivers.run rng_state rest Kernel.SimArgs (list Kernel.order_record)
              portfolio_cfg map_enum_fields set_seed prepare
              simulate_from_orders FromOrders a.

End Replay.

(** ** A run in which the draws matter *)

(** Scenario S1 with every order rejected at random with probability
    one half. *)
Definition with_reject_prob (p : float) (oa : Kernel.OrderArrays)
  : Kernel.OrderArrays :=
  {| Kernel.oa_size := Kernel.oa_size oa;
     Kernel.oa_price := Kernel.oa_price oa;
     Kernel.oa_size_type := Kernel.oa_size_type oa;
     Kernel.oa_direction := Kernel.oa_direction oa;
     Kernel.oa_fees := Kernel.oa_fees oa;
     Kernel.oa_fixed_fees := Kernel.oa_fixed_fees oa;
     Kernel.oa_slippage := Kernel.oa_slippage oa;
     Kernel.oa_min_size := Kernel.oa_min_size oa;
     Kernel.oa_max_size := Kernel.oa_max_size oa;
     Kernel.oa_size_granularity := Kernel.oa_size_granularity oa;
     Kernel.oa_reject_prob := Kernel.Scalar p;
     Kernel.oa_lock_cash := Kernel.oa_lock_cash oa;
     Kernel.oa_allow_partial := Kernel.oa_allow_partial oa;
     Kernel.oa_raise_reject := Kernel.oa_raise_reject oa;
     Kernel.oa_log := Kernel.oa_log oa;
     Kernel.oa_price_area_vio_mode := Kernel.oa_price_area_vio_mode oa |}.

Definition s1_args_reject : Kernel.SimArgs :=
  let a := Kernel.s1_args Kernel.Both true in
  {| Kernel.n_rows := Kernel.n_rows a; Kernel.n_cols := Kernel.n_cols a;
     Kernel.group_lens := Kernel.group_lens a;
     Kernel.call_seq := Kernel.call_seq a;
     Kernel.init_cash := Kernel.init_cash a;
     Kernel.init_position := Kernel.init_position a;
     Kernel.cash_deposits := Kernel.cash_deposits a;
     Kernel.cash_earnings := Kernel.cash_earnings a;
     Kernel.orders := with_reject_prob 0.5 (Kernel.orders a);
     Kernel.open := Kernel.open a; Kernel.high := Kernel.high a;
     Kernel.low := Kernel.low a; Kernel.close := Kernel.close a;
     Kernel.auto_call_seq := Kernel.auto_call_seq a;
     Kernel.ffill_val_price := Kernel.ffill_val_price a;
     Kernel.max_orders := Kernel.max_orders a;
     Kernel.max_logs := Kernel.max_logs a |}.

(** A generator whose state is an integer: it draws [0.75] from an even
    state and [0.25] from an odd one, and steps by one. A seed is the
    state it sets. *)
Definition coin (g : Z) : float * Z :=
  ((if Z.even g then 0.75 else 0.25)%float, (g + 1)%Z).

Definition coin_from_orders (a : args Kernel.SimArgs)
  : M Z (portfolio Kernel.SimArgs (list Kernel.order_record)) :=
  from_orders_on_kernel (fun _ _ _ _ => nan) (fun _ _ _ => nan)
                        (fun _ _ => nan) Z Kernel.SimArgs coin
                        (fun _ _ _ _ calls => calls)
                        Demo.demo_cfg Demo.demo_map_enum_fields
                        Demo.demo_set_seed Demo.demo_prepare a.

Definition coin_args (seed : pyval) : args Kernel.SimArgs :=
  {| a_rest := s1_args_reject;
     a_enums := (fun _ => PNone) <$> enum_table FromOrders;
     a_signal_arrays := false;
     a_signal_func := false;
     a_flexible := PNone;
     a_init_cash := PInt 100;
     a_cash_sharing := PNone;
     a_call_seq := PNone;
     a_seed := seed;
     a_group_by := PNone;
     a_wrapper_kwargs := None |}.

End Replay.

(* ===================================================================== *)
(** * Properties of the tolerant float helpers *)
(* ===================================================================== *)

Module MathFacts.

Import Math.
#[local] Open Scope float_scope.

(** ** Comparisons with zero *)

(** The binary64 comparisons are specified on [spec_float]; against the
    literal zero they are decided by the shape of the other operand. *)
Ltac float_cases a :=
  rewrite ?FloatAxioms.ltb_spec, ?FloatAxioms.eqb_spec;
  change (Prim2SF 0) with (S754_zero false);
  let s := fresh "s" in
  destruct (Prim2SF a) as [s|s| |s ? ?]; try destruct s;
  unfold SFltb, SFeqb, SFcompare; simpl;
  try congruence; try reflexivity.

Lemma ltb_zero_neg (a : float) : (a <? 0) = true -> (0 <? a) = false.
Proof. float_cases a. Qed.

Lemma ltb_zero_pos (a : float) : (0 <? a) = true -> (a <? 0) = false.
Proof. float_cases a. Qed.

Lemma eqb_zero_ltb (a : float) :
  (a =? 0) = true -> (0 <? a) = false /\ (a <? 0) = false.
Proof. float_cases a; intros; split; reflexivity. Qed.

Lemma np_sign_neg (a : float) : (a <? 0) = true -> np_sign a = -1.
Proof.
  intros H. unfold np_sign. rewrite (ltb_zero_neg a H), H. reflexivity.
Qed.

Lemma np_sign_pos (a : float) : (0 <? a) = true -> np_sign a = 1.
Proof. intros H. unfold np_sign. rewrite H. reflexivity. Qed.

Lemma np_sign_zero (a : float) : (a =? 0) = true -> np_sign a = 0.
Proof.
  intros H. unfold np_sign.
  destruct (eqb_zero_ltb a H) as [-> ->]. rewrite H. reflexivity.
Qed.

(** ** Sign classes of a pair *)

Lemma opposite_sign_fneq (a b : float) :
  opposite_sign a b = true -> fneq (np_sign a) (np_sign b) = true.
Proof.
  unfold opposite_sign. intros H.
  apply orb_true_iff in H as [H|H]; apply andb_true_iff in H as [Ha Hb].
  - rewrite (np_sign_neg a Ha), (np_sign_pos b Hb). reflexivity.
  - rewrite (np_sign_pos a Ha), (np_sign_neg b Hb). reflexivity.
Qed.

Lemma same_sign_fneq (a b : float) :
  same_sign a b = true -> fneq (np_sign a) (np_sign b) = false.
Proof.
  unfold same_sign. intros H.
  apply orb_true_iff in H as [H|H]; [apply orb_true_iff in H as [H|H]|];
    apply andb_true_iff in H as [Ha Hb].
  - rewrite (np_sign_pos a Ha), (np_sign_pos b Hb). reflexivity.
  - rewrite (np_sign_neg a Ha), (np_sign_neg b Hb). reflexivity.
  - rewrite (np_sign_zero a Ha), (np_sign_zero b Hb). reflexivity.
Qed.

(** ** [is_close_nb] on NaN and infinities *)

Lemma is_close_nb_nonfinite (a b : float) (use_tol : bool) (rel_tol abs_tol : float) :
  isnan a || isnan b || isinf a || isinf b = true ->
  is_close_nb a b use_tol rel_tol abs_tol = false.
Proof.
  unfold is_close_nb. intros H.
  destruct (isnan a), (isnan b), (isinf a), (isinf b); simpl in *;
    congruence.
Qed.

(** C10. [is_close_nb] is [False] as soon as one argument is NaN or
    infinite, whatever the tolerances; [is_close_nb(inf, inf)] and
    [is_close_nb(-inf, -inf)] are [False] although their arguments are
    equal; and on such arguments [is_close_or_less_nb] and [is_less_nb]
    return the strict comparison [a < b]. *)
Theorem C10_is_close_nonfinite :
  forall (cfg : settings) (a b : float) (use_tol : bool) (rel_tol abs_tol : float),
    (isnan a || isnan b || isinf a || isinf b = true ->
       is_close_nb a b use_tol rel_tol abs_tol = false
       /\ is_close_or_less_nb cfg a b use_tol rel_tol abs_tol = (a <? b)
       /\ is_less_nb cfg a b use_tol rel_tol abs_tol = (a <? b))
    /\ (infinity =? infinity) = true
    /\ is_close_nb infinity infinity use_tol rel_tol abs_tol = false
    /\ (neg_infinity =? neg_infinity) = true
    /\ is_close_nb neg_infinity neg_infinity use_tol rel_tol abs_tol = false.
Proof.
  intros cfg a b use_tol rel_tol abs_tol. repeat split; try reflexivity.
  - now apply is_close_nb_nonfinite.
  - unfold is_close_or_less_nb.
    rewrite (is_close_nb_nonfinite a b _ rel_tol abs_tol H).
    rewrite andb_false_r. reflexivity.
  - unfold is_less_nb.
    rewrite (is_close_nb_nonfinite a b _ rel_tol abs_tol H).
    rewrite andb_false_r. reflexivity.
Qed.

Lemma C10_is_close_nonfinite_witness :
  isnan infinity || isnan 1 || isinf infinity || isinf 1 = true
  /\ is_close_nb infinity 1 true 1e-9 1e-12 = false
  /\ is_close_or_less_nb default_settings infinity 1 true 1e-9 1e-12
     = (infinity <? 1)
  /\ is_less_nb default_settings infinity 1 true 1e-9 1e-12 = (infinity <? 1).
Proof.
  split; [reflexivity|].
  apply (C10_is_close_nonfinite default_settings infinity 1 true 1e-9 1e-12).
  reflexivity.
Defined.

(** ** [add_nb] with the default tolerances *)

Abbreviation dflt := default_settings.

Lemma add_unfold (a b : float) :
  add dflt a b = if is_addition_zero dflt a b then 0 else a + b.
Proof. reflexivity. Qed.

Lemma is_addition_zero_unfold (a b : float) :
  is_addition_zero dflt a b =
  if fneq (np_sign a) (np_sign b) then is_close dflt (abs a) (abs b)
  else is_close dflt (a + b) 0.
Proof. reflexivity. Qed.

(** Two floats differ as soon as a comparison tells them apart. *)
Lemma float_neq_by_eqb (x y : float) :
  (x =? x) = true -> (x =? y) = false -> x <> y.
Proof. intros Hx Hxy ->. congruence. Qed.

(** C5, as stated, fails: [1e-13] and [1e-13] are not of opposite sign,
    yet [add] returns [0.0] and not their sum [2e-13]. *)
Lemma C5_counterexample :
  opposite_sign 1e-13 1e-13 = false
  /\ add dflt 1e-13 1e-13 = 0
  /\ add dflt 1e-13 1e-13 <> 1e-13 + 1e-13.
Proof.
  split; [reflexivity|]. split; [reflexivity|].
  apply float_neq_by_eqb; reflexivity.
Qed.

(** C5, amended. With the default tolerances [add] returns exactly [0.0]
    - for every pair of opposite sign whose magnitudes are approximately
      equal (such a pair is finite, [is_close] being [False] otherwise);
    - and also for every pair of the same sign (both positive, both
      negative or both zero) whose sum is approximately zero;
    - and in general exactly when [is_addition_zero] holds, that is when
      [np.sign] tells the operands apart and their magnitudes are
      approximately equal, or does not and their sum is approximately zero;
    for every other pair it returns the sum [a + b]. *)
Theorem C5_add_default :
  forall a b : float,
    (opposite_sign a b = true -> is_close dflt (abs a) (abs b) = true ->
       add dflt a b = 0)
    /\ (same_sign a b = true -> is_close dflt (a + b) 0 = true ->
       add dflt a b = 0)
    /\ add dflt a b =
       if (if fneq (np_sign a) (np_sign b) then is_close dflt (abs a) (abs b)
           else is_close dflt (a + b) 0)
       then 0 else a + b.
Proof.
  intros a b. rewrite add_unfold, is_addition_zero_unfold.
  split; [|split; [|reflexivity]].
  - intros Hs Hc. rewrite (opposite_sign_fneq a b Hs), Hc. reflexivity.
  - intros Hs Hc. rewrite (same_sign_fneq a b Hs), Hc. reflexivity.
Qed.

Lemma C5_add_default_witness :
  (opposite_sign 2 (-2) = true /\ is_close dflt (abs 2) (abs (-2)) = true)
  /\ add dflt 2 (-2) = 0.
Proof.
  split; [split; reflexivity|].
  apply (proj1 (C5_add_default 2 (-2))); reflexivity.
Defined.

End MathFacts.

(* ===================================================================== *)
(** * Properties of [get_group_lens_nb] *)
(* ===================================================================== *)

Module GroupLensFacts.

Import Py Grouping.

(** ** The array and its written prefix *)

Lemma flush_ok (st : loop_state) :
  (j st < length (result st))%nat ->
  exists st',
    flush st = Ok st'
    /\ take (j st') (result st') = take (j st) (result st) ++ [group_len st]
    /\ length (result st') = length (result st)
    /\ j st' = S (j st)
    /\ last_group st' = last_group st
    /\ group_len st' = 0.
Proof.
  intros Hj. unfold flush, setitem. rewrite decide_True by done.
  eexists. split; [reflexivity|]. simpl.
  rewrite length_insert. repeat split.
  erewrite take_S_r by (apply list_lookup_insert_eq; done).
  rewrite take_insert_ge by lia. reflexivity.
Qed.

(** What one iteration does to the written prefix; [x] is the code read. *)
Lemma loop_body_step (groups pre suf : list Z) (x : Z) (st : loop_state) :
  groups = pre ++ x :: suf ->
  length (result st) = length groups ->
  cells_ok pre st ->
  let last := last_group st in
  let closes := negb (x =? last) && negb (last =? -1) in
  let out1 := if closes then take (j st) (result st) ++ [group_len st]
              else take (j st) (result st) in
  let glen1 := (if closes then 0 else group_len st) + 1 in
  if x <? last then
    loop_body groups (length pre) st = Raise (ValueError not_sorted_msg)
  else
    exists st',
      loop_body groups (length pre) st = Ok st'
      /\ length (result st') = length groups
      /\ last_group st' = x
      /\ match suf with
         | [] => take (j st') (result st') = out1 ++ [glen1]
         | _ => take (j st') (result st') = out1
                /\ group_len st' = glen1
                /\ cells_ok (pre ++ [x]) st'
         end.
Proof.
  intros Hg Hlen Hok. simpl. unfold loop_body.
  assert (groups !! length pre = Some x) as ->
    by (subst groups; apply list_lookup_middle; reflexivity).
  assert (length groups = S (length pre + length suf)) as Hn
    by (subst groups; rewrite length_app; simpl; lia).
  destruct (x <? last_group st) eqn:Hlt; [reflexivity|].
  destruct (x =? last_group st) eqn:Hx; simpl.
  - (* same group: nothing is closed *)
    apply Z.eqb_eq in Hx.
    destruct suf as [|y suf].
    + rewrite decide_True by (simpl in Hn; lia).
      edestruct (flush_ok {| result := result st; j := j st;
                             last_group := last_group st;
                             group_len := group_len st + 1 |})
        as (st' & -> & Ht & Hl & _ & Hlast & _).
      { simpl. destruct Hok as [[_ ->]|?]; lia. }
      exists st'. simpl in *. repeat split; congruence.
    + rewrite decide_False by (simpl in Hn; lia).
      eexists. split; [reflexivity|]. simpl. repeat split; try congruence.
      destruct Hok as [[? ?]|?]; [left|right]; simpl.
      * split; congruence.
      * rewrite length_app; simpl; lia.
  - destruct (last_group st =? -1) eqn:Hl1; simpl.
    + (* first group: nothing to close *)
      apply Z.eqb_eq in Hl1.
      assert (j st < S (length pre))%nat as Hj
        by (destruct Hok as [[_ ->]|?]; lia).
      destruct suf as [|y suf].
      * rewrite decide_True by (simpl in Hn; lia).
        edestruct (flush_ok {| result := result st; j := j st;
                               last_group := x;
                               group_len := group_len st + 1 |})
          as (st' & -> & Ht & Hl & _ & Hlast & _).
        { simpl. lia. }
        exists st'. simpl in *. repeat split; congruence.
      * rewrite decide_False by (simpl in Hn; lia).
        eexists. split; [reflexivity|]. simpl. repeat split; try congruence.
        right. simpl. rewrite length_app; simpl; lia.
    + (* a new group: the previous one is closed *)
      apply Z.eqb_neq in Hl1.
      assert (j st < length pre)%nat as Hj
        by (destruct Hok as [[? _]|?]; [congruence|assumption]).
      edestruct (flush_ok st) as (st1 & -> & Ht1 & Hl1' & Hj1 & Hlast1 & Hg1).
      { lia. }
      simpl. rewrite Hg1.
      destruct suf as [|y suf].
      * rewrite decide_True by (simpl in Hn; lia).
        edestruct (flush_ok {| result := result st1; j := j st1;
                               last_group := x; group_len := 0 + 1 |})
          as (st' & -> & Ht & Hl & _ & Hlast & _).
        { simpl. simpl in Hn. lia. }
        exists st'. simpl in *. repeat split; congruence.
      * rewrite decide_False by (simpl in Hn; lia).
        eexists. split; [reflexivity|]. simpl. repeat split; try congruence.
        right. simpl. rewrite length_app; simpl; lia.
Qed.

(** The loop from any iteration on, read on the written prefix. *)
Lemma for_range_scan (groups : list Z) :
  forall (suf pre : list Z) (st : loop_state),
    groups = pre ++ suf ->
    length (result st) = length groups ->
    cells_ok pre st ->
    (for_range (loop_body groups) (seq (length pre) (length suf)) st
       ≫= λ st', Ok (take (j st') (result st')))
    = scan (last_group st) (group_len st) (take (j st) (result st)) suf.
Proof.
  induction suf as [|x suf IH]; intros pre st Hg Hlen Hok; [reflexivity|].
  pose proof (loop_body_step groups pre suf x st Hg Hlen Hok) as Hstep.
  simpl in Hstep. simpl.
  destruct (x <? last_group st); [rewrite Hstep; reflexivity|].
  destruct Hstep as (st' & -> & Hlen' & Hlast' & Hrest). simpl.
  destruct suf as [|y suf].
  - simpl. rewrite Hrest. reflexivity.
  - destruct Hrest as (Ht & Hgl & Hok').
    specialize (IH (pre ++ [x]) st').
    rewrite length_app in IH. simpl in IH.
    replace (length pre + 1)%nat with (S (length pre)) in IH by lia.
    rewrite <- Ht, <- Hgl, <- Hlast'.
    apply IH; [|assumption..].
    rewrite <- app_assoc. exact Hg.
Qed.

(** The function is the scan of its argument, whatever the array held
    when it was allocated. *)
Lemma get_group_lens_nb_on_buf (buf groups : list Z) :
  length buf = length groups ->
  get_group_lens_nb_on buf groups = scan (-1) 0 [] groups.
Proof.
  intros Hlen. unfold get_group_lens_nb_on.
  apply (for_range_scan groups groups []
           {| result := buf; j := 0; last_group := -1; group_len := 0 |});
    [reflexivity|exact Hlen|left; split; reflexivity].
Qed.

Lemma get_group_lens_nb_scan (groups : list Z) :
  get_group_lens_nb groups = scan (-1) 0 [] groups.
Proof.
  apply get_group_lens_nb_on_buf. unfold np_empty.
  apply length_replicate.
Qed.

(** ** Codes out of order *)

Lemma has_descent_cons (a x : Z) (l : list Z) :
  has_descent (a :: x :: l) -> x < a \/ has_descent (x :: l).
Proof.
  intros (i & u & v & Hu & Hv & Hlt). destruct i as [|i].
  - left. simpl in Hu, Hv. congruence.
  - right. exists i, u, v. auto.
Qed.

Lemma has_descent_single (a : Z) : ~ has_descent [a].
Proof. intros (i & u & v & _ & Hv & _). destruct i; discriminate. Qed.

Lemma scan_descent :
  forall (l : list Z) (last glen : Z) (out : list Z),
    has_descent (last :: l) ->
    scan last glen out l = Raise (ValueError not_sorted_msg).
Proof.
  induction l as [|x l IH]; intros last glen out Hd.
  - destruct (has_descent_single _ Hd).
  - simpl. destruct (x <? last) eqn:Hlt; [reflexivity|].
    apply Z.ltb_ge in Hlt.
    destruct (has_descent_cons _ _ _ Hd) as [?|Hd']; [lia|].
    destruct l as [|y l]; [destruct (has_descent_single _ Hd')|].
    apply IH. exact Hd'.
Qed.

(** ** Codes in order *)

Lemma non_decreasing_cons (a x : Z) (l : list Z) :
  non_decreasing (a :: x :: l) -> a <= x /\ non_decreasing (x :: l).
Proof.
  intros H. split.
  - apply (H 0%nat); reflexivity.
  - intros i u v Hu Hv. apply (H (S i)); assumption.
Qed.

Lemma scan_cons (last glen x : Z) (out l : list Z) :
  scan last glen out (x :: l) =
  if x <? last then Raise (ValueError not_sorted_msg)
  else
    let closes := negb (x =? last) && negb (last =? -1) in
    let out1 := if closes then out ++ [glen] else out in
    let glen1 := (if closes then 0 else glen) + 1 in
    match l with
    | [] => Ok (out1 ++ [glen1])
    | _ => scan x glen1 out1 l
    end.
Proof. reflexivity. Qed.

Lemma scan_runs :
  forall (l : list Z) (last glen : Z) (out : list Z),
    0 <= last -> l <> [] -> non_decreasing (last :: l) ->
    scan last glen out l = Ok (out ++ (close_runs last glen l).*2).
Proof.
  induction l as [|x l IH]; intros last glen out Hlast Hne Hs; [done|].
  apply non_decreasing_cons in Hs as [Hle Hs].
  rewrite scan_cons. cbn zeta.
  rewrite (proj2 (Z.ltb_ge x last)) by lia.
  rewrite (proj2 (Z.eqb_neq last (-1))) by lia.
  cbn [close_runs].
  destruct (x =? last) eqn:Hx; cbn [negb andb].
  - apply Z.eqb_eq in Hx. subst x.
    destruct l as [|y l]; [reflexivity|].
    apply IH; done.
  - apply Z.eqb_neq in Hx.
    destruct l as [|y l]; [simpl; rewrite <- app_assoc; reflexivity|].
    rewrite (IH x (0 + 1) (out ++ [glen])) by (done || lia).
    rewrite <- app_assoc. reflexivity.
Qed.

Lemma scan_runs_start (groups : list Z) :
  Forall (Z.le 0) groups -> non_decreasing groups ->
  scan (-1) 0 [] groups = Ok (runs groups).*2.
Proof.
  intros Hpos Hs. destruct groups as [|x l]; [reflexivity|].
  apply Forall_cons in Hpos as [Hx _].
  simpl. rewrite (proj2 (Z.ltb_ge x (-1))) by lia.
  rewrite andb_false_r.
  destruct l as [|y l]; [reflexivity|].
  rewrite scan_runs by (done || lia). reflexivity.
Qed.

(** ** The runs of a list of codes *)

Lemma expand_cons (r : Z * Z) (rs : list (Z * Z)) :
  expand (r :: rs) = replicate (Z.to_nat r.2) r.1 ++ expand rs.
Proof. reflexivity. Qed.

Lemma expand_close_runs :
  forall (l : list Z) (last n : Z),
    0 <= n ->
    expand (close_runs last n l) = replicate (Z.to_nat n) last ++ l.
Proof.
  induction l as [|x l IH]; intros last n Hn; simpl.
  - rewrite expand_cons. reflexivity.
  - destruct (x =? last) eqn:Hx.
    + apply Z.eqb_eq in Hx. subst x. rewrite IH by lia.
      rewrite Z2Nat.inj_add by lia. change (Z.to_nat 1) with 1%nat.
      rewrite Nat.add_1_r, replicate_S_end, <- app_assoc. reflexivity.
    + rewrite expand_cons, IH by lia. reflexivity.
Qed.

Lemma close_runs_lens_pos :
  forall (l : list Z) (last n : Z),
    0 < n -> Forall (Z.lt 0) (close_runs last n l).*2.
Proof.
  induction l as [|x l IH]; intros last n Hn; simpl.
  - repeat constructor. exact Hn.
  - destruct (x =? last); [apply IH; lia|].
    simpl. constructor; [exact Hn|apply IH; lia].
Qed.

Lemma close_runs_lens_sum :
  forall (l : list Z) (last n : Z),
    sum_list_Z (close_runs last n l).*2 = n + Z.of_nat (length l).
Proof.
  induction l as [|x l IH]; intros last n; simpl.
  - lia.
  - destruct (x =? last); simpl; rewrite IH; lia.
Qed.

Lemma close_runs_codes :
  forall (l : list Z) (last n : Z),
    non_decreasing (last :: l) ->
    exists (n' : Z) (rest : list (Z * Z)),
      close_runs last n l = (last, n') :: rest
      /\ Forall (Z.lt last) rest.*1
      /\ StronglySorted Z.lt rest.*1.
Proof.
  induction l as [|x l IH]; intros last n Hs; simpl.
  - exists n, []. repeat split; constructor.
  - apply non_decreasing_cons in Hs as [Hle Hs].
    destruct (x =? last) eqn:Hx.
    + apply Z.eqb_eq in Hx. subst x. apply IH. exact Hs.
    + apply Z.eqb_neq in Hx.
      destruct (IH x 1 Hs) as (n' & rest & -> & Hall & Hsorted).
      exists n, ((x, n') :: rest). split; [reflexivity|]. simpl. split.
      * constructor; [lia|].
        eapply Forall_impl; [exact Hall|]. simpl. intros; lia.
      * constructor; assumption.
Qed.

Lemma runs_codes_sorted (groups : list Z) :
  non_decreasing groups -> StronglySorted Z.lt (runs groups).*1.
Proof.
  intros Hs. destruct groups as [|x l]; [constructor|].
  destruct (close_runs_codes l x 1 Hs) as (n' & rest & Heq & Hall & Hsorted).
  simpl. rewrite Heq. simpl. constructor; assumption.
Qed.

Lemma strictly_sorted_NoDup (l : list Z) : StronglySorted Z.lt l -> NoDup l.
Proof.
  induction 1 as [|x l _ IH Hall]; constructor; [|exact IH].
  intros Hin. rewrite Forall_forall in Hall. specialize (Hall x Hin). lia.
Qed.

Lemma elem_of_expand (rs : list (Z * Z)) (c : Z) :
  Forall (Z.lt 0) rs.*2 -> c ∈ expand rs <-> c ∈ rs.*1.
Proof.
  induction rs as [|[c' n] rs IH]; intros Hpos.
  - reflexivity.
  - simpl in Hpos. apply Forall_cons in Hpos as [Hn Hpos].
    rewrite expand_cons, elem_of_app, elem_of_replicate, (IH Hpos).
    simpl. rewrite elem_of_cons.
    split; (intros [H|H]; [left|right; exact H]).
    + apply H.
    + split; [exact H|lia].
Qed.

(** ** One length per group *)

Lemma has_descent_start (groups : list Z) :
  has_descent groups -> has_descent (-1 :: groups).
Proof. intros (i & a & b & ?). exists (S i), a, b. assumption. Qed.

Lemma non_decreasing_single (a : Z) : non_decreasing [a].
Proof. intros i u v _ Hv. destruct i; discriminate. Qed.

Lemma non_decreasing_cons_2 (a x : Z) (l : list Z) :
  a <= x -> non_decreasing (x :: l) -> non_decreasing (a :: x :: l).
Proof.
  intros Hle Hs i u v Hu Hv. destruct i as [|i].
  - simpl in Hu, Hv. simplify_eq. exact Hle.
  - apply (Hs i); assumption.
Qed.

Ltac non_decreasing_tac :=
  repeat (apply non_decreasing_cons_2; [lia|]); apply non_decreasing_single.

(** X30. For every array of group codes none of which is negative: if
    the codes are non-decreasing, [get_group_lens_nb] returns one
    positive length per distinct code, the lengths sum to the number of
    columns, and the groups are contiguous spans (the array is the first
    code repeated as many times as its length says, then the second, and
    so on, the codes increasing strictly). For every array, negative
    codes or not: if a code is smaller than the one before it, the call
    raises [ValueError]. *)
Theorem get_group_lens_nb_nonneg_codes :
  forall groups : list Z,
    (Forall (Z.le 0) groups -> non_decreasing groups ->
       exists lens codes : list Z,
         get_group_lens_nb groups = Ok lens
         /\ length lens = length (remove_dups groups)
         /\ Forall (Z.lt 0) lens
         /\ sum_list_Z lens = Z.of_nat (length groups)
         /\ length codes = length lens
         /\ StronglySorted Z.lt codes
         /\ groups = expand (zip codes lens))
    /\ (has_descent groups ->
        get_group_lens_nb groups = Raise (ValueError not_sorted_msg)).
Proof.
  intros groups. split.
  - intros Hpos Hs.
    assert (Forall (Z.lt 0) (runs groups).*2) as Hlens.
    { destruct groups; [constructor|]. apply close_runs_lens_pos. lia. }
    assert (expand (runs groups) = groups) as Hexp.
    { destruct groups; [reflexivity|]. simpl.
      rewrite expand_close_runs by lia. reflexivity. }
    pose proof (runs_codes_sorted groups Hs) as Hsorted.
    exists (runs groups).*2, (runs groups).*1.
    rewrite get_group_lens_nb_scan, scan_runs_start by assumption.
    split; [reflexivity|]. split; [|split; [exact Hlens|]];
      [|split; [|split; [|split; [exact Hsorted|]]]].
    + rewrite length_fmap, <- (length_fmap fst).
      apply Permutation_length, NoDup_Permutation.
      * apply strictly_sorted_NoDup, Hsorted.
      * apply NoDup_remove_dups.
      * intros c. rewrite elem_of_remove_dups, <- (elem_of_expand _ c Hlens).
        rewrite Hexp. reflexivity.
    + destruct groups as [|x l]; [reflexivity|]. simpl.
      rewrite close_runs_lens_sum. lia.
    + rewrite !length_fmap. reflexivity.
    + rewrite zip_fst_snd. symmetry. exact Hexp.
  - intros Hd. rewrite get_group_lens_nb_scan.
    apply scan_descent, has_descent_start, Hd.
Qed.

Lemma get_group_lens_nb_nonneg_codes_witness :
  exists lens codes : list Z,
    get_group_lens_nb [0; 0; 1; 2; 2] = Ok lens
    /\ length lens = length (remove_dups [0; 0; 1; 2; 2])
    /\ Forall (Z.lt 0) lens
    /\ sum_list_Z lens = Z.of_nat (length [0; 0; 1; 2; 2])
    /\ length codes = length lens
    /\ StronglySorted Z.lt codes
    /\ [0; 0; 1; 2; 2] = expand (zip codes lens).
Proof.
  apply (proj1 (get_group_lens_nb_nonneg_codes [0; 0; 1; 2; 2])).
  - repeat constructor; lia.
  - non_decreasing_tac.
Defined.

End GroupLensFacts.

(* ===================================================================== *)
(** * Properties of the [Grouper] checks *)
(* ===================================================================== *)

Module GrouperFacts.

Import Py Grouping.

(** ** [pd.factorize] *)

Lemma index_of_Some (x : label) (u : list label) (k : nat) :
  index_of x u = Some k -> u !! k = Some x.
Proof.
  revert k. induction u as [|y u IH]; intros k; simpl; [done|].
  case_decide as Hxy.
  - intros [= <-]. subst y. reflexivity.
  - destruct (index_of x u) as [k'|]; simpl; [|done].
    intros [= <-]. simpl. apply IH. reflexivity.
Qed.

Lemma index_of_None (x : label) (u : list label) :
  index_of x u = None <-> x ∉ u.
Proof.
  induction u as [|y u IH]; simpl.
  - split; [intros _; apply not_elem_of_nil|done].
  - rewrite not_elem_of_cons. case_decide as Hxy.
    + split; [done|]. intros [? _]. done.
    + destruct (index_of x u); simpl.
      * split; [done|]. intros [_ Hn]. apply IH in Hn. done.
      * split; [|done]. intros _. split; [done|]. apply IH. done.
Qed.

Lemma index_of_NoDup (x : label) (u : list label) (k : nat) :
  NoDup u -> u !! k = Some x -> index_of x u = Some k.
Proof.
  intros Hnd Hk. destruct (index_of x u) as [k'|] eqn:Hi.
  - apply index_of_Some in Hi. f_equal.
    eapply NoDup_lookup; eassumption.
  - apply index_of_None in Hi. destruct Hi.
    eapply list_elem_of_lookup_2. exact Hk.
Qed.

Lemma factorize_from_cons (u l : list label) (x : label) :
  factorize_from u (x :: l) =
  if decide (x = LNA)
  then (-1 :: (factorize_from u l).1, (factorize_from u l).2)
  else
    match index_of x u with
    | Some k =>
        (Z.of_nat k :: (factorize_from u l).1, (factorize_from u l).2)
    | None =>
        (Z.of_nat (length u) :: (factorize_from (u ++ [x]) l).1,
         (factorize_from (u ++ [x]) l).2)
    end.
Proof.
  simpl. case_decide.
  - destruct (factorize_from u l). reflexivity.
  - destruct (index_of x u).
    + destruct (factorize_from u l). reflexivity.
    + destruct (factorize_from (u ++ [x]) l). reflexivity.
Qed.

(** *** Equal codes for mappers that group alike *)

Lemma corr_weaken (ps qs : list (label * label)) :
  qs ⊆ ps -> corr ps -> corr qs.
Proof. intros Hsub Hc p q Hp Hq. apply Hc; apply Hsub; assumption. Qed.

Lemma codes_lockstep :
  forall ps us : list (label * label),
    corr (us ++ ps) -> NoDup us.*1 -> NoDup us.*2 ->
    Forall (fun p => p.1 = LNA <-> p.2 = LNA) ps ->
    (factorize_from us.*1 ps.*1).1 = (factorize_from us.*2 ps.*2).1.
Proof.
  induction ps as [|[x y] ps IH]; intros us Hc Hn1 Hn2 Hna; [reflexivity|].
  apply Forall_cons in Hna as [Hxna Hna]. simpl in Hxna.
  rewrite !fmap_cons, !factorize_from_cons. simpl.
  assert ((x, y) ∈ us ++ (x, y) :: ps) as Hxy
    by (apply elem_of_app; right; left).
  assert (corr (us ++ ps)) as Hc'.
  { eapply corr_weaken; [|exact Hc].
    intros p. rewrite !elem_of_app, elem_of_cons. tauto. }
  destruct (decide (x = LNA)) as [Hx0|Hx0].
  { (* no label on either side *)
    rewrite decide_True by (apply Hxna, Hx0).
    simpl. f_equal. apply IH; assumption. }
  rewrite decide_False by (intros Hy; apply Hx0, Hxna, Hy).
  destruct (index_of x us.*1) as [k|] eqn:Hx.
  - (* [x] was seen before, at rank [k]: so was [y] *)
    pose proof (index_of_Some _ _ _ Hx) as Hk.
    rewrite list_lookup_fmap in Hk.
    destruct (us !! k) as [[x' y']|] eqn:Hus; [|done].
    simpl in Hk. injection Hk as ->.
    assert (y' = y) as ->.
    { apply (Hc (x, y') (x, y)); [|exact Hxy|reflexivity].
      apply elem_of_app. left. eapply list_elem_of_lookup_2. exact Hus. }
    rewrite (index_of_NoDup y us.*2 k Hn2)
      by (rewrite list_lookup_fmap, Hus; reflexivity).
    simpl. f_equal. apply IH; assumption.
  - (* [x] is new: so is [y] *)
    apply index_of_None in Hx.
    assert (index_of y us.*2 = None) as ->.
    { apply index_of_None. intros Hy. apply Hx.
      apply list_elem_of_fmap in Hy as ([x' y'] & Heq & Hin). simpl in Heq.
      subst y'. apply list_elem_of_fmap. exists (x', y). split; [|exact Hin].
      simpl. symmetry.
      apply (Hc (x', y) (x, y)); [|exact Hxy|reflexivity].
      apply elem_of_app. left. exact Hin. }
    simpl. rewrite !length_fmap. f_equal.
    specialize (IH (us ++ [(x, y)])).
    rewrite !fmap_app in IH. simpl in IH. apply IH.
    + rewrite <- app_assoc. exact Hc.
    + apply NoDup_app. split; [exact Hn1|]. split; [|apply NoDup_singleton].
      intros z Hz Hz'. apply list_elem_of_singleton in Hz'. subst z. done.
    + apply NoDup_app. split; [exact Hn2|]. split; [|apply NoDup_singleton].
      intros z Hz Hz'. apply list_elem_of_singleton in Hz'. subst z.
      apply Hx.
      apply list_elem_of_fmap in Hz as ([x' y'] & Heq & Hin). simpl in Heq.
      subst y'. apply list_elem_of_fmap. exists (x', y). split; [|exact Hin].
      simpl. symmetry.
      apply (Hc (x', y) (x, y)); [|exact Hxy|reflexivity].
      apply elem_of_app. left. exact Hin.
    + exact Hna.
Qed.

(** *** The codes tell which columns go together *)

(** A column without a label has the code [-1]; the code of any other
    column is the position of its label among the uniques, which hold no
    label twice and no missing label. *)
Lemma factorize_from_decode :
  forall l u : list label,
    NoDup u -> LNA ∉ u ->
    NoDup (factorize_from u l).2
    /\ (LNA ∉ (factorize_from u l).2)
    /\ (exists ext, (factorize_from u l).2 = u ++ ext)
    /\ forall (i : nat) (x : label),
         l !! i = Some x ->
         (x = LNA /\ (factorize_from u l).1 !! i = Some (-1))
         \/ (x <> LNA
             /\ exists c : nat,
                 (factorize_from u l).1 !! i = Some (Z.of_nat c)
                 /\ (factorize_from u l).2 !! c = Some x).
Proof.
  induction l as [|x l IH]; intros u Hnd Hna.
  - simpl. split; [exact Hnd|]. split; [exact Hna|].
    split; [exists []; symmetry; apply app_nil_r|done].
  - rewrite factorize_from_cons.
    destruct (decide (x = LNA)) as [Hx0|Hx0].
    { destruct (IH u Hnd Hna) as (Hnd' & Hna' & [ext Hext] & Hdec).
      simpl. split; [exact Hnd'|]. split; [exact Hna'|].
      split; [exists ext; exact Hext|].
      intros [|i] y Hy; simpl in Hy.
      - injection Hy as <-. left. split; [exact Hx0|reflexivity].
      - apply Hdec, Hy. }
    destruct (index_of x u) as [k|] eqn:Hx; simpl.
    + destruct (IH u Hnd Hna) as (Hnd' & Hna' & [ext Hext] & Hdec).
      split; [exact Hnd'|]. split; [exact Hna'|].
      split; [exists ext; exact Hext|].
      intros [|i] y Hy; simpl in Hy.
      * injection Hy as <-. right. split; [exact Hx0|].
        exists k. split; [reflexivity|].
        rewrite Hext. apply lookup_app_l_Some, index_of_Some, Hx.
      * apply Hdec, Hy.
    + apply index_of_None in Hx.
      assert (NoDup (u ++ [x])) as Hnd1.
      { apply NoDup_app. split; [exact Hnd|]. split; [|apply NoDup_singleton].
        intros z Hz Hz'. apply list_elem_of_singleton in Hz'. subst z. done. }
      assert (LNA ∉ u ++ [x]) as Hna1.
      { rewrite elem_of_app, list_elem_of_singleton. intros [?|?]; congruence. }
      destruct (IH (u ++ [x]) Hnd1 Hna1) as (Hnd' & Hna' & [ext Hext] & Hdec).
      split; [exact Hnd'|]. split; [exact Hna'|].
      split; [exists ([x] ++ ext); rewrite Hext, <- app_assoc; reflexivity|].
      intros [|i] y Hy; simpl in Hy.
      * injection Hy as <-. right. split; [exact Hx0|].
        exists (length u). split; [reflexivity|].
        rewrite Hext, <- app_assoc. apply list_lookup_middle. reflexivity.
      * apply Hdec, Hy.
Qed.

Lemma factorize_decode (l : list label) :
  NoDup (factorize l).2
  /\ (LNA ∉ (factorize l).2)
  /\ forall (i : nat) (x : label),
       l !! i = Some x ->
       (x = LNA /\ (factorize l).1 !! i = Some (-1))
       \/ (x <> LNA
           /\ exists c : nat,
               (factorize l).1 !! i = Some (Z.of_nat c)
               /\ (factorize l).2 !! c = Some x).
Proof.
  destruct (factorize_from_decode l [] (NoDup_nil_2) (not_elem_of_nil _))
    as (Hnd & Hna & _ & Hdec).
  auto.
Qed.

(** The code of a column is [-1] exactly when the column has no label. *)
Lemma factorize_codes_missing (l : list label) (i : nat) (a : label) (c : Z) :
  l !! i = Some a -> (factorize l).1 !! i = Some c -> (a = LNA <-> c = -1).
Proof.
  intros Ha Hc. destruct (factorize_decode l) as (_ & _ & Hdec).
  destruct (Hdec i a Ha) as [[Hna Hm]|(Hna & k & Hk & _)].
  - rewrite Hm in Hc. injection Hc as <-. tauto.
  - rewrite Hk in Hc. injection Hc as <-. split; [done|lia].
Qed.

(** Two labelled columns have the same code exactly when they have the
    same label. *)
Lemma factorize_codes_same (l : list label) (i k : nat) (ci ck : Z)
      (a a' : label) :
  l !! i = Some a -> l !! k = Some a' ->
  (factorize l).1 !! i = Some ci ->
  (factorize l).1 !! k = Some ck ->
  (a = a' <-> ci = ck).
Proof.
  intros Ha Ha' Hi Hk.
  destruct (factorize_decode l) as (Hnd & _ & Hdec).
  destruct (Hdec i a Ha) as [[Hna Hm]|(Hna & c & Hc & Hu)];
    destruct (Hdec k a' Ha') as [[Hna' Hm']|(Hna' & c' & Hc' & Hu')];
    rewrite ?Hm, ?Hc in Hi; rewrite ?Hm', ?Hc' in Hk;
    injection Hi as <-; injection Hk as <-.
  - split; [reflexivity|congruence].
  - split; [congruence|lia].
  - split; [congruence|lia].
  - split.
    + intros <-. f_equal. eapply NoDup_lookup; eassumption.
    + intros Heq. apply Nat2Z.inj in Heq. subst c'. congruence.
Qed.

Lemma factorize_codes_lookup (l : list label) (i : nat) (a : label) :
  l !! i = Some a -> exists c : Z, (factorize l).1 !! i = Some c.
Proof.
  intros Ha. destruct (factorize_decode l) as (_ & _ & Hdec).
  destruct (Hdec i a Ha) as [[_ Hm]|(_ & c & Hc & _)]; eauto.
Qed.

(** The codes of a mapper in which no label is missing are not negative;
    a missing label brings the sentinel [-1] of [get_group_lens_nb] among
    the codes. *)
Lemma factorize_codes_nonneg (l : list label) :
  LNA ∉ l -> Forall (Z.le 0) (factorize l).1.
Proof.
  unfold factorize. generalize (@nil label).
  induction l as [|x l IH]; intros u Hna; [constructor|].
  apply not_elem_of_cons in Hna as [Hx Hna].
  rewrite factorize_from_cons, decide_False by congruence.
  destruct (index_of x u); simpl; constructor; try lia; apply IH, Hna.
Qed.

(** Two mappers of the same length have the same codes exactly when they
    group the columns alike. *)
Lemma factorize_codes_eq_iff (l1 l2 : list label) :
  length l1 = length l2 ->
  (factorize l1).1 = (factorize l2).1 <-> same_grouping l1 l2.
Proof.
  intros Hlen. split.
  - intros Heq.
    assert (same_missing l1 l2) as Hmiss.
    { intros i a b Ha Hb.
      destruct (factorize_codes_lookup l1 i a Ha) as (c & Hc).
      rewrite (factorize_codes_missing l1 i a c Ha Hc).
      rewrite Heq in Hc.
      rewrite (factorize_codes_missing l2 i b c Hb Hc). reflexivity. }
    split; [|exact Hmiss].
    intros i k a a' b b' Ha Ha' Hb Hb'.
    destruct (factorize_codes_lookup l1 i a Ha) as (ci & Hci).
    destruct (factorize_codes_lookup l1 k a' Ha') as (ck & Hck).
    rewrite (factorize_codes_same l1 i k ci ck a a' Ha Ha' Hci Hck).
    rewrite Heq in Hci, Hck.
    rewrite (factorize_codes_same l2 i k ci ck b b' Hb Hb' Hci Hck).
    reflexivity.
  - intros [Hsame Hmiss].
    pose proof (codes_lockstep (zip l1 l2) []) as Hl. simpl in Hl.
    rewrite fst_zip, snd_zip in Hl by lia.
    apply Hl; [|constructor..|].
    + intros [a b] [a' b'] Hp Hq. simpl.
      apply elem_of_lookup_zip_with in Hp as (i & x & y & Heq & Hx & Hy).
      apply elem_of_lookup_zip_with in Hq as (k & x' & y' & Heq' & Hx' & Hy').
      simplify_eq. eapply Hsame; eassumption.
    + apply Forall_forall. intros [a b] Hp. simpl.
      apply elem_of_lookup_zip_with in Hp as (i & x & y & Heq & Hx & Hy).
      simplify_eq. eapply Hmiss; eassumption.
Qed.

(** ** [check_group_by] *)

Lemma group_by_to_index_Index (index : list label) (gb : group_by_like)
      (new : list label) :
  group_by_to_index index gb = Ok (GBIndex new) ->
  length new = length index
  /\ group_by_to_index index (GBIndex new) = Ok (GBIndex new)
  /\ (gb = GBBool true \/ gb = GBIndex new).
Proof.
  unfold group_by_to_index.
  destruct gb as [|[|]|labels]; try discriminate;
    (case_decide as Hlen; [discriminate|]); intros [= <-];
    (split; [lia|]); (split; [|auto]);
    rewrite decide_False by lia; reflexivity.
Qed.

Lemma Grouper_init_inv (index : list label) (gb : group_by_like)
      (ae ad am : bool) (self : Grouper) :
  Grouper_init index gb ae ad am = Ok self ->
  Grouping.index self = index
  /\ allow_enable self = ae /\ allow_disable self = ad
  /\ allow_modify self = am
  /\ forall cur, group_by self = Some cur -> length cur = length index.
Proof.
  unfold Grouper_init.
  destruct gb as [|[|]|labels];
    try (intros [= <-]; simpl; repeat split; discriminate).
  - destruct (group_by_to_index index (GBBool true)) as [r|] eqn:Hr;
      [|discriminate].
    destruct r as [| |new]; intros [= <-]; simpl;
      repeat split; try discriminate.
    intros cur [= <-]. apply (group_by_to_index_Index _ _ _ Hr).
  - destruct (group_by_to_index index (GBIndex labels)) as [r|] eqn:Hr;
      [|discriminate].
    destruct r as [| |new]; intros [= <-]; simpl;
      repeat split; try discriminate.
    intros cur [= <-]. apply (group_by_to_index_Index _ _ _ Hr).
Qed.

(** On a grouped [Grouper] that forbids modification, a mapper that
    resolves to an index is checked by comparing the codes. *)
Lemma check_group_by_codes (self : Grouper) (gb : group_by_like)
      (cur new : list label) :
  group_by self = Some cur ->
  length cur = length (index self) ->
  allow_modify self = false ->
  group_by_to_index (index self) gb = Ok (GBIndex new) ->
  check_group_by self gb None None None =
  if bool_decide ((factorize new).1 = (factorize cur).1) then Ok tt
  else Raise (ValueError "Modifying groups is not allowed").
Proof.
  intros Hcur Hlen Hmod Hgb.
  destruct (group_by_to_index_Index _ _ _ Hgb) as (Hlen' & Hnew & Hshape).
  assert (group_by_to_index (index self) (GBIndex cur) = Ok (GBIndex cur))
    as Hcur'.
  { unfold group_by_to_index. rewrite decide_False by (rewrite Hlen; auto).
    reflexivity. }
  unfold check_group_by, is_grouping_enabled, is_grouping_disabled,
    is_grouping_modified, get_groups_and_index, is_grouped.
  rewrite Hcur, Hmod.
  destruct Hshape as [-> | ->]; cbn -[group_by_to_index factorize];
    rewrite Hgb; cbn -[group_by_to_index factorize];
    (case_bool_decide as Heq; cbn -[group_by_to_index factorize];
     [subst new; rewrite bool_decide_true by reflexivity; reflexivity|]);
    rewrite ?Hnew, Hcur'; cbn -[group_by_to_index factorize];
    case_bool_decide; reflexivity.
Qed.

(** ** What [allow_modify=False] forbids *)

(** C9, as stated, fails. A [Grouper] built with [allow_modify=False] and
    [allow_disable=False] rejects a [group_by] that disables grouping; and
    one built without grouping (and the default [allow_enable=True])
    accepts [group_by=True], which puts all columns in one group, a
    partition other than the current one. *)
Lemma C9_counterexample :
  (Grouper_init cols3 (GBIndex by_xy) true false false = Ok (grouped3 false)
   /\ check_group_by (grouped3 false) (GBBool false) None None None
      = Raise (ValueError "Disabling grouping is not allowed"))
  /\ (Grouper_init cols3 GBNone true true false = Ok ungrouped3
      /\ check_group_by ungrouped3 (GBBool true) None None None = Ok tt
      /\ ~ same_partition (replicate 3 (LStr "group"))
                          (current_mapper ungrouped3)).
Proof.
  repeat split; try reflexivity.
  intros Hsame.
  assert (LStr "a" = LStr "b") as Hab; [|discriminate].
  apply (Hsame 0%nat 1%nat (LStr "group") (LStr "group") (LStr "a") (LStr "b"));
    reflexivity.
Qed.

(** C9, amended. For every [Grouper] constructed with
    [allow_modify=False]:
    - when it is grouped and the proposed [group_by] is a mapper too (an
      index as long as the columns, or [True]), [check_group_by] raises
      exactly when the proposed mapper groups the columns differently
      from the current one, that is, puts other columns together or
      leaves other columns without a label (a column whose label is
      missing is in no group: [pd.factorize] codes it [-1]); it accepts
      the mapper otherwise, a relabelling of the groups included;
    - a [group_by] that disables grouping is accepted exactly when
      [allow_disable] holds;
    - on a [Grouper] without grouping, a [group_by] that enables grouping
      is accepted exactly when [allow_enable] holds, whatever partition it
      induces;
    - [group_by=None] is always accepted. *)
Theorem C9_check_group_by :
  forall (index : list label) (gb0 : group_by_like) (ae ad : bool)
         (self : Grouper),
    Grouper_init index gb0 ae ad false = Ok self ->
    (forall (gb : group_by_like) (cur new : list label),
        group_by self = Some cur ->
        group_by_to_index index gb = Ok (GBIndex new) ->
        (check_group_by self gb None None None
         = Raise (ValueError "Modifying groups is not allowed")
         <-> ~ same_grouping new cur)
        /\ (check_group_by self gb None None None = Ok tt
            <-> same_grouping new cur))
    /\ (is_Some (group_by self) ->
        check_group_by self (GBBool false) None None None
        = if ad then Ok tt
          else Raise (ValueError "Disabling grouping is not allowed"))
    /\ (group_by self = None ->
        forall gb : group_by_like,
          is_grouped self gb = true ->
          check_group_by self gb None None None
          = if ae then Ok tt
            else Raise (ValueError "Enabling grouping is not allowed"))
    /\ check_group_by self GBNone None None None = Ok tt.
Proof.
  intros index gb0 ae ad self Hinit.
  destruct (Grouper_init_inv _ _ _ _ _ _ Hinit)
    as (Hidx & Hae & Had & Ham & Hlen).
  split; [|split; [|split]].
  - intros gb cur new Hcur Hgb.
    specialize (Hlen cur Hcur).
    pose proof (group_by_to_index_Index _ _ _ Hgb) as (Hlen' & _ & _).
    rewrite <- Hidx in Hgb, Hlen.
    rewrite (check_group_by_codes self gb cur new Hcur Hlen Ham Hgb).
    rewrite <- (factorize_codes_eq_iff new cur) by congruence.
    case_bool_decide as Heq; split; split; intros H;
      try done; try discriminate.
  - intros [cur Hcur]. unfold check_group_by, is_grouping_enabled,
      is_grouping_disabled. rewrite Hcur, Had. simpl.
    destruct ad; reflexivity.
  - intros Hnone gb Hg. unfold check_group_by, is_grouping_enabled.
    rewrite Hnone, Hg, Hae. simpl. destruct ae; reflexivity.
  - unfold check_group_by, is_grouping_enabled, is_grouping_disabled,
      is_grouping_modified. simpl.
    destruct (group_by self); reflexivity.
Qed.

Lemma C9_check_group_by_witness :
  Grouper_init cols3 (GBIndex by_xy) true true false = Ok (grouped3 true)
  /\ check_group_by (grouped3 true) (GBIndex by_pq) None None None = Ok tt
  /\ check_group_by (grouped3 true) (GBIndex by_na) None None None
     = Raise (ValueError "Modifying groups is not allowed").
Proof.
  split; [reflexivity|]. split.
  - apply (proj1 (C9_check_group_by cols3 (GBIndex by_xy) true true
                    (grouped3 true) eq_refl)
             (GBIndex by_pq) by_xy by_pq eq_refl eq_refl).
    apply factorize_codes_eq_iff; reflexivity.
  - apply (proj1 (C9_check_group_by cols3 (GBIndex by_xy) true true
                    (grouped3 true) eq_refl)
             (GBIndex by_na) by_xy by_na eq_refl eq_refl).
    intros H. apply factorize_codes_eq_iff in H; [discriminate H|reflexivity].
Defined.

End GrouperFacts.

(* ===================================================================== *)
(** * Properties of the derived series *)
(* ===================================================================== *)

Module SeriesFacts.

Import Py Series.
#[local] Open Scope float_scope.

(** A float that compares equal to zero is one of the two zeros. *)
Lemma eqb_zero_inv (a : float) : (a =? 0) = true -> a = 0 \/ a = -0.
Proof.
  rewrite FloatAxioms.eqb_spec.
  change (Prim2SF 0) with (S754_zero false).
  rewrite <- (SF2Prim_Prim2SF a) at 2 3.
  destruct (Prim2SF a) as [s|s| |s m e]; try destruct s;
    unfold SFeqb, SFcompare; simpl; try discriminate; intros _.
  - right. reflexivity.
  - left. reflexivity.
Qed.

Lemma mul_zero_zero (a : float) : (a =? 0) = true -> (0 * a =? 0) = true.
Proof. intros [-> | ->]%eqb_zero_inv; reflexivity. Qed.

Lemma cell_zip_with (f : float -> float -> float) (x y : grid) (i c : nat) :
  cell (zip_with (zip_with f) x y) i c =
  u ← cell x i c; v ← cell y i c; Some (f u v).
Proof.
  unfold cell. rewrite lookup_zip_with.
  destruct (x !! i) as [rx|]; simpl; [|reflexivity].
  destruct (y !! i) as [ry|]; simpl.
  - rewrite lookup_zip_with. reflexivity.
  - destruct (rx !! c); reflexivity.
Qed.

(** C4. For every close grid and assets grid of one shape, the asset value
    at [(i, c)] is [close[i, c] * assets[i, c]] with the close price
    replaced by [0.] first wherever [assets[i, c] == 0]; there the asset
    value is zero whatever the close price is, NaN included. *)
Theorem C4_get_asset_value :
  forall (sum_grouped_nb : grid -> list Z -> grid) (close assets : grid)
         (i c : nat) (x a : float),
    same_shape close assets ->
    cell close i c = Some x ->
    cell assets i c = Some a ->
    exists av : grid,
      get_asset_value sum_grouped_nb close assets None = Ok av
      /\ cell av i c = Some ((if a =? 0 then 0 else x) * a)
      /\ ((a =? 0) = true ->
          exists v : float,
            cell av i c = Some v /\ (v =? 0) = true /\ v = 0 * a).
Proof.
  intros sum_grouped_nb close assets i c x a Hshape Hx Ha.
  unfold get_asset_value, set_where_zero.
  rewrite decide_True by exact Hshape. simpl.
  eexists. split; [reflexivity|].
  assert (cell (asset_value_nb
                  (zip_with (zip_with (fun c a : float =>
                                         if a =? 0 then 0 else c))
                            close assets) assets) i c
          = Some ((if a =? 0 then 0 else x) * a)) as Hcell.
  { unfold asset_value_nb. rewrite !cell_zip_with, Hx, Ha. reflexivity. }
  split; [exact Hcell|].
  intros Hz. exists (0 * a). rewrite Hcell, Hz.
  split; [reflexivity|]. split; [apply mul_zero_zero, Hz|reflexivity].
Qed.

Lemma C4_get_asset_value_witness :
  exists av : grid,
    get_asset_value (fun g _ => g) [[nan; 2]] [[0; 3]] None = Ok av
    /\ cell av 0 0 = Some ((if 0 =? 0 then 0 else nan) * 0)
    /\ ((0 =? 0) = true ->
        exists v : float,
          cell av 0 0 = Some v /\ (v =? 0) = true /\ v = 0 * 0).
Proof.
  apply (C4_get_asset_value (fun g _ => g) [[nan; 2]] [[0; 3]] 0 0 nan 0).
  - repeat constructor.
  - reflexivity.
  - reflexivity.
Defined.

End SeriesFacts.

(* ===================================================================== *)
(** * Properties of the drivers *)
(* ===================================================================== *)

Module DriverFacts.

Import Py Drivers Demo.

Section Facts.

Variables (rng_state rest sim_args sim_out : Type).
Variable portfolio_cfg : string -> pyval.
Variable map_enum_fields : pyval -> string -> Py.result pyval.
Variable set_seed : pyval -> Py.result rng_state.
Variable prepare :
  driver -> resolved rest -> rng_state -> Py.result sim_args * rng_state.
Variable simulate :
  driver -> sim_args -> rng_state -> Py.result sim_out * rng_state.

Abbreviation resolve_args := (resolve_args rng_state rest portfolio_cfg
                                           map_enum_fields set_seed).
Abbreviation run := (run rng_state rest sim_args sim_out portfolio_cfg
                         map_enum_fields set_seed prepare simulate).

(** ** The preparation and the world *)

(** A step that leaves the world alone, followed by the rest. *)
Lemma bindM_pure {A B} (r : Py.result A) (k : A -> M rng_state B)
      (w : world rng_state) :
  bindM rng_state (pure rng_state r) k w =
  match r with
  | Ok a => k a w
  | Raise e => (Raise e, w)
  end.
Proof. unfold bindM, pure. destruct r; reflexivity. Qed.

(** The preparation unfolded: its result does not depend on the world,
    and a seed overwrites the state of the generators. *)
Lemma resolve_args_unfold (d : driver) (a : args rest)
      (w : world rng_state) :
  resolve_args d a w =
  match resolve_head rest portfolio_cfg map_enum_fields d a with
  | Raise e => (Raise e, w)
  | Ok r =>
      let seed := or_cfg portfolio_cfg (a_seed a) "seed" in
      if is_none seed then (resolve_tail rest portfolio_cfg r, w)
      else match set_seed seed with
           | Ok g => (resolve_tail rest portfolio_cfg r,
                      {| rng := g; sim_runs := sim_runs w |})
           | Raise e => (Raise e, w)
           end
  end.
Proof.
  unfold Drivers.resolve_args. rewrite bindM_pure.
  destruct (resolve_head _ _ _ _ _) as [r|e]; [|reflexivity].
  simpl. unfold bindM, ret, seed_world, pure.
  destruct (is_none _); [reflexivity|].
  destruct (set_seed _); reflexivity.
Qed.

(** The preparation runs no kernel. *)
Lemma resolve_args_sim_runs (d : driver) (a : args rest)
      (w : world rng_state) :
  sim_runs (resolve_args d a w).2 = sim_runs w.
Proof.
  rewrite resolve_args_unfold.
  destruct (resolve_head _ _ _ _ _); [|reflexivity]. simpl.
  destruct (is_none _); [reflexivity|].
  destruct (set_seed _); reflexivity.
Qed.

(** A driver whose preparation raises runs no kernel and raises. *)
Lemma run_resolve_raises (d : driver) (a : args rest)
      (w : world rng_state) (e : exn) :
  (resolve_args d a w).1 = Raise e ->
  (run d a w).1 = Raise e /\ sim_runs (run d a w).2 = sim_runs w.
Proof.
  intros Hr. pose proof (resolve_args_sim_runs d a w) as Hs.
  unfold Drivers.run, bindM.
  destruct (resolve_args d a w) as [[r|e'] w']; simpl in *; [discriminate|].
  injection Hr as ->. split; [reflexivity|exact Hs].
Qed.

(** What a preparation that succeeds has gone through. *)
Lemma resolve_head_Ok (d : driver) (a : args rest) (r : resolved rest) :
  resolve_head rest portfolio_cfg map_enum_fields d a = Ok r ->
  r_cash_sharing r = or_cfg portfolio_cfg (a_cash_sharing a) "cash_sharing"
  /\ r_wrapper_kwargs r = default ∅ (a_wrapper_kwargs a)
  /\ match d with
     | FromOrderFunc =>
         exists c : pyval,
           check_call_seq portfolio_cfg map_enum_fields (r_flexible r)
                          (a_call_seq a) = Ok c
           /\ truth (or_cfg portfolio_cfg (a_flexible a) "flexible")
              = Ok (r_flexible r)
           /\ r_call_seq r = c /\ r_auto_call_seq r = false
     | _ =>
         resolve_call_seq portfolio_cfg map_enum_fields (a_call_seq a)
         = Ok (r_call_seq r, r_auto_call_seq r)
     end.
Proof.
  unfold resolve_head. intros H.
  destruct (match d with
            | FromSignals =>
                if a_signal_arrays a && a_signal_func a
                then Raise (ValueError signals_msg) else Ok tt
            | _ => Ok tt
            end); [|discriminate].
  simpl in H.
  destruct (map_enums _ _ _ _) as [enums|]; [|discriminate]. simpl in H.
  destruct (resolve_init_cash _ _ _) as [ic|]; [|discriminate]. simpl in H.
  destruct (truth (or_cfg _ (a_cash_sharing a) _)) as [shared|];
    [|discriminate].
  simpl in H.
  destruct d.
  - destruct (resolve_call_seq _ _ _) as [[c b]|]; [|discriminate].
    injection H as <-. simpl. auto.
  - destruct (resolve_call_seq _ _ _) as [[c b]|]; [|discriminate].
    injection H as <-. simpl. auto.
  - destruct (truth (or_cfg _ (a_flexible a) _)) as [fl|]; [|discriminate].
    simpl in H.
    destruct (check_call_seq _ _ fl _) as [c|] eqn:Hc; [|discriminate].
    injection H as <-. simpl. repeat split. exists c. auto.
Qed.

Lemma resolve_tail_Ok (r r' : resolved rest) :
  resolve_tail rest portfolio_cfg r = Ok r' ->
  r_call_seq r' = r_call_seq r /\ r_auto_call_seq r' = r_auto_call_seq r.
Proof.
  unfold resolve_tail.
  destruct (check_group_select _ _); [|discriminate].
  intros [= <-]. split; reflexivity.
Qed.

Lemma resolve_args_Ok (d : driver) (a : args rest) (w : world rng_state)
      (r' : resolved rest) :
  (resolve_args d a w).1 = Ok r' ->
  exists r : resolved rest,
    resolve_head rest portfolio_cfg map_enum_fields d a = Ok r
    /\ resolve_tail rest portfolio_cfg r = Ok r'.
Proof.
  rewrite resolve_args_unfold.
  destruct (resolve_head _ _ _ _ _) as [r|]; [|discriminate]. simpl.
  destruct (is_none _); [eauto|].
  destruct (set_seed _); [eauto|discriminate].
Qed.

(** ** Disabled [group_select] under cash sharing *)

Lemma check_group_select_raises (kw : gmap string pyval) (v cs : pyval) :
  kw !! "group_select" = Some v -> truth v = Ok false -> truth cs = Ok true ->
  check_group_select kw cs = Raise (ValueError group_select_msg).
Proof.
  intros Hkw Hv Hcs. unfold check_group_select.
  rewrite Hkw. simpl. rewrite Hv. simpl. rewrite Hcs. reflexivity.
Qed.

(** C7. A call of a driver ([from_orders] and [from_signals], and
    [from_order_func] as well) with [cash_sharing] true and [group_select]
    disabled in [wrapper_kwargs] raises before any kernel runs, so no
    record is produced; the error is the [ValueError] of the
    [group_select] check whenever the arguments checked before it (the
    enumerated ones, [init_cash], the call sequence, the seed) are
    accepted. *)
Theorem C7_group_select_disabled :
  forall (d : driver) (a : args rest) (w : world rng_state)
         (kw : gmap string pyval) (v : pyval),
    a_wrapper_kwargs a = Some kw ->
    kw !! "group_select" = Some v ->
    truth v = Ok false ->
    truth (or_cfg portfolio_cfg (a_cash_sharing a) "cash_sharing") = Ok true ->
    (exists e : exn,
        (run d a w).1 = Raise e /\ sim_runs (run d a w).2 = sim_runs w)
    /\ (forall r : resolved rest,
           resolve_head rest portfolio_cfg map_enum_fields d a = Ok r ->
           (is_none (or_cfg portfolio_cfg (a_seed a) "seed") = true
            \/ exists g, set_seed (or_cfg portfolio_cfg (a_seed a) "seed")
                         = Ok g) ->
           (run d a w).1 = Raise (ValueError group_select_msg)).
Proof.
  intros d a w kw v Hkw Hv Hfalse Hcs.
  assert (forall r : resolved rest,
             resolve_head rest portfolio_cfg map_enum_fields d a = Ok r ->
             resolve_tail rest portfolio_cfg r
             = Raise (ValueError group_select_msg)) as Htail.
  { intros r Hr. destruct (resolve_head_Ok d a r Hr) as (Hc & Hk & _).
    unfold resolve_tail. rewrite Hc, Hk, Hkw. simpl.
    rewrite (check_group_select_raises kw v _ Hv Hfalse Hcs). reflexivity. }
  assert (exists e : exn, (resolve_args d a w).1 = Raise e) as [e He].
  { rewrite resolve_args_unfold.
    destruct (resolve_head _ _ _ _ _) as [r|e] eqn:Hr; [|eauto]. simpl.
    rewrite (Htail r eq_refl).
    destruct (is_none _); [eauto|]. destruct (set_seed _); eauto. }
  split.
  - exists e. apply run_resolve_raises, He.
  - intros r Hr Hseed. apply run_resolve_raises.
    rewrite resolve_args_unfold, Hr. simpl. rewrite (Htail r Hr).
    destruct Hseed as [-> | [g Hg]]; [reflexivity|].
    rewrite Hg. destruct (is_none _); reflexivity.
Qed.

(** ** [CallSeqType.Auto] *)


(** ** Replay *)

(** With an integer seed nothing a driver does depends on the state of
    the generators before the call: the seed is set before anything
    draws, and the preparation and the kernel draw from the state it
    sets. *)
Lemma run_seeded (d : driver) (a : args rest) (s : Z) (w : world rng_state) :
  a_seed a = PInt s ->
  (run d a w).1 =
  match resolve_head rest portfolio_cfg map_enum_fields d a with
  | Raise e => Raise e
  | Ok r =>
      match set_seed (PInt s) with
      | Raise e => Raise e
      | Ok g =>
          match resolve_tail rest portfolio_cfg r with
          | Raise e => Raise e
          | Ok r' =>
              match prepare d r' g with
              | (Raise e, _) => Raise e
              | (Ok sa, g') =>
                  match (simulate d sa g').1 with
                  | Raise e => Raise e
                  | Ok out => Ok {| pf_args := sa; pf_out := out |}
                  end
              end
          end
      end
  end.
Proof.
  intros Hseed.
  unfold Drivers.run, bindM.
  rewrite !resolve_args_unfold.
  destruct (resolve_head _ _ _ _ _) as [r|e]; [|reflexivity]. simpl.
  unfold or_cfg. rewrite Hseed. simpl.
  destruct (set_seed (PInt s)) as [g|e]; [|reflexivity].
  destruct (resolve_tail _ _ r) as [r'|e]; [|reflexivity].
  unfold draw, run_kernel, ret. simpl.
  destruct (prepare d r' g) as [[sa|e] g']; [|reflexivity].
  cbn [rng].
  destruct (simulate d sa g') as [[out|e] g'']; reflexivity.
Qed.

Lemma run_seeded_any_state (d : driver) (a : args rest) (s : Z)
      (w1 w2 : world rng_state) :
  a_seed a = PInt s ->
  (run d a w1).1 = (run d a w2).1.
Proof.
  intros Hseed. rewrite !(run_seeded d a s _ Hseed). reflexivity.
Qed.

End Facts.

(** ** The drivers run on scenario S1 *)

(** [from_orders] on the scenario returns the four buys. *)
Example demo_from_orders :
  (demo_run FromOrders (demo_args FromOrders PNone PNone PNone None) world0).1
  = Ok {| pf_args := Kernel.s1_args Kernel.Both true;
          pf_out := Kernel.s1_records |}.
Proof. vm_compute. reflexivity. Qed.

(** [from_signals] with cash sharing and [group_select] disabled. *)
Lemma C7_group_select_disabled_witness :
  (a_wrapper_kwargs
     (demo_args FromSignals PNone PNone (PBool true) (Some no_group_select))
   = Some no_group_select
   /\ no_group_select !! "group_select" = Some (PBool false)
   /\ truth (PBool false) = Ok false
   /\ truth (or_cfg demo_cfg (PBool true) "cash_sharing") = Ok true)
  /\ exists e : exn,
      (demo_run FromSignals
                (demo_args FromSignals PNone PNone (PBool true)
                           (Some no_group_select)) world1).1 = Raise e
      /\ sim_runs
           (demo_run FromSignals
                     (demo_args FromSignals PNone PNone (PBool true)
                                (Some no_group_select)) world1).2
         = sim_runs world1.
Proof.
  assert (no_group_select !! "group_select" = Some (PBool false)) as Hkw
    by apply lookup_singleton_eq.
  split; [repeat split; try reflexivity; exact Hkw|].
  exact (proj1 (C7_group_select_disabled Z Kernel.SimArgs Kernel.SimArgs
                  (list Kernel.order_record) demo_cfg demo_map_enum_fields
                  demo_set_seed demo_prepare demo_simulate FromSignals
                  (demo_args FromSignals PNone PNone (PBool true)
                             (Some no_group_select))
                  world1 no_group_select (PBool false)
                  eq_refl Hkw eq_refl eq_refl)).
Defined.


End DriverFacts.

(* ===================================================================== *)
(** * Scenario S1 on the from-orders kernel *)
(* ===================================================================== *)

Module KernelFacts.

Import Py Kernel Series.
#[local] Open Scope float_scope.

Section S1.

Variable resolve_size : SizeType -> ExecState -> float -> float -> float.
Variable restrict_direction : Direction -> float -> float -> float.
Variable truncate_granularity : float -> float -> float.
Variable rng_state : Type.
Variable next_uniform : rng_state -> float * rng_state.
Variable sort_call_seq :
  SimArgs -> SimState rng_state -> nat -> nat -> list nat -> list nat.

(** The draws are not negative. *)
Hypothesis draws_nonneg : forall g, ((next_uniform g).1 <? 0) = false.

Abbreviation simulate :=
  (simulate_from_orders_nb resolve_size restrict_direction
                           truncate_granularity rng_state next_uniform
                           sort_call_seq).

(** One draw of the generator, then the computation up to the next one. *)
Ltac draw :=
  match goal with
  | |- context [next_uniform ?g] =>
      let H := fresh "Hu" in
      pose proof (draws_nonneg g) as H;
      destruct (next_uniform g) as [? ?]; simpl in H;
      vm_compute; rewrite ?H
  end.

Lemma s1_run (dir : Direction) (partial lg : bool) (g0 : rng_state) :
  dir <> ShortOnly ->
  exists st : SimState rng_state,
    simulate (s1_args_log dir partial lg) g0 = Done st
    /\ records st = s1_records
    /\ logs st = (if lg then s1_logs dir partial else [])
    /\ positions st = [40]
    /\ wallets st = [0].
Proof.
  intros Hdir.
  destruct dir; [| congruence |]; destruct partial; destruct lg;
    vm_compute; do 5 draw; vm_compute;
    eexists; repeat split; reflexivity.
Qed.

(** C1, amended. On a single column with [close=[1, 2, 3, 4, 5]],
    [size=10], [size_type=Amount] and [init_cash=100] (no fees, no
    slippage, no size bounds, no random rejection; direction long-only or
    both; with or without [allow_partial]; with or without [log]) the
    from-orders kernel attempts an order of size 10 at every bar, the
    scalar size being the element of every bar. With [log] set the five
    attempts are logged: those of bars 0, 1, 2 and 3 are filled at the
    prices 1, 2, 3 and 4 and take the position from 0 to 40 and the cash
    from 100 to 0 (after the first, assets are 10 and cash is 90); that
    of bar 4 finds no cash and is rejected, leaving position and cash as
    they are. With or without [log] the run produces four order records,
    the buys of size 10 at bars 0, 1, 2 and 3, and the derived series end
    with assets 40, cash 0 and value 200. *)
Theorem C1_buy_at_every_bar :
  forall (dir : Direction) (partial lg : bool) (g0 : rng_state),
    dir <> ShortOnly ->
    exists st : SimState rng_state,
      simulate (s1_args_log dir partial lg) g0 = Done st
      /\ records st = s1_records
      /\ logs st = (if lg then s1_logs dir partial else [])
      /\ s1_assets (records st) = [[10]; [20]; [30]; [40]; [40]]
      /\ s1_cash (records st) = [[90]; [70]; [40]; [0]; [0]]
      /\ s1_value (records st) = Ok [[100]; [110]; [130]; [160]; [200]].
Proof.
  intros dir partial lg g0 Hdir.
  destruct (s1_run dir partial lg g0 Hdir)
    as (st & Hrun & Hrecs & Hlogs & _).
  exists st. rewrite Hrecs.
  repeat split; [exact Hrun|exact Hlogs|..]; reflexivity.
Qed.

End S1.

(** C1, as stated, fails: the run does not produce exactly one order
    record but four, and at the last bar the assets are 40, not 10, the
    cash is 0, not 90, and the value is 200, not 140. *)
Lemma C1_counterexample :
  exists st : SimState unit,
    s1_concrete = Done st
    /\ length (records st) = 4%nat
    /\ length (records st) <> 1%nat
    /\ cell (s1_assets (records st)) 4 0 = Some 40
    /\ cell (s1_cash (records st)) 4 0 = Some 0
    /\ (exists v : grid,
           s1_value (records st) = Ok v /\ cell v 4 0 = Some 200)
    /\ 40 <> 10 /\ 0 <> 90 /\ 200 <> 140.
Proof.
  eexists. split; [vm_compute; reflexivity|]. simpl records.
  split; [reflexivity|]. split; [simpl; lia|].
  split; [reflexivity|]. split; [reflexivity|].
  split; [eexists; split; reflexivity|].
  repeat split; apply MathFacts.float_neq_by_eqb; reflexivity.
Qed.

Lemma C1_buy_at_every_bar_witness :
  Both <> ShortOnly
  /\ exists st : SimState unit,
      simulate_from_orders_nb (fun _ _ _ _ => nan) (fun _ _ _ => nan)
                              (fun _ _ => nan) unit (fun _ => (0, tt))
                              (fun _ _ _ _ calls => calls)
                              (s1_args_log Both true true) tt = Done st
      /\ records st = s1_records
      /\ logs st = s1_logs Both true
      /\ s1_assets (records st) = [[10]; [20]; [30]; [40]; [40]]
      /\ s1_cash (records st) = [[90]; [70]; [40]; [0]; [0]]
      /\ s1_value (records st) = Ok [[100]; [110]; [130]; [160]; [200]].
Proof.
  assert (Both <> ShortOnly) as Hdir by discriminate.
  split; [exact Hdir|].
  exact (C1_buy_at_every_bar (fun _ _ _ _ => nan) (fun _ _ _ => nan)
           (fun _ _ => nan) unit (fun _ => (0, tt))
           (fun _ _ _ _ calls => calls) (fun _ => eq_refl)
           Both true true tt Hdir).
Defined.

End KernelFacts.

(* ===================================================================== *)
(** * More on [get_group_lens_nb] *)
(* ===================================================================== *)

Module GroupLensMore.

Import Py Grouping GroupLensFacts.

(** ** When it raises *)

Lemma descent_or_not (l : list Z) : non_decreasing l \/ has_descent l.
Proof.
  induction l as [|a l IH]; [left; intros i u v Hu; destruct i; discriminate|].
  destruct l as [|x l]; [left; apply non_decreasing_single|].
  destruct IH as [IH|(i & u & v & Hu & Hv & Hlt)].
  - destruct (Z_lt_le_dec x a) as [Hlt|Hle].
    + right. exists 0%nat, a, x. auto.
    + left. apply non_decreasing_cons_2; assumption.
  - right. exists (S i), u, v. auto.
Qed.

(** The scan of codes in order: it returns, every length it adds is
    positive, and the lengths add up to the codes read. *)
Lemma scan_sorted :
  forall (l : list Z) (last glen : Z) (out : list Z),
    l <> [] -> non_decreasing (last :: l) ->
    0 <= glen -> (last <> -1 -> 0 < glen) ->
    exists lens : list Z,
      scan last glen out l = Ok (out ++ lens)
      /\ Forall (Z.lt 0) lens
      /\ sum_list_Z lens = glen + Z.of_nat (length l)
      /\ (length lens <= S (length l))%nat.
Proof.
  induction l as [|x l IH]; intros last glen out Hne Hs Hg Hpos; [done|].
  apply non_decreasing_cons in Hs as [Hle Hs].
  rewrite scan_cons. cbn zeta.
  rewrite (proj2 (Z.ltb_ge x last)) by lia.
  set (closes := negb (x =? last) && negb (last =? -1)).
  assert (closes = true -> 0 < glen) as Hcl.
  { unfold closes. intros [_ H]%andb_true_iff.
    apply negb_true_iff, Z.eqb_neq in H. auto. }
  destruct l as [|y l].
  - destruct closes.
    + exists [glen; 0 + 1]. rewrite <- app_assoc. simpl.
      repeat split; try lia. repeat constructor; auto; lia.
    + exists [glen + 1]. simpl. repeat split; try lia.
      repeat constructor. lia.
  - destruct closes.
    + destruct (IH x (0 + 1) (out ++ [glen])) as (lens & -> & Hall & Hsum & Hlen);
        [done|exact Hs|lia|lia|].
      exists (glen :: lens). rewrite <- app_assoc. simpl in *.
      repeat split; try lia. constructor; auto.
    + destruct (IH x (glen + 1) out) as (lens & -> & Hall & Hsum & Hlen);
        [done|exact Hs|lia|lia|].
      exists lens. simpl in *. repeat split; try lia. exact Hall.
Qed.

(** X1. For every array of codes, [get_group_lens_nb] raises exactly when
    a code is smaller than the one before it or the first code is below
    the sentinel [-1]; the error is then the [ValueError] of the sort
    check. No write to the result array is ever out of bounds. *)
Theorem get_group_lens_nb_raises_iff :
  forall groups : list Z,
    (raises (get_group_lens_nb groups) = true <-> has_descent (-1 :: groups))
    /\ (raises (get_group_lens_nb groups) = true ->
        get_group_lens_nb groups = Raise (ValueError not_sorted_msg)).
Proof.
  intros groups. rewrite get_group_lens_nb_scan.
  assert (has_descent (-1 :: groups) ->
          scan (-1) 0 [] groups = Raise (ValueError not_sorted_msg)) as Hd
    by apply scan_descent.
  assert (non_decreasing (-1 :: groups) ->
          raises (scan (-1) 0 [] groups) = false) as Hs.
  { intros Hs. destruct groups as [|x l]; [reflexivity|].
    destruct (scan_sorted (x :: l) (-1) 0 [] ltac:(done) Hs ltac:(lia)
                          ltac:(done)) as (lens & -> & _).
    reflexivity. }
  split; [split|].
  - intros Hr. destruct (descent_or_not (-1 :: groups)) as [H|H]; [|exact H].
    rewrite (Hs H) in Hr. discriminate.
  - intros H. rewrite (Hd H). reflexivity.
  - intros Hr. destruct (descent_or_not (-1 :: groups)) as [H|H]; [|auto].
    rewrite (Hs H) in Hr. discriminate.
Qed.

Lemma get_group_lens_nb_Ok_inv (groups lens : list Z) :
  get_group_lens_nb groups = Ok lens ->
  Forall (Z.lt 0) lens
  /\ sum_list_Z lens = Z.of_nat (length groups)
  /\ (length lens <= length groups)%nat.
Proof.
  rewrite get_group_lens_nb_scan.
  destruct groups as [|x l]; [intros [= <-]; repeat split; constructor|].
  destruct (descent_or_not (-1 :: x :: l)) as [Hs|Hd].
  - pose proof Hs as Hs'. apply non_decreasing_cons in Hs' as [Hx Hs'].
    rewrite scan_cons. cbn zeta.
    rewrite (proj2 (Z.ltb_ge x (-1))) by lia. rewrite andb_false_r.
    destruct l as [|y l].
    + intros [= <-]. simpl. repeat split; try lia. repeat constructor.
    + destruct (scan_sorted (y :: l) x (0 + 1) [] ltac:(done) Hs'
                            ltac:(lia) ltac:(lia))
        as (lens' & -> & Hall & Hsum & Hlen).
      intros [= <-]. simpl in *. repeat split; try lia. exact Hall.
  - rewrite (scan_descent _ _ _ _ Hd). discriminate.
Qed.

(** X2. Whenever [get_group_lens_nb] returns, on codes of any sign, every
    length is positive, the lengths sum to the number of columns, and
    there are no more lengths than columns. *)
Theorem get_group_lens_nb_returns :
  forall groups lens : list Z,
    get_group_lens_nb groups = Ok lens ->
    Forall (Z.lt 0) lens
    /\ sum_list_Z lens = Z.of_nat (length groups)
    /\ (length lens <= length groups)%nat.
Proof. exact get_group_lens_nb_Ok_inv. Qed.

Lemma get_group_lens_nb_returns_witness :
  get_group_lens_nb [-1; -1; 0; 0; 3] = Ok [4; 1]
  /\ Forall (Z.lt 0) [4; 1]
  /\ sum_list_Z [4; 1] = Z.of_nat (length [-1; -1; 0; 0; 3])
  /\ Nat.le (length [4; 1]) (length [-1; -1; 0; 0; 3]).
Proof.
  split; [reflexivity|].
  exact (get_group_lens_nb_returns [-1; -1; 0; 0; 3] [4; 1] eq_refl).
Defined.

(** X3. The result does not depend on what the array allocated by
    [np.empty] holds: no cell of the returned prefix is left unwritten. *)
Theorem get_group_lens_nb_any_buffer :
  forall buf buf' groups : list Z,
    length buf = length groups -> length buf' = length groups ->
    get_group_lens_nb_on buf groups = get_group_lens_nb_on buf' groups.
Proof.
  intros buf buf' groups H H'.
  rewrite !get_group_lens_nb_on_buf by assumption. reflexivity.
Qed.

Lemma get_group_lens_nb_any_buffer_witness :
  get_group_lens_nb_on [7; 7; 7] [0; 0; 1]
  = get_group_lens_nb_on [-5; 9; 0] [0; 0; 1].
Proof.
  exact (get_group_lens_nb_any_buffer [7; 7; 7] [-5; 9; 0] [0; 0; 1]
           eq_refl eq_refl).
Defined.

End GroupLensMore.

(* ===================================================================== *)
(** * The methods of [Grouper] *)
(* ===================================================================== *)

Module GrouperMore.

Import Py Grouping GrouperMethods GroupLensFacts GrouperFacts GroupLensMore.

Lemma factorize_from_length (l u : list label) :
  length (factorize_from u l).1 = length l.
Proof.
  revert u. induction l as [|x l IH]; intros u; [reflexivity|].
  rewrite factorize_from_cons.
  case_decide; [|destruct (index_of x u)]; simpl; f_equal; apply IH.
Qed.

Lemma check_group_by_None (self : Grouper) (a b c : option bool) :
  check_group_by self GBNone a b c = Ok tt.
Proof.
  unfold check_group_by, is_grouping_enabled, is_grouping_disabled,
    is_grouping_modified, is_grouped.
  destruct (group_by self); reflexivity.
Qed.

Lemma check_group_by_False_ungrouped (self : Grouper) (a b c : option bool) :
  group_by self = None -> check_group_by self (GBBool false) a b c = Ok tt.
Proof.
  intros H.
  unfold check_group_by, is_grouping_enabled, is_grouping_disabled,
    is_grouping_modified, is_grouped.
  rewrite H. reflexivity.
Qed.

Lemma group_by_to_index_own (index cur : list label) :
  length cur = length index ->
  group_by_to_index index (GBIndex cur) = Ok (GBIndex cur).
Proof.
  intros H. unfold group_by_to_index. case_decide; [lia|reflexivity].
Qed.

Lemma check_group_by_own (self : Grouper) (cur : list label)
      (a b c : option bool) :
  group_by self = Some cur -> length cur = length (index self) ->
  check_group_by self (GBIndex cur) a b c = Ok tt.
Proof.
  intros H Hlen.
  unfold check_group_by, is_grouping_enabled, is_grouping_disabled,
    is_grouping_modified, is_grouped.
  rewrite H, (group_by_to_index_own _ _ Hlen). cbn.
  rewrite bool_decide_eq_true_2 by reflexivity. reflexivity.
Qed.

(** What [resolve_group_by] hands back. *)
Lemma resolve_group_by_Ok (self : Grouper) (gb r : group_by_like)
      (kw : overrides) :
  resolve_group_by self gb kw = Ok r ->
  (r = GBNone /\ group_by self = None)
  \/ (r = GBBool false /\ is_Some (group_by self))
  \/ (exists l, r = GBIndex l /\ length l = length (index self)).
Proof.
  unfold resolve_group_by.
  match goal with
  | |- context [check_group_by self ?g _ _ _] => set (gb' := g)
  end.
  destruct (check_group_by self gb' _ _ _) as [[]|e]; [|discriminate].
  cbn. intros Hr.
  destruct r as [|[|]|l].
  - left. split; [reflexivity|].
    subst gb'. destruct gb as [|[|]|l]; destruct (group_by self) eqn:Hg;
      cbn in Hr; try case_decide; try discriminate; reflexivity.
  - exfalso. subst gb'.
    destruct gb as [|[|]|l]; destruct (group_by self) eqn:Hg;
      cbn in Hr; try case_decide; discriminate.
  - right; left. split; [reflexivity|].
    subst gb'. destruct gb as [|[|]|l]; destruct (group_by self) eqn:Hg;
      cbn in Hr; try case_decide; try discriminate; eauto.
  - right; right. exists l. split; [reflexivity|].
    apply group_by_to_index_Index in Hr. tauto.
Qed.

Lemma length_arange (n : nat) : length (arange n) = n.
Proof. unfold arange. rewrite length_fmap. apply length_seq. Qed.

Lemma get_groups_and_index_length (index : list label) (gb : group_by_like)
      (r : list Z * list label) :
  get_groups_and_index index gb = Ok r -> length r.1 = length index.
Proof.
  unfold get_groups_and_index.
  destruct gb as [|[|]|l].
  - intros [= <-]. apply length_arange.
  - destruct (group_by_to_index index (GBBool true)) as [g|] eqn:Hg;
      [|discriminate].
    cbn. destruct g as [| |l]; try discriminate. intros [= <-].
    apply group_by_to_index_Index in Hg as [Hlen _].
    unfold factorize. rewrite factorize_from_length. exact Hlen.
  - intros [= <-]. apply length_arange.
  - destruct (group_by_to_index index (GBIndex l)) as [g|] eqn:Hg;
      [|discriminate].
    cbn. destruct g as [| |l']; try discriminate. intros [= <-].
    apply group_by_to_index_Index in Hg as [Hlen _].
    unfold factorize. rewrite factorize_from_length. exact Hlen.
Qed.

Lemma get_groups_length (self : Grouper) (gb : group_by_like)
      (kw : overrides) (groups : list Z) :
  get_groups self gb kw = Ok groups -> length groups = length (index self).
Proof.
  unfold get_groups, Grouper_get_groups_and_index.
  destruct (resolve_group_by self gb kw) as [r|]; [|discriminate]. cbn.
  destruct (get_groups_and_index (index self) r) as [p|] eqn:Hp;
    [|discriminate].
  cbn. intros [= <-]. eapply get_groups_and_index_length. exact Hp.
Qed.

Lemma sum_replicate_ones (n : nat) :
  sum_list_Z (replicate n 1) = Z.of_nat n.
Proof. induction n as [|n IH]; [reflexivity|]. simpl in *. lia. Qed.

Lemma Forall_replicate_ones (n : nat) : Forall (Z.lt 0) (replicate n 1).
Proof. apply Forall_replicate. lia. Qed.

(** ** Changed, modified, and the number of groups *)

(** X4. A grouping that [is_grouping_modified] reports as modified is
    reported as changed by [is_grouping_changed]. *)
Theorem modified_is_changed :
  forall (self : Grouper) (gb : group_by_like),
    is_grouping_modified self gb = Ok true ->
    is_grouping_changed self gb = true.
Proof.
  intros self gb H. unfold is_grouping_changed.
  destruct gb as [|[|]|new]; destruct (group_by self) as [cur|] eqn:Hg;
    cbn; try reflexivity; try discriminate H.
  - unfold is_grouping_modified in H. rewrite Hg in H. discriminate H.
  - case_bool_decide as Heq; [|reflexivity]. subst new.
    unfold is_grouping_modified, group_by_to_index in H. cbn in H.
    case_decide; [discriminate H|]. cbn in H. rewrite Hg in H.
    rewrite bool_decide_eq_true_2 in H by reflexivity. discriminate H.
Qed.

Lemma modified_is_changed_witness :
  is_grouping_modified (grouped3 true) (GBBool false) = Ok true
  /\ is_grouping_changed (grouped3 true) (GBBool false) = true.
Proof.
  split; [reflexivity|].
  exact (modified_is_changed (grouped3 true) (GBBool false) eq_refl).
Defined.

(** X5. The converse fails on every relabelling: a mapper that differs
    from the one in force but groups the columns alike (the same columns
    together, the same columns without a label) is changed, not
    modified. *)
Theorem relabelled_is_changed_not_modified :
  forall (self : Grouper) (cur new : list label),
    group_by self = Some cur ->
    length cur = length (index self) ->
    length new = length (index self) ->
    new <> cur ->
    same_grouping new cur ->
    is_grouping_changed self (GBIndex new) = true
    /\ is_grouping_modified self (GBIndex new) = Ok false.
Proof.
  intros self cur new Hg Hcur Hnew Hne Hsame.
  unfold is_grouping_changed, is_grouping_modified.
  rewrite Hg, (group_by_to_index_own _ _ Hnew).
  cbn -[get_groups_and_index].
  rewrite bool_decide_eq_false_2 by exact Hne.
  unfold get_groups_and_index.
  rewrite (group_by_to_index_own _ _ Hnew), (group_by_to_index_own _ _ Hcur).
  cbn -[factorize]. split; [reflexivity|].
  rewrite bool_decide_eq_true_2; [reflexivity|].
  apply factorize_codes_eq_iff; [lia|exact Hsame].
Qed.

Lemma same_grouping_by_pq : same_grouping by_pq by_xy.
Proof. apply factorize_codes_eq_iff; reflexivity. Qed.

Lemma relabelled_is_changed_not_modified_witness :
  is_grouping_changed (grouped3 true) (GBIndex by_pq) = true
  /\ is_grouping_modified (grouped3 true) (GBIndex by_pq) = Ok false.
Proof.
  apply (relabelled_is_changed_not_modified (grouped3 true) by_xy by_pq
           eq_refl eq_refl eq_refl).
  - discriminate.
  - exact same_grouping_by_pq.
Defined.

(** X6. [is_group_count_changed] compares the lengths of the two mappers:
    on a grouped Grouper it answers [False] for every index mapper as
    long as the columns, whatever groups that mapper forms. *)
Theorem is_group_count_changed_same_length :
  forall (self : Grouper) (cur new : list label),
    group_by self = Some cur ->
    length cur = length (index self) ->
    length new = length (index self) ->
    is_group_count_changed self (GBIndex new) = false.
Proof.
  intros self cur new Hg Hcur Hnew.
  unfold is_group_count_changed. cbn. rewrite Hg.
  rewrite bool_decide_eq_true_2 by lia. reflexivity.
Qed.

Lemma is_group_count_changed_same_length_witness :
  is_group_count_changed (grouped3 true) (GBIndex cols3) = false
  /\ length (factorize cols3).2 = 3%nat
  /\ length (factorize by_xy).2 = 2%nat.
Proof.
  split; [|split; reflexivity].
  exact (is_group_count_changed_same_length (grouped3 true) by_xy cols3
           eq_refl eq_refl eq_refl).
Defined.

(** ** [resolve_group_by] *)

(** X7. Called without a mapper on a Grouper left by [__init__],
    [resolve_group_by] returns the Grouper's own mapper, whatever the
    switches and the keyword arguments forbid. *)
Theorem resolve_group_by_default :
  forall (self : Grouper) (kw : overrides),
    constructed self ->
    resolve_group_by self GBNone kw
    = Ok (from_option GBIndex GBNone (group_by self)).
Proof.
  intros self kw Hc. unfold resolve_group_by.
  destruct (group_by self) as [cur|] eqn:Hg; cbn.
  - rewrite (check_group_by_own self cur _ _ _ Hg (Hc cur Hg)). cbn.
    apply group_by_to_index_own. apply Hc. exact Hg.
  - rewrite check_group_by_None. reflexivity.
Qed.

Lemma constructed_grouped3 (b : bool) : constructed (grouped3 b).
Proof. intros cur [= <-]. reflexivity. Qed.

Lemma resolve_group_by_default_witness :
  resolve_group_by (grouped3 false) GBNone
    {| ov_enable := Some false; ov_disable := Some false;
       ov_modify := Some false |}
  = Ok (GBIndex by_xy).
Proof.
  exact (resolve_group_by_default (grouped3 false) _
           (constructed_grouped3 false)).
Defined.

(** X8. What [resolve_group_by] returns tells whether grouping is on:
    [None] only on a Grouper without grouping, [False] only on a grouped
    one, and otherwise an index as long as the columns; [True] is never
    returned. *)
Theorem resolve_group_by_result :
  forall (self : Grouper) (gb r : group_by_like) (kw : overrides),
    resolve_group_by self gb kw = Ok r ->
    match r with
    | GBNone => group_by self = None
    | GBBool b => b = false /\ is_Some (group_by self)
    | GBIndex l => length l = length (index self)
    end.
Proof.
  intros self gb r kw H.
  destruct (resolve_group_by_Ok self gb r kw H)
    as [[-> Hg]|[[-> Hg]|(l & -> & Hl)]]; auto.
Qed.

Lemma resolve_group_by_result_witness :
  resolve_group_by ungrouped3 (GBBool true) no_overrides
  = Ok (GBIndex (replicate 3 (LStr "group")))
  /\ length (replicate 3 (LStr "group")) = length (index ungrouped3).
Proof.
  split; [reflexivity|].
  exact (resolve_group_by_result ungrouped3 (GBBool true) _ no_overrides
           eq_refl).
Defined.

(** ** Group lengths and spans *)

Lemma non_decreasing_arange (n : nat) : non_decreasing (arange n).
Proof.
  intros i a b Ha Hb. unfold arange in *.
  rewrite list_lookup_fmap in Ha, Hb.
  destruct (seq 0 n !! i) as [x|] eqn:Hx; [|discriminate].
  destruct (seq 0 n !! S i) as [y|] eqn:Hy; [|discriminate].
  apply lookup_seq in Hx as [-> _]. apply lookup_seq in Hy as [-> _].
  simpl in *. simplify_eq. lia.
Qed.

Lemma non_decreasing_replicate (n : nat) (c : Z) :
  non_decreasing (replicate n c).
Proof.
  intros i a b Ha Hb.
  apply lookup_replicate in Ha as [-> _].
  apply lookup_replicate in Hb as [-> _]. lia.
Qed.

Lemma sorted_codes_complete (l : list Z) :
  non_decreasing l -> sorted_codes l = true.
Proof.
  induction l as [|a l IH]; [reflexivity|].
  destruct l as [|b l]; [reflexivity|].
  intros [Hab Hs]%non_decreasing_cons.
  change (sorted_codes (a :: b :: l))
    with ((a <=? b) && sorted_codes (b :: l)).
  rewrite (IH Hs), andb_true_r. apply Z.leb_le. exact Hab.
Qed.

Lemma factorize_from_replicate (x : label) (n : nat) (u : list label) :
  x <> LNA -> index_of x u = Some 0%nat ->
  (factorize_from u (replicate n x)).1 = replicate n 0.
Proof.
  intros Hna Hx. induction n as [|n IH]; [reflexivity|].
  change (replicate (S n) x) with (x :: replicate n x).
  rewrite factorize_from_cons, decide_False, Hx by exact Hna.
  simpl. f_equal. exact IH.
Qed.

Lemma factorize_replicate (x : label) (n : nat) :
  x <> LNA -> (factorize (replicate n x)).1 = replicate n 0.
Proof.
  intros Hna. destruct n as [|n]; [reflexivity|].
  unfold factorize. change (replicate (S n) x) with (x :: replicate n x).
  rewrite factorize_from_cons, decide_False by exact Hna. simpl. f_equal.
  apply factorize_from_replicate; [exact Hna|].
  simpl. case_decide; [reflexivity|done].
Qed.

Lemma scan_replicate (n : nat) (c glen : Z) (out : list Z) :
  scan c glen out (replicate (S n) c) = Ok (out ++ [glen + Z.of_nat (S n)]).
Proof.
  revert glen. induction n as [|n IH]; intros glen.
  - simpl. rewrite Z.ltb_irrefl, Z.eqb_refl. reflexivity.
  - change (replicate (S (S n)) c) with (c :: replicate (S n) c).
    rewrite scan_cons. cbn zeta.
    rewrite Z.ltb_irrefl, Z.eqb_refl. cbn [negb andb].
    change (replicate (S n) c) with (c :: replicate n c) at 1.
    cbn iota. rewrite IH. do 3 f_equal. lia.
Qed.

Lemma get_group_lens_nb_zeros (n : nat) :
  get_group_lens_nb (replicate n 0)
  = Ok (if decide (n = 0%nat) then [] else [Z.of_nat n]).
Proof.
  rewrite get_group_lens_nb_scan. destruct n as [|n]; [reflexivity|].
  change (replicate (S n) 0) with (0 :: replicate n 0).
  rewrite scan_cons. cbn zeta. cbn [Z.ltb Z.compare Z.eqb negb andb].
  destruct n as [|n]; [reflexivity|].
  change (replicate (S n) 0) with (0 :: replicate n 0) at 1. cbn iota.
  rewrite scan_replicate. simpl app. case_decide; [done|].
  do 2 f_equal. lia.
Qed.

(** The spans of consecutive groups of the given lengths, counted from
    [acc]. *)
Lemma spans_tile :
  forall (lens : list Z) (acc : Z) (g : nat) (s e : Z),
    Forall (Z.lt 0) lens ->
    zip_with Z.sub (cumsum_from acc lens) lens !! g = Some s ->
    cumsum_from acc lens !! g = Some e ->
    (acc <= s /\ s < e /\ e <= acc + sum_list_Z lens)
    /\ lens !! g = Some (e - s)
    /\ (g = 0%nat -> s = acc)
    /\ (zip_with Z.sub (cumsum_from acc lens) lens !! S g = Some e
        \/ (S g = length lens /\ e = acc + sum_list_Z lens)).
Proof.
  induction lens as [|x lens IH]; intros acc g s e Hpos Hs He; [done|].
  apply Forall_cons in Hpos as [Hx Hpos].
  assert (0 <= sum_list_Z lens) as Hsum.
  { clear -Hpos. induction Hpos; simpl in *; lia. }
  destruct g as [|g].
  - simpl in Hs, He. simplify_eq. simpl sum_list_Z.
    repeat split; try lia.
    + simpl. f_equal. lia.
    + destruct lens as [|y lens].
      * right. simpl. split; [reflexivity|lia].
      * left. simpl. f_equal. lia.
  - simpl in Hs, He.
    destruct (IH (acc + x) g s e Hpos Hs He) as (Hb & Hl & _ & Hn).
    simpl sum_list_Z. repeat split; try lia.
    + exact Hl.
    + destruct Hn as [Hn|[Hn ->]].
      * left. exact Hn.
      * right. simpl. split; [lia|lia].
Qed.

Lemma cumsum_from_length (l : list Z) (acc : Z) :
  length (cumsum_from acc l) = length l.
Proof.
  revert acc. induction l as [|x l IH]; intros acc; simpl; [|rewrite IH];
    reflexivity.
Qed.

Section Sorted.

Variable is_sorted : list Z -> bool.

Lemma get_group_lens_Ok_inv (self : Grouper) (gb : group_by_like)
      (kw : overrides) (lens : list Z) :
  get_group_lens is_sorted self gb kw = Ok lens ->
  Forall (Z.lt 0) lens
  /\ sum_list_Z lens = Z.of_nat (length (index self)).
Proof.
  unfold get_group_lens.
  destruct (Grouper_is_sorted is_sorted self gb no_overrides) as [[|]|];
    cbn; try discriminate.
  destruct (resolve_group_by self gb kw) as [r|]; [|discriminate]. cbn.
  assert (forall g : group_by_like,
             (groups ← get_groups self g no_overrides;
              get_group_lens_nb groups) = Ok lens ->
             Forall (Z.lt 0) lens
             /\ sum_list_Z lens = Z.of_nat (length (index self))) as Hg.
  { intros g. destruct (get_groups self g no_overrides) as [groups|] eqn:Hgr;
      [|discriminate].
    cbn. intros H. apply get_group_lens_nb_Ok_inv in H as (Hall & Hsum & _).
    apply get_groups_length in Hgr. rewrite <- Hgr. auto. }
  destruct r as [|[|]|l]; try apply Hg.
  - intros [= <-]. split; [apply Forall_replicate_ones|apply sum_replicate_ones].
  - intros [= <-]. split; [apply Forall_replicate_ones|apply sum_replicate_ones].
Qed.

(** X9. Whenever [Grouper.get_group_lens] returns, with or without
    grouping, every length is positive and the lengths sum to the number
    of columns of the index. *)
Theorem get_group_lens_partition :
  forall (self : Grouper) (gb : group_by_like) (kw : overrides)
         (lens : list Z),
    get_group_lens is_sorted self gb kw = Ok lens ->
    Forall (Z.lt 0) lens
    /\ sum_list_Z lens = Z.of_nat (length (index self)).
Proof. exact get_group_lens_Ok_inv. Qed.

(** X10. The keyword arguments of [get_group_lens] cannot lift a
    restriction of the Grouper: the first call inside it, to
    [is_sorted], goes without them, so whatever [check_group_by] raises
    on the Grouper's own switches is raised, whatever is overridden. *)
Theorem get_group_lens_ignores_overrides :
  forall (self : Grouper) (gb : group_by_like) (kw : overrides) (e : exn),
    check_group_by self gb None None None = Raise e ->
    get_group_lens is_sorted self gb kw = Raise e.
Proof.
  intros self gb kw e H.
  unfold get_group_lens, Grouper_is_sorted, resolve_group_by.
  destruct gb as [|[|]|l].
  - rewrite check_group_by_None in H. discriminate.
  - cbn -[check_group_by]. rewrite H. reflexivity.
  - destruct (group_by self) as [cur|] eqn:Hg.
    + cbn -[check_group_by]. rewrite H. reflexivity.
    + rewrite (check_group_by_False_ungrouped self _ _ _ Hg) in H.
      discriminate.
  - cbn -[check_group_by]. rewrite H. reflexivity.
Qed.

(** X11. The spans of the groups tile the columns: the start indices
    and the end indices come from the same lengths, the first group
    starts at column 0, every group ends after it starts and where the
    next one starts, and the last one ends at the number of columns. *)
Theorem group_spans_tile :
  forall (self : Grouper) (gb : group_by_like) (kw : overrides)
         (starts : list Z),
    get_group_start_idxs is_sorted self gb kw = Ok starts ->
    exists ends lens : list Z,
      get_group_end_idxs is_sorted self gb kw = Ok ends
      /\ get_group_lens is_sorted self gb kw = Ok lens
      /\ length starts = length lens /\ length ends = length lens
      /\ forall (g : nat) (s e : Z),
           starts !! g = Some s -> ends !! g = Some e ->
           (0 <= s /\ s < e /\ e <= Z.of_nat (length (index self)))
           /\ lens !! g = Some (e - s)
           /\ (g = 0%nat -> s = 0)
           /\ (starts !! S g = Some e
               \/ (S g = length lens
                   /\ e = Z.of_nat (length (index self)))).
Proof.
  intros self gb kw starts.
  unfold get_group_start_idxs, get_group_end_idxs.
  destruct (get_group_lens is_sorted self gb kw) as [lens|] eqn:Hl;
    [|discriminate].
  cbn. intros [= <-]. exists (cumsum lens), lens. unfold cumsum.
  apply get_group_lens_Ok_inv in Hl as [Hpos Hsum].
  repeat split; try reflexivity.
  - rewrite length_zip_with, cumsum_from_length. lia.
  - apply cumsum_from_length.
  - destruct (spans_tile lens 0 g s e Hpos H H0) as ((? & ? & ?) & _). lia.
  - destruct (spans_tile lens 0 g s e Hpos H H0) as ((? & ? & ?) & _). lia.
  - destruct (spans_tile lens 0 g s e Hpos H H0) as ((? & ? & ?) & _). lia.
  - destruct (spans_tile lens 0 g s e Hpos H H0) as (_ & ? & _). assumption.
  - destruct (spans_tile lens 0 g s e Hpos H H0) as (_ & _ & ? & _).
    assumption.
  - destruct (spans_tile lens 0 g s e Hpos H H0) as (_ & _ & _ & [?|[? ?]]);
      [left; assumption|right; split; [assumption|lia]].
Qed.

Hypothesis is_sorted_complete :
  forall l : list Z, non_decreasing l -> is_sorted l = true.

(** X12. Without grouping, asked with no mapper or with [False], every
    column is a group of its own: [get_group_lens] returns as many ones
    as there are columns and [get_group_count] their number, whatever
    the keyword arguments. *)
Theorem get_group_lens_ungrouped :
  forall (self : Grouper) (gb : group_by_like) (kw : overrides),
    group_by self = None ->
    gb = GBNone \/ gb = GBBool false ->
    get_group_lens is_sorted self gb kw
    = Ok (replicate (length (index self)) 1)
    /\ get_group_count is_sorted self gb kw = Ok (length (index self)).
Proof.
  intros self gb kw Hg Hgb.
  assert (forall kw', resolve_group_by self gb kw' = Ok GBNone) as Hr.
  { intros kw'. unfold resolve_group_by. rewrite Hg.
    destruct Hgb as [-> | ->]; cbn -[check_group_by];
      rewrite check_group_by_None; reflexivity. }
  assert (get_groups self GBNone no_overrides
          = Ok (arange (length (index self)))) as Hgr.
  { unfold get_groups, Grouper_get_groups_and_index, resolve_group_by.
    rewrite Hg. cbn -[check_group_by]. rewrite check_group_by_None.
    reflexivity. }
  assert (get_group_lens is_sorted self gb kw
          = Ok (replicate (length (index self)) 1)) as Hl.
  { unfold get_group_lens, Grouper_is_sorted.
    rewrite !Hr. cbn -[get_groups]. rewrite Hgr. cbn.
    rewrite is_sorted_complete by apply non_decreasing_arange.
    reflexivity. }
  split; [exact Hl|].
  unfold get_group_count. rewrite Hl. cbn. rewrite length_replicate.
  reflexivity.
Qed.

(** X13. Asked with [group_by=True], a Grouper without grouping that
    allows enabling it puts all the columns into one group:
    [get_group_lens] returns the number of columns alone (and nothing
    for an empty index). *)
Theorem get_group_lens_one_group :
  forall (self : Grouper) (kw : overrides),
    group_by self = None ->
    allow_enable self = true ->
    ov_enable kw <> Some false ->
    get_group_lens is_sorted self (GBBool true) kw
    = Ok (if decide (length (index self) = 0%nat) then []
          else [Z.of_nat (length (index self))]).
Proof.
  intros self kw Hg Hen Hov.
  set (n := length (index self)).
  set (one := replicate n (LStr "group")).
  assert (forall g, is_grouped self g = true ->
            forall a b c, a <> Some false ->
                          check_group_by self g a b c = Ok tt) as Hck.
  { intros g Hgr a b c Ha. unfold check_group_by, is_grouping_enabled.
    rewrite Hg, Hgr, Hen. cbn.
    destruct a as [[|]|]; cbn; [reflexivity|done|reflexivity]. }
  assert (group_by_to_index (index self) (GBBool true) = Ok (GBIndex one))
    as Hone.
  { unfold group_by_to_index. case_decide as Hlen; [|reflexivity].
    rewrite length_replicate in Hlen. done. }
  assert (forall kw', ov_enable kw' <> Some false ->
            resolve_group_by self (GBBool true) kw' = Ok (GBIndex one)) as Hr.
  { intros kw' Hov'. unfold resolve_group_by. cbn -[check_group_by].
    rewrite (Hck (GBBool true) eq_refl _ _ _ Hov'). cbn -[group_by_to_index].
    exact Hone. }
  assert (get_groups self (GBIndex one) no_overrides = Ok (replicate n 0))
    as Hgr.
  { unfold get_groups, Grouper_get_groups_and_index, resolve_group_by.
    cbn -[check_group_by group_by_to_index get_groups_and_index].
    rewrite (Hck (GBIndex one) eq_refl None None None ltac:(done)).
    cbn -[group_by_to_index get_groups_and_index].
    rewrite group_by_to_index_own by apply length_replicate.
    cbn -[group_by_to_index get_groups_and_index].
    unfold get_groups_and_index.
    rewrite group_by_to_index_own by apply length_replicate.
    cbn -[factorize]. unfold one.
    rewrite factorize_replicate by discriminate. reflexivity. }
  unfold get_group_lens, Grouper_is_sorted.
  rewrite (Hr no_overrides ltac:(done)), (Hr kw Hov).
  cbn -[get_groups]. rewrite Hgr. cbn -[get_group_lens_nb].
  rewrite is_sorted_complete by apply non_decreasing_replicate.
  cbn -[get_group_lens_nb]. apply get_group_lens_nb_zeros.
Qed.

End Sorted.

Lemma get_group_lens_partition_witness :
  get_group_lens sorted_codes (grouped3 true) GBNone no_overrides = Ok [2; 1]
  /\ Forall (Z.lt 0) [2; 1]
  /\ sum_list_Z [2; 1] = Z.of_nat (length (index (grouped3 true))).
Proof.
  split; [reflexivity|].
  exact (get_group_lens_partition sorted_codes (grouped3 true) GBNone
           no_overrides [2; 1] eq_refl).
Defined.

Lemma get_group_lens_ignores_overrides_witness :
  check_group_by (grouped3 true) (GBIndex cols3) None None None
  = Raise (ValueError "Modifying groups is not allowed")
  /\ get_group_lens sorted_codes (grouped3 true) (GBIndex cols3)
       {| ov_enable := None; ov_disable := None; ov_modify := Some true |}
     = Raise (ValueError "Modifying groups is not allowed").
Proof.
  split; [reflexivity|].
  exact (get_group_lens_ignores_overrides sorted_codes (grouped3 true)
           (GBIndex cols3) _ _ eq_refl).
Defined.

Lemma group_spans_tile_witness :
  get_group_start_idxs sorted_codes (grouped3 true) GBNone no_overrides
  = Ok [0; 2]
  /\ exists ends lens : list Z,
      get_group_end_idxs sorted_codes (grouped3 true) GBNone no_overrides
      = Ok ends
      /\ get_group_lens sorted_codes (grouped3 true) GBNone no_overrides
         = Ok lens
      /\ length [0; 2] = length lens /\ length ends = length lens
      /\ forall (g : nat) (s e : Z),
           [0; 2] !! g = Some s -> ends !! g = Some e ->
           (0 <= s /\ s < e
            /\ e <= Z.of_nat (length (index (grouped3 true))))
           /\ lens !! g = Some (e - s)
           /\ (g = 0%nat -> s = 0)
           /\ ([0; 2] !! S g = Some e
               \/ (S g = length lens
                   /\ e = Z.of_nat (length (index (grouped3 true))))).
Proof.
  split; [reflexivity|].
  exact (group_spans_tile sorted_codes (grouped3 true) GBNone no_overrides
           [0; 2] eq_refl).
Defined.

Lemma get_group_lens_ungrouped_witness :
  get_group_lens sorted_codes ungrouped3 (GBBool false) no_overrides
  = Ok [1; 1; 1]
  /\ get_group_count sorted_codes ungrouped3 (GBBool false) no_overrides
     = Ok 3%nat.
Proof.
  exact (get_group_lens_ungrouped sorted_codes sorted_codes_complete
           ungrouped3 (GBBool false) no_overrides eq_refl
           (or_intror eq_refl)).
Defined.

Lemma get_group_lens_one_group_witness :
  get_group_lens sorted_codes ungrouped3 (GBBool true) no_overrides = Ok [3].
Proof.
  apply (get_group_lens_one_group sorted_codes sorted_codes_complete
           ungrouped3 no_overrides eq_refl eq_refl).
  discriminate.
Defined.

(** ** The sentinel of [get_group_lens_nb] among the codes *)

(** C6. [get_group_lens_nb] starts [last_group] at [-1] to say that no
    group is open yet, and [-1] is also the code [pd.factorize] gives a
    column without a label. On the mapper [[None, None, 'y']] the codes
    are [[-1, -1, 0]], non-decreasing with two distinct codes; the count
    per group would be [[2, 1]], but the leading run of [-1] opens no
    group and is counted into the next one: [get_group_lens_nb], and
    [Grouper.get_group_lens] with it, return the single length [[3]].
    Likewise [[-1, 0]] gives [[2]], and the sorted array [[-2]] raises
    the error of unsorted codes. *)
Theorem C6_sentinel_collision :
  ((factorize by_na).1 = [-1; -1; 0]
   /\ non_decreasing [-1; -1; 0]
   /\ length (remove_dups [-1; -1; 0]) = 2%nat
   /\ get_group_lens_nb [-1; -1; 0] = Ok [3]
   /\ get_groups grouped_na GBNone no_overrides = Ok [-1; -1; 0]
   /\ get_group_lens sorted_codes grouped_na GBNone no_overrides = Ok [3])
  /\ (non_decreasing [-1; 0]
      /\ length (remove_dups [-1; 0]) = 2%nat
      /\ get_group_lens_nb [-1; 0] = Ok [2])
  /\ (non_decreasing [-2]
      /\ get_group_lens_nb [-2] = Raise (ValueError not_sorted_msg)).
Proof.
  repeat split; try reflexivity; non_decreasing_tac.
Qed.

(** ** Codes and the grouped index *)

(** X29. The codes and the index that the method
    [get_groups_and_index] returns decode to the mapper in force. There
    is one code per column. With grouping, a column without a label has
    the code [-1], the code of any other column is the position, in the
    index returned, of the label the mapper gives it, and the index
    returned has no label twice and no missing label. Without grouping
    the codes are the positions of the columns and the index returned is
    the Grouper's own. *)
Theorem groups_decode_to_mapper :
  forall (self : Grouper) (gb r : group_by_like) (kw : overrides)
         (codes : list Z) (uniq : list label),
    resolve_group_by self gb kw = Ok r ->
    Grouper_get_groups_and_index self gb kw = Ok (codes, uniq) ->
    length codes = length (index self)
    /\ match r with
       | GBIndex l =>
           NoDup uniq /\ (LNA ∉ uniq)
           /\ forall (i : nat) (x : label),
               l !! i = Some x ->
               (x = LNA /\ codes !! i = Some (-1))
               \/ (x <> LNA
                   /\ exists c : nat,
                       codes !! i = Some (Z.of_nat c)
                       /\ uniq !! c = Some x)
       | _ => codes = arange (length (index self)) /\ uniq = index self
       end.
Proof.
  intros self gb r kw codes uniq Hr Hg.
  unfold Grouper_get_groups_and_index in Hg. rewrite Hr in Hg.
  cbn -[get_groups_and_index] in Hg.
  split; [exact (get_groups_and_index_length _ _ _ Hg)|].
  destruct (resolve_group_by_Ok self gb r kw Hr)
    as [[-> _]|[[-> _]|(l & -> & Hl)]].
  - cbn in Hg. injection Hg as <- <-. auto.
  - cbn in Hg. injection Hg as <- <-. auto.
  - unfold get_groups_and_index in Hg.
    rewrite (group_by_to_index_own _ _ Hl) in Hg. cbn -[factorize] in Hg.
    destruct (factorize_decode l) as (Hnd & Hna & Hdec).
    injection Hg as Hf. rewrite Hf in Hnd, Hna, Hdec. auto.
Qed.

Lemma groups_decode_to_mapper_witness :
  length [-1; -1; 0] = length (index grouped_na)
  /\ NoDup [LStr "y"] /\ (LNA ∉ [LStr "y"])
  /\ forall (i : nat) (x : label),
      by_na !! i = Some x ->
      (x = LNA /\ [-1; -1; 0] !! i = Some (-1))
      \/ (x <> LNA
          /\ exists c : nat,
              [-1; -1; 0] !! i = Some (Z.of_nat c)
              /\ [LStr "y"] !! c = Some x).
Proof.
  exact (groups_decode_to_mapper grouped_na GBNone (GBIndex by_na)
           no_overrides [-1; -1; 0] [LStr "y"] eq_refl eq_refl).
Defined.

End GrouperMore.

(* ===================================================================== *)
(** * Codes made from group sizes *)
(* ===================================================================== *)

Module GroupCodesFacts.

Import Py Grouping GrouperMethods GroupLensFacts GrouperFacts GroupLensMore
       GrouperMore.

(** ** [from_pd_group_by] *)

Lemma sum_nonneg (l : list Z) : Forall (Z.lt 0) l -> 0 <= sum_list_Z l.
Proof. induction 1; simpl in *; lia. Qed.

Lemma setitems_starts :
  forall (ls pre : list Z) (p : Z),
    Forall (Z.lt 0) ls -> Z.of_nat (length pre) = p ->
    setitems (pre ++ replicate (Z.to_nat (sum_list_Z ls)) 0)
             (zip_with Z.sub (cumsum_from p ls) ls) 1
    = Ok (pre ++ start_marks ls).
Proof.
  induction ls as [|l ls IH]; intros pre p Hpos Hp.
  - simpl. reflexivity.
  - apply Forall_cons in Hpos as [Hl Hpos].
    pose proof (sum_nonneg ls Hpos) as Hsum.
    cbn [cumsum_from zip_with setitems start_marks sum_list_Z foldr].
    fold (sum_list_Z ls).
    rewrite length_app, length_replicate.
    case_decide as Hk; [|lia].
    replace (Z.to_nat (p + l - l)) with (length pre + 0)%nat by lia.
    rewrite insert_app_r.
    replace (Z.to_nat (l + sum_list_Z ls))
      with (S ((Z.to_nat l - 1) + Z.to_nat (sum_list_Z ls))) by lia.
    cbn [replicate]. cbn [insert list_insert].
    rewrite replicate_add.
    specialize (IH (pre ++ 1 :: replicate (Z.to_nat l - 1) 0) (p + l) Hpos).
    rewrite <- !app_assoc in IH. cbn [app] in IH.
    cbn [app]. apply IH.
    rewrite length_app. cbn [length]. rewrite length_replicate. lia.
Qed.

Lemma cumsum_from_app (a b : list Z) (acc : Z) :
  cumsum_from acc (a ++ b)
  = cumsum_from acc a ++ cumsum_from (acc + sum_list_Z a) b.
Proof.
  revert acc. induction a as [|x a IH]; intros acc; simpl.
  - f_equal. lia.
  - rewrite IH. do 3 f_equal. lia.
Qed.

Lemma cumsum_from_zeros (n : nat) (acc : Z) :
  cumsum_from acc (replicate n 0) = replicate n acc.
Proof.
  induction n as [|n IH]; [reflexivity|].
  simpl. rewrite Z.add_0_r. f_equal. exact IH.
Qed.

Lemma sum_zeros (n : nat) : sum_list_Z (replicate n 0) = 0.
Proof. induction n as [|n IH]; [reflexivity|]. simpl in *. lia. Qed.

Lemma cumsum_from_start_marks :
  forall (ls : list Z) (c : Z),
    Forall (Z.lt 0) ls ->
    cumsum_from c (start_marks ls) = group_codes (c + 1) ls.
Proof.
  induction ls as [|l ls IH]; intros c Hpos; [reflexivity|].
  apply Forall_cons in Hpos as [Hl Hpos].
  cbn [start_marks group_codes].
  replace (Z.to_nat l) with (S (Z.to_nat l - 1)) at 2 by lia.
  cbn [app cumsum_from replicate].
  rewrite cumsum_from_app, cumsum_from_zeros, sum_zeros, Z.add_0_r.
  rewrite (IH (c + 1) Hpos). reflexivity.
Qed.

Lemma pd_group_codes_Ok (l0 : Z) (ls : list Z) :
  Forall (Z.lt 0) (l0 :: ls) ->
  pd_group_codes (l0 :: ls) = Ok (group_codes 0 (l0 :: ls)).
Proof.
  intros Hpos. apply Forall_cons in Hpos as [Hl Hpos].
  pose proof (sum_nonneg ls Hpos) as Hsum.
  unfold pd_group_codes, cumsum.
  cbn [cumsum_from tail sum_list_Z foldr]. fold (sum_list_Z ls).
  rewrite Z2Nat.inj_add, replicate_add by lia.
  rewrite (setitems_starts ls (replicate (Z.to_nat l0) 0) (0 + l0) Hpos)
    by (rewrite length_replicate; lia).
  cbn [bind mbind result_bind Py.bind].
  rewrite cumsum_from_app, cumsum_from_zeros, sum_zeros.
  rewrite (cumsum_from_start_marks ls (0 + 0) Hpos). reflexivity.
Qed.

(** The scan of [get_group_lens_nb] on codes of consecutive groups. *)
Lemma scan_same (n : nat) (c glen : Z) (out rest : list Z) :
  rest <> [] ->
  scan c glen out (replicate n c ++ rest)
  = scan c (glen + Z.of_nat n) out rest.
Proof.
  intros Hne. revert glen. induction n as [|n IH]; intros glen.
  - simpl. f_equal. lia.
  - cbn [replicate app]. rewrite scan_cons. cbn zeta.
    rewrite Z.ltb_irrefl, Z.eqb_refl. cbn [negb andb].
    destruct (replicate n c ++ rest) as [|y tl] eqn:Htl.
    + apply app_eq_nil in Htl as [_ ?]. done.
    + rewrite IH. f_equal. lia.
Qed.

Lemma scan_next (last x glen : Z) (out tl : list Z) :
  last < x -> last <> -1 ->
  scan last glen out (x :: tl) = scan x 0 (out ++ [glen]) (x :: tl).
Proof.
  intros Hlt Hlast. rewrite !scan_cons. cbn zeta.
  rewrite (proj2 (Z.ltb_ge x last)) by lia.
  rewrite Z.ltb_irrefl, Z.eqb_refl.
  rewrite (proj2 (Z.eqb_neq x last)) by lia.
  rewrite (proj2 (Z.eqb_neq last (-1))) by lia.
  reflexivity.
Qed.

Lemma scan_first (x : Z) (tl : list Z) :
  0 <= x -> scan (-1) 0 [] (x :: tl) = scan x 0 [] (x :: tl).
Proof.
  intros Hx. rewrite !scan_cons. cbn zeta.
  rewrite (proj2 (Z.ltb_ge x (-1))) by lia.
  rewrite Z.ltb_irrefl, !Z.eqb_refl. cbn [negb andb].
  rewrite andb_false_r. reflexivity.
Qed.

Lemma scan_group_codes :
  forall (ls : list Z) (c glen l : Z) (out : list Z),
    0 <= c -> 0 < l -> Forall (Z.lt 0) ls ->
    scan c glen out (replicate (Z.to_nat l) c ++ group_codes (c + 1) ls)
    = Ok (out ++ (glen + l) :: ls).
Proof.
  induction ls as [|l' ls IH]; intros c glen l out Hc Hl Hpos.
  - cbn [group_codes]. rewrite app_nil_r.
    replace (Z.to_nat l) with (S (Z.to_nat l - 1)) by lia.
    rewrite scan_replicate. do 3 f_equal. lia.
  - apply Forall_cons in Hpos as [Hl' Hpos].
    cbn [group_codes].
    assert (replicate (Z.to_nat l') (c + 1) ++ group_codes (c + 1 + 1) ls
            = (c + 1) :: (replicate (Z.to_nat l' - 1) (c + 1)
                          ++ group_codes (c + 1 + 1) ls)) as Hhd.
    { replace (Z.to_nat l') with (S (Z.to_nat l' - 1)) at 1 by lia.
      reflexivity. }
    rewrite scan_same by (rewrite Hhd; done).
    rewrite Hhd, scan_next by lia. rewrite <- Hhd.
    rewrite IH by (assumption || lia).
    rewrite <- app_assoc. cbn [app]. do 3 f_equal; lia.
Qed.

Lemma get_group_lens_nb_group_codes (l0 : Z) (ls : list Z) :
  Forall (Z.lt 0) (l0 :: ls) ->
  get_group_lens_nb (group_codes 0 (l0 :: ls)) = Ok (l0 :: ls).
Proof.
  intros Hpos. apply Forall_cons in Hpos as [Hl Hpos].
  rewrite get_group_lens_nb_scan. cbn [group_codes].
  assert (replicate (Z.to_nat l0) 0 ++ group_codes (0 + 1) ls
          = 0 :: (replicate (Z.to_nat l0 - 1) 0 ++ group_codes (0 + 1) ls))
    as Hhd.
  { replace (Z.to_nat l0) with (S (Z.to_nat l0 - 1)) at 1 by lia.
    reflexivity. }
  rewrite Hhd, scan_first by lia. rewrite <- Hhd.
  rewrite scan_group_codes by (assumption || lia). reflexivity.
Qed.

(** X14. The codes [from_pd_group_by] builds from the sizes of the
    groups are those of consecutive groups numbered from 0, and
    [get_group_lens_nb] reads the sizes back from them, provided no group
    is empty. *)
Theorem pd_group_codes_round_trip :
  forall (l0 : Z) (ls : list Z),
    Forall (Z.lt 0) (l0 :: ls) ->
    pd_group_codes (l0 :: ls) = Ok (group_codes 0 (l0 :: ls))
    /\ get_group_lens_nb (group_codes 0 (l0 :: ls)) = Ok (l0 :: ls).
Proof.
  intros l0 ls Hpos. split.
  - apply pd_group_codes_Ok. exact Hpos.
  - apply get_group_lens_nb_group_codes. exact Hpos.
Qed.

Lemma pd_group_codes_round_trip_witness :
  pd_group_codes [3; 2] = Ok [0; 0; 0; 1; 1]
  /\ get_group_lens_nb [0; 0; 0; 1; 1] = Ok [3; 2].
Proof.
  apply (pd_group_codes_round_trip 3 [2]).
  repeat constructor.
Defined.

(** ** The labels of [from_pd_group_by] *)

Lemma take_labels_app (keys : list label) (a b : list Z) :
  take_labels keys (a ++ b)
  = (x ← take_labels keys a; y ← take_labels keys b; Ok (x ++ y)).
Proof.
  induction a as [|c a IH]; cbn [app take_labels].
  - cbn. destruct (take_labels keys b); reflexivity.
  - case_decide; [|reflexivity].
    destruct (keys !! Z.to_nat c); [|reflexivity].
    rewrite IH. destruct (take_labels keys a); [|reflexivity].
    cbn. destruct (take_labels keys b); reflexivity.
Qed.

Lemma take_labels_replicate (keys : list label) (n : nat) (c : Z) (k : label) :
  0 <= c -> keys !! Z.to_nat c = Some k ->
  take_labels keys (replicate n c) = Ok (replicate n k).
Proof.
  intros Hc Hk. induction n as [|n IH]; [reflexivity|].
  cbn [replicate take_labels]. case_decide; [|lia].
  rewrite Hk, IH. reflexivity.
Qed.

Lemma take_labels_group_codes :
  forall (lens : list Z) (keys ks : list label) (c : Z),
    0 <= c -> drop (Z.to_nat c) keys = ks ->
    (length lens <= length ks)%nat ->
    take_labels keys (group_codes c lens)
    = Ok (concat (zip_with (fun k l => replicate (Z.to_nat l) k) ks lens)).
Proof.
  induction lens as [|l lens IH]; intros keys ks c Hc Hks Hlen;
    [destruct ks; reflexivity|].
  destruct ks as [|k ks]; [simpl in Hlen; lia|].
  assert (keys !! Z.to_nat c = Some k) as Hk.
  { pose proof (lookup_drop keys (Z.to_nat c) 0) as H.
    rewrite Hks, Nat.add_0_r in H. symmetry. exact H. }
  assert (drop (Z.to_nat (c + 1)) keys = ks) as Hks'.
  { rewrite (drop_S _ _ _ Hk) in Hks. injection Hks as <-.
    f_equal. lia. }
  cbn [group_codes zip_with concat].
  rewrite take_labels_app, (take_labels_replicate _ _ _ k Hc Hk).
  rewrite (IH keys ks (c + 1)) by (simpl in Hlen; lia || assumption).
  reflexivity.
Qed.

Lemma group_labels_lens (idxs : list (list Z)) (ks : list label) :
  concat (zip_with (fun k l => replicate (Z.to_nat l) k) ks
                   ((fun idx : list Z => Z.of_nat (length idx)) <$> idxs))
  = group_labels ks idxs.
Proof.
  unfold group_labels. revert ks.
  induction idxs as [|idx idxs IH]; intros [|k ks]; try reflexivity.
  cbn [fmap list_fmap zip_with concat]. rewrite Nat2Z.id. f_equal. apply IH.
Qed.

Lemma group_labels_length (idxs : list (list Z)) (ks : list label) :
  (length idxs <= length ks)%nat ->
  length (group_labels ks idxs) = length (concat idxs).
Proof.
  unfold group_labels. revert ks.
  induction idxs as [|idx idxs IH]; intros [|k ks] Hlen; try reflexivity;
    simpl in Hlen; [lia|].
  cbn [zip_with concat]. rewrite !length_app, length_replicate.
  f_equal. apply IH. lia.
Qed.

Lemma lens_positive (idxs : list (list Z)) :
  Forall (fun idx => idx <> []) idxs ->
  Forall (Z.lt 0) ((fun idx : list Z => Z.of_nat (length idx)) <$> idxs).
Proof.
  induction 1 as [|idx idxs Hne _ IH]; [constructor|].
  cbn [fmap list_fmap]. constructor; [|exact IH].
  destruct idx; [done|]. simpl. lia.
Qed.

(** X15. From a pandas [GroupBy] with no empty group and a label for
    every group, [from_pd_group_by] builds the Grouper whose index is the
    positions of the rows, group after group, and whose mapper labels
    every position with the label of its group. *)
Theorem from_pd_group_by_labels :
  forall (g : PandasGroupBy) (ae ad am : bool),
    Forall (fun idx => idx <> []) (indices g) ->
    (length (indices g) <= length (count_index g))%nat ->
    from_pd_group_by g ae ad am
    = Ok {| index := LInt <$> concat (indices g);
            group_by := Some (group_labels (count_index g) (indices g));
            allow_enable := ae; allow_disable := ad; allow_modify := am |}.
Proof.
  intros g ae ad am Hne Hlen. unfold from_pd_group_by.
  pose proof (lens_positive _ Hne) as Hpos.
  set (lens := (fun idx : list Z => Z.of_nat (length idx)) <$> indices g)
    in *.
  assert (length lens = length (indices g)) as Hl
    by apply length_fmap.
  assert (pd_group_codes lens = Ok (group_codes 0 lens)) as ->.
  { destruct lens as [|l0 ls]; [discriminate Hl|].
    apply pd_group_codes_Ok. exact Hpos. }
  cbn [mbind result_bind Py.bind].
  rewrite (take_labels_group_codes _ (count_index g) (count_index g) 0)
    by (reflexivity || lia).
  cbn [mbind result_bind Py.bind].
  unfold lens. rewrite group_labels_lens.
  unfold Grouper_init. rewrite group_by_to_index_own; [reflexivity|].
  rewrite length_fmap. apply group_labels_length. exact Hlen.
Qed.

Lemma from_pd_group_by_labels_witness :
  from_pd_group_by two_groups true true true
  = Ok {| index := [LInt 0; LInt 1; LInt 2; LInt 3; LInt 4];
          group_by := Some [LStr "x"; LStr "x"; LStr "x"; LStr "y"; LStr "y"];
          allow_enable := true; allow_disable := true;
          allow_modify := true |}.
Proof.
  apply (from_pd_group_by_labels two_groups true true true).
  - repeat constructor; discriminate.
  - simpl. lia.
Defined.

(** ** [group_by_evenly_nb] *)

Lemma wrap64_small (z : Z) : - 2 ^ 63 <= z < 2 ^ 63 -> wrap64 z = z.
Proof. intros H. unfold wrap64. rewrite Z.mod_small; lia. Qed.

Lemma sorted_bounded_length (l : list Z) (lo hi : Z) :
  StronglySorted Z.lt l -> Forall (fun c => lo <= c < hi) l ->
  Z.of_nat (length l) <= Z.max 0 (hi - lo).
Proof.
  intros Hs. revert lo. induction Hs as [|x l _ IH Hall]; intros lo Hb.
  - simpl. lia.
  - apply Forall_cons in Hb as [Hx Hb].
    assert (Forall (fun c => x + 1 <= c < hi) l) as Hb'.
    { rewrite Forall_forall in *. intros c Hc.
      specialize (Hall c Hc). specialize (Hb c Hc). lia. }
    specialize (IH (x + 1) Hb'). simpl length. lia.
Qed.

Lemma evenly_code_bounds (n ns i : Z) :
  0 < n -> 0 <= ns -> 0 <= i < n ->
  0 <= i * ns / n
  /\ i * ns / n < Z.max ns 1
  /\ 0 <= ns / (2 * n)
  /\ i * ns / n + ns / (2 * n) <= ns.
Proof.
  intros Hn Hns Hi.
  assert (0 <= i * ns) as Ha by nia.
  assert (i * ns <= (n - 1) * ns) as Hb by nia.
  pose proof (Z.mul_div_le (i * ns) n Hn) as H1.
  pose proof (Z.mul_div_le ns (2 * n) ltac:(lia)) as H2.
  assert (0 <= i * ns / n) as H3 by (apply Z.div_pos; lia).
  assert (0 <= ns / (2 * n)) as H4 by (apply Z.div_pos; lia).
  repeat split; try assumption.
  - destruct (Z.eq_dec ns 0) as [->|Hnz].
    + rewrite Z.mul_0_r, Z.div_0_l by lia. lia.
    + apply Z.div_lt_upper_bound; [lia|]. nia.
  - nia.
Qed.

(** X16. For a space of [n > 0] values and [n_splits >= 0] with
    [n * n_splits] and [2 * n] within 64 bits, [group_by_evenly_nb]
    computes [i * n_splits // n + n_splits // (2 * n)] at every [i]
    without wrap-around, and the codes are accepted by
    [get_group_lens_nb]: the lengths sum to [n] and there are at most
    [max(n_splits, 1)] groups. *)
Theorem group_by_evenly_nb_groups :
  forall n n_splits : Z,
    0 < n -> 0 <= n_splits -> n * n_splits < 2 ^ 63 -> 2 * n < 2 ^ 63 ->
    exists out lens : list Z,
      group_by_evenly_nb n n_splits = Ok out
      /\ out = (fun i : nat => Z.of_nat i * n_splits / n + n_splits / (2 * n))
                 <$> seq 0 (Z.to_nat n)
      /\ non_decreasing out
      /\ get_group_lens_nb out = Ok lens
      /\ sum_list_Z lens = n
      /\ Z.of_nat (length lens) <= Z.max n_splits 1.
Proof.
  intros n ns Hn Hns Hmul H2n.
  set (g := fun i : nat => Z.of_nat i * ns / n + ns / (2 * n)).
  set (out := g <$> seq 0 (Z.to_nat n)).
  assert (forall i : nat, (i < Z.to_nat n)%nat ->
            ns / (2 * n) <= g i < ns / (2 * n) + Z.max ns 1
            /\ 0 <= g i) as Hg.
  { intros i Hi. unfold g.
    pose proof (evenly_code_bounds n ns (Z.of_nat i) Hn Hns ltac:(lia)). lia. }
  assert (group_by_evenly_nb n ns = Ok out) as Hout.
  { unfold group_by_evenly_nb. rewrite (proj2 (Z.ltb_ge n 0)) by lia.
    f_equal. apply Forall_fmap_ext_1, Forall_forall.
    intros i [_ Hi]%elem_of_seq. unfold g.
    pose proof (evenly_code_bounds n ns (Z.of_nat i) Hn Hns ltac:(lia))
      as (H1 & _ & H3 & H4).
    assert (0 <= Z.of_nat i * ns <= n * ns) as Hb by nia.
    assert (ns <= n * ns) as Hb' by nia.
    rewrite (wrap64_small (Z.of_nat i * ns)) by lia.
    rewrite (wrap64_small (2 * n)) by lia.
    rewrite (wrap64_small (Z.of_nat i * ns / n)) by lia.
    rewrite (wrap64_small (ns / (2 * n))) by lia.
    apply wrap64_small. lia. }
  assert (forall (i : nat) (a : Z), out !! i = Some a ->
            a = g i /\ (i < Z.to_nat n)%nat) as Hlk.
  { intros i a Ha. unfold out in Ha. rewrite list_lookup_fmap in Ha.
    destruct (seq 0 (Z.to_nat n) !! i) as [k|] eqn:Hk; [|discriminate].
    apply lookup_seq in Hk as [-> Hk]. simpl in Ha. simplify_eq. auto. }
  assert (non_decreasing out) as Hs.
  { intros i a b Ha Hb.
    apply Hlk in Ha as [-> _]. apply Hlk in Hb as [-> _]. unfold g.
    apply Z.add_le_mono_r, Z.div_le_mono; [lia|]. nia. }
  assert (Forall (fun c => ns / (2 * n) <= c < ns / (2 * n) + Z.max ns 1)
                 out) as Hin.
  { apply Forall_forall. intros c Hc.
    apply list_elem_of_lookup in Hc as [i Hi].
    apply Hlk in Hi as [-> Hi]. apply Hg. exact Hi. }
  assert (Forall (Z.le 0) out) as Hpos.
  { apply Forall_forall. intros c Hc.
    apply list_elem_of_lookup in Hc as [i Hi].
    apply Hlk in Hi as [-> Hi]. apply Hg. exact Hi. }
  assert (get_group_lens_nb out = Ok (runs out).*2) as Hlens.
  { rewrite get_group_lens_nb_scan. apply scan_runs_start; assumption. }
  exists out, (runs out).*2.
  repeat split; try assumption; try reflexivity.
  - apply get_group_lens_nb_Ok_inv in Hlens as (_ & -> & _).
    unfold out. rewrite length_fmap, length_seq. lia.
  - rewrite length_fmap, <- (length_fmap fst).
    pose proof (sorted_bounded_length (runs out).*1 (ns / (2 * n))
                  (ns / (2 * n) + Z.max ns 1)
                  (runs_codes_sorted out Hs)) as Hlen.
    etransitivity; [apply Hlen|lia].
    apply Forall_forall. intros c Hc.
    rewrite Forall_forall in Hin. apply Hin.
    destruct out as [|x l] eqn:Ho; [simpl in Hc; inversion Hc|].
    rewrite <- (elem_of_expand (runs (x :: l)) c) in Hc
      by (apply close_runs_lens_pos; lia).
    unfold runs in Hc. rewrite expand_close_runs in Hc by lia.
    exact Hc.
Qed.

Lemma group_by_evenly_nb_groups_witness :
  exists out lens : list Z,
    group_by_evenly_nb 5 2 = Ok out
    /\ out = (fun i : nat => Z.of_nat i * 2 / 5 + 2 / (2 * 5))
               <$> seq 0 (Z.to_nat 5)
    /\ non_decreasing out
    /\ get_group_lens_nb out = Ok lens
    /\ sum_list_Z lens = 5
    /\ Z.of_nat (length lens) <= Z.max 2 1.
Proof.
  apply (group_by_evenly_nb_groups 5 2); lia.
Defined.

End GroupCodesFacts.

(* ===================================================================== *)
(** * [Portfolio.regroup] under cash sharing *)
(* ===================================================================== *)

Module RegroupFacts.

Import Py Grouping PortfolioMethods GrouperFacts GrouperMore.

Section Regroup.

Variable Portfolio : Type.
Variable cash_sharing : Portfolio -> bool.
Variable grouper : Portfolio -> Grouper.
Variable Wrapping_regroup : Portfolio -> group_by_like -> Py.result Portfolio.

Abbreviation regroup :=
  (regroup Portfolio cash_sharing grouper Wrapping_regroup).

(** X17. With cash sharing, [regroup] on a grouped portfolio refuses a
    mapper exactly when it groups the columns differently from the
    mapper in force (other columns together, or other columns without a
    label): such a mapper raises the [ValueError] of the method, and a
    relabelling of the same groups is handed to [Wrapping.regroup]. *)
Theorem regroup_cash_sharing :
  forall (self : Portfolio) (gb : group_by_like) (cur new : list label),
    cash_sharing self = true ->
    group_by (grouper self) = Some cur ->
    length cur = length (index (grouper self)) ->
    group_by_to_index (index (grouper self)) gb = Ok (GBIndex new) ->
    (~ same_grouping new cur ->
     regroup self gb = Raise (ValueError cash_sharing_msg))
    /\ (same_grouping new cur ->
        regroup self gb = Wrapping_regroup self gb).
Proof.
  intros self gb cur new Hcs Hg Hcur Hnew.
  destruct (group_by_to_index_Index _ _ _ Hnew) as (Hlen & Hown & Hgb).
  assert (is_grouping_modified (grouper self) gb
          = Ok (negb (bool_decide ((factorize new).1 = (factorize cur).1))))
    as Hmod.
  { unfold is_grouping_modified.
    assert ((match gb with
             | GBNone => true
             | GBBool false => bool_decide (group_by (grouper self) = None)
             | _ => false
             end) = false) as ->
      by (destruct Hgb as [-> | ->]; reflexivity).
    rewrite Hnew, Hg. cbn -[get_groups_and_index].
    unfold get_groups_and_index.
    rewrite Hown, (group_by_to_index_own _ _ Hcur). cbn -[factorize].
    case_bool_decide as Heq.
    - subst new. cbn -[factorize].
      rewrite bool_decide_eq_true_2 by reflexivity. reflexivity.
    - cbn -[factorize]. case_bool_decide; reflexivity. }
  unfold PortfolioMethods.regroup. rewrite Hcs, Hmod. cbn -[factorize].
  split; intros Hsame.
  - rewrite bool_decide_eq_false_2; [reflexivity|].
    intros Heq. apply Hsame. apply factorize_codes_eq_iff; [lia|exact Heq].
  - rewrite bool_decide_eq_true_2; [reflexivity|].
    apply factorize_codes_eq_iff; [lia|exact Hsame].
Qed.

(** X18. With cash sharing, [regroup] never disables the grouping of a
    grouped portfolio: [group_by=False] raises the [ValueError] of the
    method, whether or not the Grouper allows disabling. *)
Theorem regroup_cash_sharing_disable :
  forall self : Portfolio,
    cash_sharing self = true ->
    is_Some (group_by (grouper self)) ->
    regroup self (GBBool false) = Raise (ValueError cash_sharing_msg).
Proof.
  intros self Hcs [cur Hg].
  unfold PortfolioMethods.regroup, is_grouping_modified.
  rewrite Hcs, Hg. reflexivity.
Qed.

End Regroup.

Lemma regroup_cash_sharing_witness :
  demo_regroup (true, grouped3 true) (GBIndex cols3)
  = Raise (ValueError cash_sharing_msg)
  /\ demo_regroup (true, grouped3 true) (GBIndex by_na)
     = Raise (ValueError cash_sharing_msg)
  /\ demo_regroup (true, grouped3 true) (GBIndex by_pq)
     = demo_Wrapping_regroup (true, grouped3 true) (GBIndex by_pq).
Proof.
  split; [|split].
  - apply (proj1 (regroup_cash_sharing demo_portfolio fst snd
                    demo_Wrapping_regroup (true, grouped3 true)
                    (GBIndex cols3) by_xy cols3
                    eq_refl eq_refl eq_refl eq_refl)).
    intros H. apply factorize_codes_eq_iff in H; [discriminate H|reflexivity].
  - apply (proj1 (regroup_cash_sharing demo_portfolio fst snd
                    demo_Wrapping_regroup (true, grouped3 true)
                    (GBIndex by_na) by_xy by_na
                    eq_refl eq_refl eq_refl eq_refl)).
    intros H. apply factorize_codes_eq_iff in H; [discriminate H|reflexivity].
  - apply (proj2 (regroup_cash_sharing demo_portfolio fst snd
                    demo_Wrapping_regroup (true, grouped3 true)
                    (GBIndex by_pq) by_xy by_pq
                    eq_refl eq_refl eq_refl eq_refl)).
    exact same_grouping_by_pq.
Defined.

Lemma regroup_cash_sharing_disable_witness :
  demo_regroup (true, grouped3 true) (GBBool false)
  = Raise (ValueError cash_sharing_msg).
Proof.
  apply (regroup_cash_sharing_disable demo_portfolio fst snd
           demo_Wrapping_regroup (true, grouped3 true) eq_refl).
  exists by_xy. reflexivity.
Defined.

End RegroupFacts.

(* ===================================================================== *)
(** * More on the preparation of the drivers *)
(* ===================================================================== *)

Module DriverMore.

Import Py Drivers Demo DemoMore DriverFacts.

Section Facts.

Variables (rng_state rest sim_args sim_out : Type).
Variable portfolio_cfg : string -> pyval.
Variable map_enum_fields : pyval -> string -> Py.result pyval.
Variable set_seed : pyval -> Py.result rng_state.
Variable prepare :
  driver -> resolved rest -> rng_state -> Py.result sim_args * rng_state.
Variable simulate :
  driver -> sim_args -> rng_state -> Py.result sim_out * rng_state.

Abbreviation resolve_head := (resolve_head rest portfolio_cfg map_enum_fields).
Abbreviation resolve_tail := (resolve_tail rest portfolio_cfg).
Abbreviation resolve_args := (resolve_args rng_state rest portfolio_cfg
                                           map_enum_fields set_seed).
Abbreviation run := (run rng_state rest sim_args sim_out portfolio_cfg
                         map_enum_fields set_seed prepare simulate).

(** What the first part of a preparation that succeeds leaves in
    [init_cash] and [group_by]. *)
Lemma resolve_head_cash (d : driver) (a : args rest) (r : resolved rest) :
  resolve_head d a = Ok r ->
  resolve_init_cash portfolio_cfg map_enum_fields (a_init_cash a)
  = Ok (r_init_cash r, r_init_cash_mode r)
  /\ exists shared : bool,
      truth (or_cfg portfolio_cfg (a_cash_sharing a) "cash_sharing")
      = Ok shared
      /\ r_group_by r
         = if shared && is_none (a_group_by a) then PBool true
           else a_group_by a.
Proof.
  unfold Drivers.resolve_head. intros H.
  destruct (match d with
            | FromSignals =>
                if a_signal_arrays a && a_signal_func a
                then Raise (ValueError signals_msg) else Ok tt
            | _ => Ok tt
            end); [|discriminate].
  simpl in H.
  destruct (map_enums _ _ _ _) as [enums|]; [|discriminate]. simpl in H.
  destruct (resolve_init_cash _ _ _) as [[ic m]|]; [|discriminate].
  simpl in H.
  destruct (truth (or_cfg _ (a_cash_sharing a) _)) as [shared|];
    [|discriminate].
  simpl in H.
  destruct d.
  - destruct (resolve_call_seq _ _ _) as [[c b]|]; [|discriminate].
    injection H as <-. simpl. eauto.
  - destruct (resolve_call_seq _ _ _) as [[c b]|]; [|discriminate].
    injection H as <-. simpl. eauto.
  - destruct (truth (or_cfg _ (a_flexible a) _)) as [fl|]; [|discriminate].
    simpl in H.
    destruct (check_call_seq _ _ fl _) as [c|]; [|discriminate].
    injection H as <-. simpl. eauto.
Qed.

Lemma resolve_tail_cash (r r' : resolved rest) :
  resolve_tail r = Ok r' ->
  r_init_cash r' = r_init_cash r
  /\ r_init_cash_mode r' = r_init_cash_mode r
  /\ r_flexible r' = r_flexible r
  /\ r_group_by r' = or_cfg portfolio_cfg (r_group_by r) "group_by".
Proof.
  unfold Drivers.resolve_tail.
  destruct (check_group_select _ _); [|discriminate].
  intros [= <-]. repeat split; reflexivity.
Qed.

(** X19. An [init_cash] given as an integer (or a boolean) that is a
    member of [InitCashMode] is never used as an amount of cash: every
    driver whose preparation succeeds works with infinite cash and takes
    the integer for the mode. *)
Theorem init_cash_member_is_mode :
  forall (d : driver) (a : args rest) (w : world rng_state)
         (r : resolved rest) (z : Z),
    as_int (a_init_cash a) = Some z ->
    in_InitCashMode z = true ->
    (resolve_args d a w).1 = Ok r ->
    r_init_cash r = PFloat infinity /\ r_init_cash_mode r = Some z.
Proof.
  intros d a w r z Hz Hin Hr.
  destruct (resolve_args_Ok _ _ _ _ _ _ _ _ _ Hr) as (r0 & Hhead & Htail).
  destruct (resolve_tail_cash _ _ Htail) as (-> & -> & _).
  destruct (resolve_head_cash _ _ _ Hhead) as [Hic _].
  unfold resolve_init_cash, or_cfg in Hic.
  destruct (a_init_cash a) as [|b|z'| | | | |]; try discriminate Hz;
    simpl in Hz, Hic; injection Hz as <-; rewrite Hin in Hic;
    injection Hic as <- <-; split; reflexivity.
Qed.

(** X20. The default of [group_by] in the settings is consulted only
    without cash sharing: with [cash_sharing] true and no [group_by]
    given, every driver whose preparation succeeds groups all the columns
    ([group_by=True]); otherwise it takes the [group_by] given, or the
    default when none is given. *)
Theorem group_by_under_cash_sharing :
  forall (d : driver) (a : args rest) (w : world rng_state)
         (r : resolved rest),
    (resolve_args d a w).1 = Ok r ->
    exists shared : bool,
      truth (or_cfg portfolio_cfg (a_cash_sharing a) "cash_sharing")
      = Ok shared
      /\ r_group_by r
         = if shared && is_none (a_group_by a) then PBool true
           else or_cfg portfolio_cfg (a_group_by a) "group_by".
Proof.
  intros d a w r Hr.
  destruct (resolve_args_Ok _ _ _ _ _ _ _ _ _ Hr) as (r0 & Hhead & Htail).
  destruct (resolve_tail_cash _ _ Htail) as (_ & _ & _ & ->).
  destruct (resolve_head_cash _ _ _ Hhead) as (_ & shared & Hs & ->).
  exists shared. split; [exact Hs|].
  destruct (shared && is_none (a_group_by a)); reflexivity.
Qed.

(** X21. In flexible mode [from_order_func] does not look at
    [call_seq]: a preparation that succeeds hands on the argument as
    given, [CallSeqType.Auto] and [None] included, without the default
    of the settings and without mapping it. *)
Theorem flexible_keeps_call_seq :
  forall (a : args rest) (w : world rng_state) (r : resolved rest),
    truth (or_cfg portfolio_cfg (a_flexible a) "flexible") = Ok true ->
    (resolve_args FromOrderFunc a w).1 = Ok r ->
    r_flexible r = true
    /\ r_call_seq r = a_call_seq a
    /\ r_auto_call_seq r = false.
Proof.
  intros a w r Hfl Hr.
  destruct (resolve_args_Ok _ _ _ _ _ _ _ _ _ Hr) as (r0 & Hhead & Htail).
  destruct (resolve_tail_Ok _ _ _ _ Htail) as [-> ->].
  destruct (resolve_tail_cash _ _ Htail) as (_ & _ & -> & _).
  pose proof (resolve_head_Ok _ _ _ _ _ _ Hhead)
    as (_ & _ & c & Hc & Hf & -> & ->).
  rewrite Hfl in Hf. injection Hf as Hf. rewrite <- Hf in Hc |- *.
  unfold check_call_seq in Hc. simpl in Hc. injection Hc as <-.
  repeat split; reflexivity.
Qed.

(** X22. Without a seed, neither given nor in the settings, the
    preparation of a driver leaves the random generators and the count
    of kernel runs as they were, whether it succeeds or raises. *)
Theorem no_seed_keeps_generators :
  forall (d : driver) (a : args rest) (w : world rng_state),
    is_none (or_cfg portfolio_cfg (a_seed a) "seed") = true ->
    (resolve_args d a w).2 = w.
Proof.
  intros d a w Hseed. rewrite resolve_args_unfold.
  destruct (Drivers.resolve_head _ _ _ _ _); [|reflexivity].
  cbn zeta. rewrite Hseed. reflexivity.
Qed.


(** X24. [from_signals] given both signal arrays and a signal function
    raises the [ValueError] of its first check whatever the other
    arguments are: no argument is mapped, no seed is set and no kernel
    runs. *)
Theorem signals_both_raises_first :
  forall (a : args rest) (w : world rng_state),
    a_signal_arrays a = true ->
    a_signal_func a = true ->
    run FromSignals a w = (Raise (ValueError signals_msg), w).
Proof.
  intros a w Harr Hfun.
  unfold Drivers.run, bindM. rewrite resolve_args_unfold.
  unfold Drivers.resolve_head. rewrite Harr, Hfun. reflexivity.
Qed.

End Facts.

Lemma init_cash_member_is_mode_witness :
  exists r : resolved Kernel.SimArgs,
    (demo_resolve_args FromOrders
       (demo_args_with FromOrders true false PNone (PInt 1) PNone PNone
                       PNone PNone None) world0).1 = Ok r
    /\ r_init_cash r = PFloat infinity
    /\ r_init_cash_mode r = Some 1.
Proof.
  destruct (demo_resolve_args FromOrders
              (demo_args_with FromOrders true false PNone (PInt 1) PNone
                              PNone PNone PNone None) world0).1
    as [r|e] eqn:Hr.
  - exists r. split; [reflexivity|].
    exact (init_cash_member_is_mode Z Kernel.SimArgs demo_cfg
             demo_map_enum_fields demo_set_seed FromOrders
             (demo_args_with FromOrders true false PNone (PInt 1) PNone
                             PNone PNone PNone None) world0 r 1
             eq_refl eq_refl Hr).
  - vm_compute in Hr. discriminate Hr.
Defined.

Lemma group_by_under_cash_sharing_witness :
  exists r : resolved Kernel.SimArgs,
    (demo_resolve_args FromSignals
       (demo_args_with FromSignals true false PNone (PInt 100) (PBool true)
                       PNone PNone PNone None) world0).1 = Ok r
    /\ exists shared : bool,
        truth (or_cfg demo_cfg (PBool true) "cash_sharing") = Ok shared
        /\ r_group_by r
           = if shared && is_none PNone then PBool true
             else or_cfg demo_cfg PNone "group_by".
Proof.
  destruct (demo_resolve_args FromSignals
              (demo_args_with FromSignals true false PNone (PInt 100)
                              (PBool true) PNone PNone PNone None) world0).1
    as [r|e] eqn:Hr.
  - exists r. split; [reflexivity|].
    exact (group_by_under_cash_sharing Z Kernel.SimArgs demo_cfg
             demo_map_enum_fields demo_set_seed FromSignals
             (demo_args_with FromSignals true false PNone (PInt 100)
                             (PBool true) PNone PNone PNone None)
             world0 r Hr).
  - vm_compute in Hr. discriminate Hr.
Defined.

Lemma flexible_keeps_call_seq_witness :
  exists r : resolved Kernel.SimArgs,
    (demo_resolve_args FromOrderFunc
       (demo_args_with FromOrderFunc false false (PBool true) (PInt 100)
                       PNone (PInt CallSeqType.Auto) PNone PNone None)
       world0).1 = Ok r
    /\ r_flexible r = true
    /\ r_call_seq r = PInt CallSeqType.Auto
    /\ r_auto_call_seq r = false.
Proof.
  destruct (demo_resolve_args FromOrderFunc
              (demo_args_with FromOrderFunc false false (PBool true)
                              (PInt 100) PNone (PInt CallSeqType.Auto)
                              PNone PNone None) world0).1
    as [r|e] eqn:Hr.
  - exists r. split; [reflexivity|].
    exact (flexible_keeps_call_seq Z Kernel.SimArgs demo_cfg
             demo_map_enum_fields demo_set_seed
             (demo_args_with FromOrderFunc false false (PBool true)
                             (PInt 100) PNone (PInt CallSeqType.Auto)
                             PNone PNone None) world0 r eq_refl Hr).
  - vm_compute in Hr. discriminate Hr.
Defined.

Lemma no_seed_keeps_generators_witness :
  (demo_resolve_args FromOrders
     (demo_args_with FromOrders true false PNone (PInt 100) PNone PNone
                     PNone PNone None) world1).2 = world1.
Proof.
  exact (no_seed_keeps_generators Z Kernel.SimArgs demo_cfg
           demo_map_enum_fields demo_set_seed FromOrders
           (demo_args_with FromOrders true false PNone (PInt 100) PNone
                           PNone PNone PNone None) world1 eq_refl).
Defined.


Lemma signals_both_raises_first_witness :
  demo_run FromSignals
    (demo_args_with FromSignals true true PNone (PStr "all") PNone
                    (PStr "unknown") (PInt 42) PNone None) world1
  = (Raise (ValueError signals_msg), world1).
Proof.
  exact (signals_both_raises_first Z Kernel.SimArgs Kernel.SimArgs
           (list Kernel.order_record) demo_cfg demo_map_enum_fields
           demo_set_seed demo_prepare demo_simulate
           (demo_args_with FromSignals true true PNone (PStr "all") PNone
                           (PStr "unknown") (PInt 42) PNone None) world1
           eq_refl eq_refl).
Defined.

End DriverMore.

(* ===================================================================== *)
(** * More on the tolerant float helpers *)
(* ===================================================================== *)

Module MathMore.

Import Math MathFacts.
#[local] Open Scope float_scope.

(** ** The order of binary64 *)

Lemma ltb_irrefl (a : float) : (a <? a) = false.
Proof.
  rewrite FloatAxioms.ltb_spec.
  destruct (Prim2SF a) as [s|s| |s m e]; try destruct s;
    unfold SFltb, SFcompare; try reflexivity;
    rewrite Z.compare_refl, Pos.compare_cont_refl; reflexivity.
Qed.

Lemma ltb_asym (a b : float) : (a <? b) = true -> (b <? a) = false.
Proof.
  rewrite !FloatAxioms.ltb_spec.
  destruct (Prim2SF a) as [s|s| |s m e]; destruct (Prim2SF b) as [s'|s'| |s' m' e'];
    try destruct s; try destruct s'; unfold SFltb, SFcompare;
    try reflexivity; try discriminate.
  - pose proof (Pos.compare_cont_antisym m m' Eq) as Hc. simpl in Hc.
    rewrite (Z.compare_antisym e e'), <- Hc.
    destruct (e ?= e')%Z; simpl; try reflexivity; try discriminate.
    destruct (Pos.compare_cont Eq m m'); simpl; try reflexivity;
      discriminate.
  - pose proof (Pos.compare_cont_antisym m m' Eq) as Hc. simpl in Hc.
    rewrite (Z.compare_antisym e e'), <- Hc.
    destruct (e ?= e')%Z; simpl; try reflexivity; try discriminate.
    destruct (Pos.compare_cont Eq m m'); simpl; try reflexivity;
      discriminate.
Qed.

(** A float that is neither NaN nor infinite is a zero or a finite
    number. *)
Lemma finite_cases (a : float) :
  isnan a = false -> isinf a = false ->
  (exists s, Prim2SF a = S754_zero s)
  \/ (exists s m e, Prim2SF a = S754_finite s m e).
Proof.
  unfold isnan, isinf.
  rewrite !FloatAxioms.eqb_spec, FloatAxioms.abs_spec.
  destruct (Prim2SF a) as [s|s| |s m e]; eauto.
  - destruct s; discriminate.
  - discriminate.
Qed.

Lemma eqb_refl_finite (a : float) : isnan a = false -> (a =? a) = true.
Proof. unfold isnan. destruct (a =? a); [reflexivity|discriminate]. Qed.

Lemma is_close_nb_refl (a : float) (u : bool) (r t : float) :
  isnan a = false -> isinf a = false -> is_close_nb a a u r t = true.
Proof.
  intros Hn Hi. unfold is_close_nb.
  rewrite Hn, Hi, (eqb_refl_finite a Hn). reflexivity.
Qed.

(** ** A number against itself *)

(** X25. No number is less than itself for [is_less_nb], and
    [is_close_or_less_nb] on a finite number and itself returns its
    [use_tol] argument: with [use_tol=False] a number is not
    close-or-less to itself. *)
Theorem is_close_or_less_nb_self :
  forall (cfg : settings) (a : float) (u : bool) (r t : float),
    is_less_nb cfg a a u r t = false
    /\ (isnan a = false -> isinf a = false ->
        is_close_or_less_nb cfg a a u r t = u).
Proof.
  intros cfg a u r t. split.
  - unfold is_less_nb. rewrite ltb_irrefl.
    destruct (u && _); reflexivity.
  - intros Hn Hi. unfold is_close_or_less_nb.
    rewrite (is_close_nb_refl a _ r t Hn Hi), andb_true_r, ltb_irrefl.
    destruct u; reflexivity.
Qed.

Lemma is_close_or_less_nb_self_witness :
  is_less_nb default_settings 2 2 true 1e-9 1e-12 = false
  /\ is_close_or_less_nb default_settings 2 2 false 1e-9 1e-12 = false.
Proof.
  destruct (is_close_or_less_nb_self default_settings 2 false 1e-9 1e-12)
    as [_ H].
  split; [reflexivity|]. apply H; reflexivity.
Defined.

(** ** The tolerant order *)

(** X26. [is_less_nb] is stronger than both the plain [<] and
    [is_close_or_less_nb], and it is asymmetric: when it holds of [a]
    and [b] it fails of [b] and [a]. *)
Theorem is_less_nb_order :
  forall (cfg : settings) (a b : float) (u : bool) (r t : float),
    is_less_nb cfg a b u r t = true ->
    (a <? b) = true
    /\ is_close_or_less_nb cfg a b u r t = true
    /\ is_less_nb cfg b a u r t = false.
Proof.
  intros cfg a b u r t. unfold is_less_nb, is_close_or_less_nb.
  destruct (u && is_close_nb a b (_use_tol cfg) r t); [discriminate|].
  intros H. rewrite H, (ltb_asym a b H).
  repeat split. destruct (u && _); reflexivity.
Qed.

Lemma is_less_nb_order_witness :
  is_less_nb default_settings 1 2 true 1e-9 1e-12 = true
  /\ (1 <? 2) = true
  /\ is_close_or_less_nb default_settings 1 2 true 1e-9 1e-12 = true
  /\ is_less_nb default_settings 2 1 true 1e-9 1e-12 = false.
Proof.
  split; [reflexivity|].
  exact (is_less_nb_order default_settings 1 2 true 1e-9 1e-12 eq_refl).
Defined.

(** ** The module default of [use_tol] *)

(** X27. The inner calls of [is_close_nb] do not pass [use_tol] on, so
    the module default decides: when it is [False], the four helpers
    built on [is_close_nb] do not depend on the tolerances, whatever
    [use_tol] they are called with. *)
Theorem use_tol_default_off :
  forall (cfg : settings) (a b : float) (u : bool) (r t r' t' : float),
    _use_tol cfg = false ->
    is_close_or_less_nb cfg a b u r t = is_close_or_less_nb cfg a b u r' t'
    /\ is_less_nb cfg a b u r t = is_less_nb cfg a b u r' t'
    /\ is_addition_zero_nb cfg a b u r t = is_addition_zero_nb cfg a b u r' t'
    /\ add_nb cfg a b u r t = add_nb cfg a b u r' t'.
Proof.
  intros cfg a b u r t r' t' Hcfg.
  assert (forall x y, is_close_nb x y false r t = is_close_nb x y false r' t')
    as Hc by reflexivity.
  unfold add_nb, is_addition_zero_nb, is_less_nb, is_close_or_less_nb.
  rewrite Hcfg, !Hc. repeat split; reflexivity.
Qed.

Lemma use_tol_default_off_witness :
  is_close_or_less_nb {| _use_tol := false; _rel_tol := 1e-9;
                         _abs_tol := 1e-12 |} 1 0.5 true 1 1
  = is_close_or_less_nb {| _use_tol := false; _rel_tol := 1e-9;
                           _abs_tol := 1e-12 |} 1 0.5 true 0 0.
Proof.
  exact (proj1 (use_tol_default_off
                  {| _use_tol := false; _rel_tol := 1e-9;
                     _abs_tol := 1e-12 |} 1 0.5 true 1 1 0 0 eq_refl)).
Defined.

(** ** A number and its opposite *)

Lemma opp_opp (a : float) : - - a = a.
Proof.
  apply FloatAxioms.Prim2SF_inj. rewrite !FloatAxioms.opp_spec.
  destruct (Prim2SF a) as [s|s| |s m e]; simpl; try rewrite negb_involutive;
    reflexivity.
Qed.

Lemma abs_opp (a : float) : abs (- a) = abs a.
Proof.
  apply FloatAxioms.Prim2SF_inj.
  rewrite !FloatAxioms.abs_spec, FloatAxioms.opp_spec.
  destruct (Prim2SF a) as [s|s| |s m e]; reflexivity.
Qed.

Lemma abs_finite (a : float) :
  isnan a = false -> isinf a = false ->
  isnan (abs a) = false /\ isinf (abs a) = false.
Proof.
  intros Hn Hi. destruct (finite_cases a Hn Hi) as [[s H]|(s & m & e & H)];
    unfold isnan, isinf;
    rewrite !FloatAxioms.eqb_spec, !FloatAxioms.abs_spec, H; simpl;
    unfold SFeqb, SFcompare;
    rewrite ?Z.compare_refl, ?Pos.compare_cont_refl; split; reflexivity.
Qed.

Lemma sign_opp_finite (a : float) (s : bool) (m : positive) (e : Z) :
  Prim2SF a = S754_finite s m e ->
  fneq (np_sign a) (np_sign (- a)) = true.
Proof.
  intros H.
  assert (Prim2SF (- a) = S754_finite (negb s) m e) as H'
    by (rewrite FloatAxioms.opp_spec, H; reflexivity).
  destruct s.
  - rewrite (np_sign_neg a), (np_sign_pos (- a)); [reflexivity| |];
      rewrite FloatAxioms.ltb_spec; [rewrite H'|rewrite H]; reflexivity.
  - rewrite (np_sign_pos a), (np_sign_neg (- a)); [reflexivity| |];
      rewrite FloatAxioms.ltb_spec; [rewrite H'|rewrite H]; reflexivity.
Qed.

Lemma is_addition_zero_nb_opp (cfg : settings) (a : float) (u : bool)
      (r t : float) :
  isnan a = false -> isinf a = false ->
  is_addition_zero_nb cfg a (- a) u r t = true.
Proof.
  intros Hn Hi. unfold is_addition_zero_nb. destruct u.
  - destruct (finite_cases a Hn Hi) as [[s H]|(s & m & e & H)].
    + rewrite <- (FloatAxioms.SF2Prim_Prim2SF a), H.
      destruct s; vm_compute; reflexivity.
    + rewrite (sign_opp_finite a s m e H), abs_opp.
      destruct (abs_finite a Hn Hi) as [Hn' Hi'].
      apply is_close_nb_refl; assumption.
  - rewrite opp_opp. apply eqb_refl_finite. exact Hn.
Qed.

(** X28. A finite number and its opposite always add up to zero for
    [is_addition_zero_nb], whatever the tolerances and [use_tol], so
    [add_nb] with [use_tol] set returns exactly [0.0] on them. *)
Theorem add_nb_opposite :
  forall (cfg : settings) (a : float) (u : bool) (r t : float),
    isnan a = false -> isinf a = false ->
    is_addition_zero_nb cfg a (- a) u r t = true
    /\ add_nb cfg a (- a) true r t = 0.
Proof.
  intros cfg a u r t Hn Hi. split.
  - apply is_addition_zero_nb_opp; assumption.
  - unfold add_nb. rewrite is_addition_zero_nb_opp by assumption.
    reflexivity.
Qed.

Lemma add_nb_opposite_witness :
  is_addition_zero_nb default_settings 0.1 (- 0.1) false 0 0 = true
  /\ add_nb default_settings 0.1 (- 0.1) true 0 0 = 0.
Proof.
  apply (add_nb_opposite default_settings 0.1 false 0 0); reflexivity.
Defined.

End MathMore.

(* ===================================================================== *)
(** * Replay of [from_orders] under a seed *)
(* ===================================================================== *)

Module ReplayFacts.

Import Py Drivers Demo Replay DriverFacts.

Section Replay.

Variable resolve_size :
  Kernel.SizeType -> Kernel.ExecState -> float -> float -> float.
Variable restrict_direction : Kernel.Direction -> float -> float -> float.
Variable truncate_granularity : float -> float -> float.
Variables (rng_state rest : Type).
Variable next_uniform : rng_state -> float * rng_state.
Variable sort_call_seq :
  Kernel.SimArgs -> Kernel.SimState rng_state -> nat -> nat -> list nat
  -> list nat.
Variable portfolio_cfg : string -> pyval.
Variable map_enum_fields : pyval -> string -> Py.result pyval.
Variable set_seed : pyval -> Py.result rng_state.
Variable prepare :
  driver -> resolved rest -> rng_state -> Py.result Kernel.SimArgs * rng_state.

Abbreviation kernel :=
  (simulate_from_orders resolve_size restrict_direction truncate_granularity
                        rng_state next_uniform sort_call_seq).
Abbreviation from_orders :=
  (from_orders_on_kernel resolve_size restrict_direction truncate_granularity
                         rng_state rest next_uniform sort_call_seq
                         portfolio_cfg map_enum_fields set_seed prepare).


End Replay.


End ReplayFacts.
